(** * diaes.js: scheduling and playback-state engine

    A shallow embedding of the player of [src/js/lib/diaes.js] (the
    CommonJS build: [Source], [SourceQueue], [Reader], [Player],
    [Manager]), which is the variant the specification describes
    (indexed [push], debounced seek, [STATE_FINISHED] handling).
    [src/diaes.js] is an earlier build of the same classes; the methods of
    its queue that differ are in the module [Earlier]. [_] is the global
    of lodash (underscore behaves alike on the two functions used,
    [_.find] and [_.debounce]).

    Conventions of the embedding.
    - JavaScript numbers that measure time are rationals ([Q]); the clock
      [context.currentTime] is passed to every method that reads it and is
      constant during one synchronous call.
    - Fragment numbers are integers ([Z]): [Math.floor] of a negative time
      is negative.
    - An uncaught [TypeError] (a property read on [undefined] or [null]) is
      the result [None] of the option monad.
    - Closures are defunctionalised: a callback is a constructor carrying
      the variables it captures.
    - Objects mutated in place live in the record that owns them; an array
      shared by several objects lives in one place of the store. *)

From Stdlib Require Import String ZArith QArith Qround Lia Lqa.
From stdpp Require Import base option list.

Close Scope Q_scope.
Close Scope string_scope.
Open Scope nat_scope.

(** ** JavaScript primitives used by the player *)

(** [ToNumber]: [null] counts as [0] in arithmetic. *)
Definition ToNumber (v : option Q) : Q := default 0%Q v.

(** Truthiness of a number that may be [undefined]: [if (offset)]. *)
Definition truthy (v : option Q) : bool :=
  match v with
  | Some x => negb (Qeq_bool x 0)
  | None => false
  end.

Definition Math_floor (x : Q) : Z := Qfloor x.

(** Truncation towards zero, as used by the remainder operator. *)
Definition Qtruncate (x : Q) : Z := Z.quot (Qnum x) (Zpos (Qden x)).

(** [a % b] on numbers: the remainder has the sign of the dividend. *)
Definition js_rem (a b : Q) : Q := (a - b * inject_Z (Qtruncate (a / b)))%Q.

(** [array[index]] for an integer index: [undefined] out of range. *)
Definition lookupZ {A} (l : list A) (index : Z) : option A :=
  if bool_decide (0 ≤ index)%Z then l !! Z.to_nat index else None.

Definition FRAGMENT_DURATION : Q := 15%Q.

Inductive State :=
| STATE_PAUSED
| STATE_PLAYING
| STATE_BUFFERING
| STATE_FINISHED.

Global Instance State_eq_dec : EqDecision State.
Proof. solve_decision. Defined.

(** The decoded audio of a fragment; the player reads only its duration. *)
Module AudioBuffer.
Record t := { duration : Q }.
End AudioBuffer.

(** The callbacks of a [Player], as observable events. *)
Inductive PlayerEvent :=
| onMetadataFetched
| onMetadataError
| onPlay
| onPause
| onFinish
| onBufferingStart
| onBufferingStop.

Global Instance PlayerEvent_eq_dec : EqDecision PlayerEvent.
Proof. solve_decision. Defined.

(** ** Source *)

Module Source.

(** An [AudioBufferSourceNode]: whether it is connected to the gain
    node, the arguments of its [start] call once started, and whether
    [stop] has been called. *)
Record Node := { connected : bool; started : option (Q * Q); stopped : bool }.

(** A [setTimeout] handle: its delay in milliseconds, and whether it
    can still fire. *)
Record Timer := { delayMs : Q; live : bool }.

Record t := {
  buffer : option AudioBuffer.t;
  number : option Z;
  node : option Node;
  startsAt : option Q;
  startsFrom : Q;
  endTimer : option Timer;
  (** the closure installed by [Reader.scheduleFragment]; it captures
      the fragment number *)
  endCallback : option Z;
}.

Definition set_number v (s : t) : t :=
  {| buffer := buffer s; number := v; node := node s; startsAt := startsAt s;
     startsFrom := startsFrom s; endTimer := endTimer s; endCallback := endCallback s |}.
Definition set_node v (s : t) : t :=
  {| buffer := buffer s; number := number s; node := v; startsAt := startsAt s;
     startsFrom := startsFrom s; endTimer := endTimer s; endCallback := endCallback s |}.
Definition set_startsAt v (s : t) : t :=
  {| buffer := buffer s; number := number s; node := node s; startsAt := v;
     startsFrom := startsFrom s; endTimer := endTimer s; endCallback := endCallback s |}.
Definition set_startsFrom v (s : t) : t :=
  {| buffer := buffer s; number := number s; node := node s; startsAt := startsAt s;
     startsFrom := v; endTimer := endTimer s; endCallback := endCallback s |}.
Definition set_endTimer v (s : t) : t :=
  {| buffer := buffer s; number := number s; node := node s; startsAt := startsAt s;
     startsFrom := startsFrom s; endTimer := v; endCallback := endCallback s |}.
Definition set_endCallback v (s : t) : t :=
  {| buffer := buffer s; number := number s; node := node s; startsAt := startsAt s;
     startsFrom := startsFrom s; endTimer := endTimer s; endCallback := v |}.

(** [new Source(buffer, queue)] *)
Definition new_ (buffer : option AudioBuffer.t) : t :=
  {| buffer := buffer; number := None; node := None; startsAt := None;
     startsFrom := 0%Q; endTimer := None; endCallback := None |}.

(** [Source.prototype.setup(index)]; [get] is [this.queue.get]. *)
Definition setup (currentTime : Q) (get : nat → option t) (index : nat) (this : t)
  : option t :=
  let this := set_node (Some {| connected := true; started := None; stopped := false |}) this in
  if bool_decide (0 < index) then
    previous ← get (index - 1);
    pbuffer ← buffer previous;
    Some (set_startsAt
            (Some (ToNumber (startsAt previous) + AudioBuffer.duration pbuffer - startsFrom previous)%Q)
            this)
  else Some (set_startsAt (Some currentTime) this).

(** [node.start(when, offset)] inside [try]/[catch]: starting a node
    twice raises, and the exception is only logged. *)
Definition start (when : Q) (offset : Q) (n : Node) : Node :=
  match started n with
  | Some _ => n
  | None => {| connected := connected n; started := Some (when, offset); stopped := stopped n |}
  end.

(** [Source.prototype.schedule()] *)
Definition schedule (currentTime : Q) (this : t) : option t :=
  b ← buffer this;
  let endsAt := (ToNumber (startsAt this) + AudioBuffer.duration b - startsFrom this)%Q in
  let endsIn := (endsAt - currentTime)%Q in
  let this := set_node (start (ToNumber (startsAt this)) (startsFrom this) <$> node this) this in
  Some (set_endTimer
          (Some {| delayMs := (endsIn * 1000 + 200)%Q; live := true |})
          this).

(** [Source.prototype.cancel()] *)
Definition cancel (this : t) : t :=
  let disconnect n := {| connected := false; started := started n; stopped := stopped n |} in
  set_endTimer None (set_node (disconnect <$> node this) this).

(** [Source.prototype.destroy()]: the source is cancelled and its fields
    are deleted; the queue removes the object right after. *)
Definition destroy (this : t) : t := cancel this.

(** [Source.prototype.elapsed()] *)
Definition elapsed (currentTime : Q) (this : t) : Q :=
  (currentTime - ToNumber (startsAt this) + startsFrom this)%Q.

End Source.

(** ** SourceQueue *)

Module SourceQueue.

(** What a queue method asks of its parent reader. *)
Inductive Effect :=
| SetInterval (ms : Z)         (* reader.playingInterval = setInterval(whilePlaying, ms) *)
| ClearInterval                (* clearInterval(reader.playingInterval) *)
| Callback (e : PlayerEvent)   (* reader.player.onPlay() and the like *)
| SetCurrentTime (time : Q).   (* reader.setCurrentTime(time) *)

Record t := {
  state : State;
  sources : list Source.t;
  latestElapsed : option Q;
}.

Definition set_state v (q : t) : t :=
  {| state := v; sources := sources q; latestElapsed := latestElapsed q |}.
Definition set_sources v (q : t) : t :=
  {| state := state q; sources := v; latestElapsed := latestElapsed q |}.
Definition set_latestElapsed v (q : t) : t :=
  {| state := state q; sources := sources q; latestElapsed := v |}.

(** [new SourceQueue(reader)] *)
Definition new_ : t :=
  {| state := STATE_PAUSED; sources := []; latestElapsed := Some 0%Q |}.

Definition isEmpty (this : t) : bool := bool_decide (length (sources this) = 0).
Definition get (this : t) (index : nat) : option Source.t := sources this !! index.
Definition first (this : t) : option Source.t := get this 0.
Definition last (this : t) : option Source.t :=
  match length (sources this) with
  | 0 => None
  | S n => get this n
  end.

(** [SourceQueue.prototype.shift()]: [this.first()] is [undefined] on an
    empty queue and the call raises. *)
Definition shift (this : t) : option t :=
  head ← first this;
  let _destroyed := Source.destroy head in
  Some (set_sources (tail (sources this)) this).

(** The properties of a [SourceQueue] object are [reader], [state],
    [sources], [latestElapsed] and the prototype's methods: [this.queue]
    is not one of them and evaluates to [undefined]. *)
Definition this_queue (this : t) : option (list Source.t) := None.

(** [_.find(collection, {number: number})] as lodash documents it (lodash
    is not under [src/]): the first element whose [number] property
    matches, [undefined] when there is none; an [undefined] collection
    counts as empty. *)
Definition lodash_find (collection : option (list Source.t)) (number : Z)
  : option Source.t :=
  match collection with
  | None => None
  | Some l => find (λ s, bool_decide (Source.number s = Some number)) l
  end.

(** [SourceQueue.prototype.push(buffer, number, beforeSetup)]; the result
    carries the returned source ([None] for the bare [return]). *)
Definition push (currentTime : Q) (buffer : option AudioBuffer.t) (number : Z)
    (beforeSetup : option (Source.t → Source.t)) (this : t)
  : option (t * option Source.t) :=
  let source := Source.new_ buffer in
  let sourceIndex := length (sources this) in
  match lodash_find (this_queue this) number with
  | Some _ => Some (this, None)
  | None =>
      let source := Source.set_number (Some number) source in
      let source := from_option (λ f, f source) source beforeSetup in
      let pushed := sources this ++ [source] in
      if bool_decide (state this = STATE_PLAYING) then
        source ← Source.setup currentTime (λ i, pushed !! i) sourceIndex source;
        source ← Source.schedule currentTime source;
        Some (set_sources (<[sourceIndex := source]> pushed) this, Some source)
      else Some (set_sources pushed this, Some source)
  end.

(** [while (!this.isEmpty()) this.shift()], at most [n] rounds. *)
Fixpoint empty_loop (n : nat) (this : t) : option t :=
  if isEmpty this then Some this
  else match n with
       | 0 => None
       | S n => this ← shift this; empty_loop n this
       end.

(** [SourceQueue.prototype.empty()] *)
Definition empty (this : t) : option t := empty_loop (length (sources this)) this.

(** The body of the loop of [play], for [n] rounds from index [i]. *)
Fixpoint play_loop (currentTime : Q) (n i : nat) (srcs : list Source.t)
  : option (list Source.t) :=
  match n with
  | 0 => Some srcs
  | S n =>
      source ← srcs !! i;
      source ← Source.setup currentTime (λ j, srcs !! j) i source;
      source ← Source.schedule currentTime source;
      play_loop currentTime n (S i) (<[i := source]> srcs)
  end.

(** [SourceQueue.prototype.play()] *)
Definition play (currentTime : Q) (this : t) : option (t * list Effect) :=
  if bool_decide (state this = STATE_PLAYING) then Some (this, [])
  else if bool_decide (state this = STATE_FINISHED) then
    Some (this, [SetCurrentTime 0%Q])
  else
    let this := set_state STATE_PLAYING (set_latestElapsed None this) in
    srcs ← play_loop currentTime (length (sources this)) 0 (sources this);
    Some (set_sources srcs this, [SetInterval 500; Callback onPlay]).

(** [SourceQueue.prototype.pause()] *)
Definition pause (currentTime : Q) (this : t) : t * list Effect :=
  if bool_decide (state this = STATE_PAUSED) then (this, [])
  else
    let this :=
      match sources this with
      | [] => this
      | head :: _ => set_latestElapsed (Some (Source.elapsed currentTime head)) this
      end in
    let this := set_state STATE_PAUSED this in
    let this := set_sources (Source.cancel <$> sources this) this in
    let this :=
      match sources this with
      | [] => this
      | head :: rest =>
          set_sources
            (Source.set_startsFrom (Source.elapsed currentTime head) head :: rest) this
      end in
    (this, [ClearInterval; Callback onPause]).

(** [SourceQueue.prototype.elapsed()] *)
Definition elapsed (currentTime : Q) (this : t) : Q :=
  match latestElapsed this with
  | Some e => e
  | None =>
      match sources this with
      | [] => 0%Q
      | head :: _ => Source.elapsed currentTime head
      end
  end.

End SourceQueue.

(** ** The queue of the earlier build *)

(** [src/diaes.js]: [push] takes no fragment number and looks nothing up;
    [elapsed] leaves [startsFrom] out; [cancel] stops the node, which
    must exist; [pause] reads the head before it checks for one. *)
Module Earlier.

(** [Source.prototype.elapsed()] *)
Definition Source_elapsed (currentTime : Q) (this : Source.t) : Q :=
  (currentTime - ToNumber (Source.startsAt this))%Q.

(** [Source.prototype.cancel()]: [this.node.stop()] raises on [null]. *)
Definition Source_cancel (this : Source.t) : option Source.t :=
  n ← Source.node this;
  let stop :=
    {| Source.connected := Source.connected n; Source.started := Source.started n;
       Source.stopped := true |} in
  Some (Source.set_endTimer None (Source.set_node (Some stop) this)).

(** [Source.prototype.schedule()]: [start] is not guarded. *)
Definition Source_schedule (currentTime : Q) (this : Source.t) : option Source.t :=
  b ← Source.buffer this;
  let endsAt := (ToNumber (Source.startsAt this) + AudioBuffer.duration b)%Q in
  let endsIn := (endsAt - currentTime)%Q in
  n ← Source.node this;
  if bool_decide (is_Some (Source.started n)) then None
  else
    let this :=
      Source.set_node
        (Some (Source.start (ToNumber (Source.startsAt this)) (Source.startsFrom this) n))
        this in
    Some (Source.set_endTimer
            (Some {| Source.delayMs := (endsIn * 1000 + 200)%Q; Source.live := true |})
            this).

(** [SourceQueue.prototype.push(buffer, beforeSetup)] *)
Definition push (currentTime : Q) (buffer : option AudioBuffer.t)
    (beforeSetup : option (Source.t → Source.t)) (this : SourceQueue.t)
  : option (SourceQueue.t * Source.t) :=
  let source := Source.new_ buffer in
  let sourceIndex := length (SourceQueue.sources this) in
  let source := from_option (λ f, f source) source beforeSetup in
  let pushed := SourceQueue.sources this ++ [source] in
  if bool_decide (SourceQueue.state this = STATE_PLAYING) then
    source ← Source.setup currentTime (λ i, pushed !! i) sourceIndex source;
    source ← Source_schedule currentTime source;
    Some (SourceQueue.set_sources (<[sourceIndex := source]> pushed) this, source)
  else Some (SourceQueue.set_sources pushed this, source).

(** [SourceQueue.prototype.pause()] *)
Definition pause (currentTime : Q) (this : SourceQueue.t)
  : option (SourceQueue.t * list SourceQueue.Effect) :=
  if bool_decide (SourceQueue.state this = STATE_PAUSED) then Some (this, [])
  else
    head ← SourceQueue.first this;
    let this := SourceQueue.set_latestElapsed (Some (Source_elapsed currentTime head)) this in
    let this := SourceQueue.set_state STATE_PAUSED this in
    cancelled ← mapM Source_cancel (SourceQueue.sources this);
    let this :=
      match cancelled with
      | [] => SourceQueue.set_sources cancelled this
      | head :: rest =>
          SourceQueue.set_sources
            (Source.set_startsFrom
               (Source.startsFrom head + Source_elapsed currentTime head)%Q head :: rest)
            this
      end in
    Some (this, [SourceQueue.ClearInterval; SourceQueue.Callback onPause]).

(** [SourceQueue.prototype.elapsed()] *)
Definition elapsed (currentTime : Q) (this : SourceQueue.t) : option Q :=
  match SourceQueue.latestElapsed this with
  | Some e => Some e
  | None => head ← SourceQueue.first this; Some (Source_elapsed currentTime head)
  end.

End Earlier.

(** ** Reader *)

Module Reader.

Record Fragment := {
  buffer : option AudioBuffer.t;
  mpath : string;
  vpath : string;
  key : string;
  iv : string;
}.

Definition set_buffer v (f : Fragment) : Fragment :=
  {| buffer := v; mpath := mpath f; vpath := vpath f; key := key f; iv := iv f |}.

(** The metadata document: the duration and, for each fragment, its two
    paths, its key and its initialisation vector. *)
Record Metadata := {
  m_duration : Q;
  m_fragments : list (string * string * string * string);
}.

(** The callbacks handed to [loadFragment], by the variables they
    capture. *)
Inductive Callback :=
| InitialLoaded                                      (* in the constructor *)
| LoadedThenSchedule (number : Z) (offset : option Q) (* in loadAndScheduleFragment *)
| SeekLoaded (number : Z) (offset : Q).               (* in setCurrentTime *)

Inductive Event :=
| Player (e : PlayerEvent)      (* a callback of the player *)
| XHRSend (number : Z)          (* fetchFragment: request.send() *)
| DecodeAudioData (number : Z). (* decrypted bytes decoded to an AudioBuffer *)

Global Instance Event_eq_dec : EqDecision Event.
Proof. solve_decision. Defined.

Record t := {
  fragments : list Fragment;
  queue : SourceQueue.t;
  currentFragmentNumber : Z;
  buffering : bool;
  duration : option Q;
  jumped : bool;
  playingInterval : option Z;
  (** [destroy] deletes [player], [queue], [manager], [context], [gain] *)
  destroyed : bool;
  (** seeks polling every 100 ms for the metadata, with their time *)
  waitingFragments : list Q;
  (** transport requests in flight, with their continuation *)
  requests : list (Z * Callback);
  (** calls made to the debounced [setCurrentTime] from inside the reader *)
  seekCalls : list Q;
  log : list Event;
}.

Definition set_fragments v (r : t) : t :=
  {| fragments := v; queue := queue r; currentFragmentNumber := currentFragmentNumber r;
     buffering := buffering r; duration := duration r; jumped := jumped r;
     playingInterval := playingInterval r; destroyed := destroyed r;
     waitingFragments := waitingFragments r; requests := requests r;
     seekCalls := seekCalls r; log := log r |}.
Definition set_queue v (r : t) : t :=
  {| fragments := fragments r; queue := v; currentFragmentNumber := currentFragmentNumber r;
     buffering := buffering r; duration := duration r; jumped := jumped r;
     playingInterval := playingInterval r; destroyed := destroyed r;
     waitingFragments := waitingFragments r; requests := requests r;
     seekCalls := seekCalls r; log := log r |}.
Definition set_currentFragmentNumber v (r : t) : t :=
  {| fragments := fragments r; queue := queue r; currentFragmentNumber := v;
     buffering := buffering r; duration := duration r; jumped := jumped r;
     playingInterval := playingInterval r; destroyed := destroyed r;
     waitingFragments := waitingFragments r; requests := requests r;
     seekCalls := seekCalls r; log := log r |}.
Definition set_buffering v (r : t) : t :=
  {| fragments := fragments r; queue := queue r; currentFragmentNumber := currentFragmentNumber r;
     buffering := v; duration := duration r; jumped := jumped r;
     playingInterval := playingInterval r; destroyed := destroyed r;
     waitingFragments := waitingFragments r; requests := requests r;
     seekCalls := seekCalls r; log := log r |}.
Definition set_duration v (r : t) : t :=
  {| fragments := fragments r; queue := queue r; currentFragmentNumber := currentFragmentNumber r;
     buffering := buffering r; duration := v; jumped := jumped r;
     playingInterval := playingInterval r; destroyed := destroyed r;
     waitingFragments := waitingFragments r; requests := requests r;
     seekCalls := seekCalls r; log := log r |}.
Definition set_jumped v (r : t) : t :=
  {| fragments := fragments r; queue := queue r; currentFragmentNumber := currentFragmentNumber r;
     buffering := buffering r; duration := duration r; jumped := v;
     playingInterval := playingInterval r; destroyed := destroyed r;
     waitingFragments := waitingFragments r; requests := requests r;
     seekCalls := seekCalls r; log := log r |}.
Definition set_playingInterval v (r : t) : t :=
  {| fragments := fragments r; queue := queue r; currentFragmentNumber := currentFragmentNumber r;
     buffering := buffering r; duration := duration r; jumped := jumped r;
     playingInterval := v; destroyed := destroyed r;
     waitingFragments := waitingFragments r; requests := requests r;
     seekCalls := seekCalls r; log := log r |}.
Definition set_destroyed v (r : t) : t :=
  {| fragments := fragments r; queue := queue r; currentFragmentNumber := currentFragmentNumber r;
     buffering := buffering r; duration := duration r; jumped := jumped r;
     playingInterval := playingInterval r; destroyed := v;
     waitingFragments := waitingFragments r; requests := requests r;
     seekCalls := seekCalls r; log := log r |}.
Definition set_waitingFragments v (r : t) : t :=
  {| fragments := fragments r; queue := queue r; currentFragmentNumber := currentFragmentNumber r;
     buffering := buffering r; duration := duration r; jumped := jumped r;
     playingInterval := playingInterval r; destroyed := destroyed r;
     waitingFragments := v; requests := requests r;
     seekCalls := seekCalls r; log := log r |}.
Definition set_requests v (r : t) : t :=
  {| fragments := fragments r; queue := queue r; currentFragmentNumber := currentFragmentNumber r;
     buffering := buffering r; duration := duration r; jumped := jumped r;
     playingInterval := playingInterval r; destroyed := destroyed r;
     waitingFragments := waitingFragments r; requests := v;
     seekCalls := seekCalls r; log := log r |}.
Definition set_seekCalls v (r : t) : t :=
  {| fragments := fragments r; queue := queue r; currentFragmentNumber := currentFragmentNumber r;
     buffering := buffering r; duration := duration r; jumped := jumped r;
     playingInterval := playingInterval r; destroyed := destroyed r;
     waitingFragments := waitingFragments r; requests := requests r;
     seekCalls := v; log := log r |}.
Definition set_log v (r : t) : t :=
  {| fragments := fragments r; queue := queue r; currentFragmentNumber := currentFragmentNumber r;
     buffering := buffering r; duration := duration r; jumped := jumped r;
     playingInterval := playingInterval r; destroyed := destroyed r;
     waitingFragments := waitingFragments r; requests := requests r;
     seekCalls := seekCalls r; log := v |}.

(** [this.player.<callback>()]; [player] is deleted by [destroy]. *)
Definition notify (e : PlayerEvent) (this : t) : option t :=
  if destroyed this then None else Some (set_log (log this ++ [Player e]) this).

(** What the queue asks of its reader. *)
Definition perform (this : t) (e : SourceQueue.Effect) : t :=
  match e with
  | SourceQueue.SetInterval ms => set_playingInterval (Some ms) this
  | SourceQueue.ClearInterval => set_playingInterval None this
  | SourceQueue.Callback ev => set_log (log this ++ [Player ev]) this
  | SourceQueue.SetCurrentTime time => set_seekCalls (seekCalls this ++ [time]) this
  end.

(** [this.queue.pause()] *)
Definition queue_pause (currentTime : Q) (this : t) : option t :=
  if destroyed this then None
  else
    let '(q, effects) := SourceQueue.pause currentTime (queue this) in
    Some (foldl perform (set_queue q this) effects).

(** [this.queue.play()] *)
Definition queue_play (currentTime : Q) (this : t) : option t :=
  if destroyed this then None
  else
    '(q, effects) ← SourceQueue.play currentTime (queue this);
    Some (foldl perform (set_queue q this) effects).

(** [this.queue.empty()] *)
Definition queue_empty (this : t) : option t :=
  if destroyed this then None
  else q ← SourceQueue.empty (queue this); Some (set_queue q this).

(** [Reader.prototype.getFragmentNumber(time)] *)
Definition getFragmentNumber (time : Q) : Z := Math_floor (time / FRAGMENT_DURATION)%Q.

(** [Reader.prototype.isFragmentLoaded(number)] *)
Definition isFragmentLoaded (number : Z) (this : t) : option bool :=
  fragment ← lookupZ (fragments this) number;
  Some (bool_decide (is_Some (buffer fragment))).

(** [Reader.prototype.fetchFragment(number, callback)]: the request is
    sent; its continuation waits in [requests]. *)
Definition fetchFragment (number : Z) (callback : Callback) (this : t) : option t :=
  _ ← lookupZ (fragments this) number;
  Some (set_log (log this ++ [XHRSend number])
          (set_requests (requests this ++ [(number, callback)]) this)).

(** [Reader.prototype.loadFragment(number, callback)]; [now] is the
    callback as it runs when invoked at once, [callback] its name for
    when the load completes later. The method first writes a line to the
    console when [fragments] is empty, which changes nothing. *)
Definition loadFragment (now : t → option t) (callback : Callback) (number : Z)
    (this : t) : option t :=
  if bool_decide (Z.of_nat (length (fragments this)) ≤ number)%Z then Some this
  else
    loaded ← isFragmentLoaded number this;
    if (loaded : bool) then now this
    else fetchFragment number callback this.

(** The [beforeSetup] function of [scheduleFragment]. *)
Definition beforeSetup (number : Z) (offset : option Q) (source : Source.t) : Source.t :=
  let source := Source.set_endCallback (Some number) source in
  if truthy offset then Source.set_startsFrom (ToNumber offset) source else source.

(** [Reader.prototype.scheduleFragment(number, offset)] *)
Definition scheduleFragment (currentTime : Q) (number : Z) (offset : option Q)
    (this : t) : option t :=
  if destroyed this then None
  else
    fragment ← lookupZ (fragments this) number;
    '(q, _) ← SourceQueue.push currentTime (buffer fragment) number
                (Some (beforeSetup number offset)) (queue this);
    Some (set_queue q this).

(** [Reader.prototype.loadAndScheduleFragment(number, offset)], with the
    default empty [callback] (no caller of this build passes one). *)
Definition loadAndScheduleFragment (currentTime : Q) (number : Z) (offset : option Q)
    (this : t) : option t :=
  loadFragment (scheduleFragment currentTime number offset)
    (LoadedThenSchedule number offset) number this.

(** The [endCallback] closure that [scheduleFragment number _] installs. *)
Definition endCallback (currentTime : Q) (number : Z) (this : t) : option t :=
  let this := set_currentFragmentNumber (number + 1)%Z this in
  this ←
    (if bool_decide (Z.of_nat (length (fragments this)) ≤ currentFragmentNumber this)%Z
     then
       this ← queue_pause currentTime this;
       let this := set_queue (SourceQueue.set_state STATE_FINISHED (queue this)) this in
       notify onFinish this
     else Some this);
  loadAndScheduleFragment currentTime (number + 2)%Z None this.

(** The callback of [loadFragment] in [setCurrentTime]. *)
Definition seekLoaded (currentTime : Q) (number : Z) (offset : Q) (this : t)
  : option t :=
  if bool_decide (currentFragmentNumber this ≠ number) then Some this
  else
    this ← notify onBufferingStop this;
    let this := set_buffering false this in
    this ← queue_play currentTime this;
    this ← scheduleFragment currentTime number (Some offset) this;
    loadAndScheduleFragment currentTime (number + 1)%Z None this.

(** The inner function [setup] of [setCurrentTime]. *)
Definition seek_setup (currentTime : Q) (time : Q) (this : t) : option t :=
  let number := getFragmentNumber time in
  let offset := js_rem time FRAGMENT_DURATION in
  let this := set_currentFragmentNumber number this in
  this ← queue_pause currentTime this;
  let this := set_buffering true this in
  this ← notify onBufferingStart this;
  this ← queue_empty this;
  loadFragment (seekLoaded currentTime number offset) (SeekLoaded number offset)
    number this.

(** The function that [Reader.prototype.setCurrentTime] debounces. *)
Definition seek (currentTime : Q) (time : Q) (this : t) : option t :=
  let this := set_jumped true this in
  if bool_decide (length (fragments this) = 0) then
    Some (set_waitingFragments (waitingFragments this ++ [time]) this)
  else seek_setup currentTime time this.

(** One tick of the [j]-th polling interval started by [seek]. *)
Definition waitingFragments_tick (currentTime : Q) (j : nat) (this : t) : option t :=
  match waitingFragments this !! j with
  | None => Some this
  | Some time =>
      if bool_decide (length (fragments this) = 0) then Some this
      else seek_setup currentTime time
             (set_waitingFragments (delete j (waitingFragments this)) this)
  end.

(** The callback of [loadFragment(0, ...)] in the constructor. *)
Definition initialLoaded (currentTime : Q) (this : t) : option t :=
  if jumped this then Some this
  else
    this ← scheduleFragment currentTime 0 (Some 0%Q) this;
    this ← notify onBufferingStop this;
    let this := set_buffering false this in
    loadAndScheduleFragment currentTime 1 None this.

Definition runCallback (currentTime : Q) (callback : Callback) (this : t) : option t :=
  match callback with
  | InitialLoaded => initialLoaded currentTime this
  | LoadedThenSchedule number offset => scheduleFragment currentTime number offset this
  | SeekLoaded number offset => seekLoaded currentTime number offset this
  end.

(** [new Reader(path, player)], up to the metadata request. *)
Definition new_ : t :=
  {| fragments := []; queue := SourceQueue.new_; currentFragmentNumber := 0;
     buffering := true; duration := None; jumped := false; playingInterval := None;
     destroyed := false; waitingFragments := []; requests := []; seekCalls := [];
     log := [Player onBufferingStart] |}.

(** The [done] handler of [fetchMetadata], then the constructor's
    callback. *)
Definition metadataFetched (currentTime : Q) (metadata : Metadata) (this : t)
  : option t :=
  let this := set_duration (Some (m_duration metadata)) this in
  let fresh '(m, v, k, i) := {| buffer := None; mpath := m; vpath := v; key := k; iv := i |} in
  let this := set_fragments (fragments this ++ (fresh <$> m_fragments metadata)) this in
  this ← notify onMetadataFetched this;
  loadFragment (initialLoaded currentTime) InitialLoaded 0 this.

(** The [fail] handler of [fetchMetadata]. *)
Definition metadataFailed (this : t) : option t := notify onMetadataError this.

(** Completion of the [j]-th request in flight: the response is
    decrypted, [decodeAudioData] yields [audioBuffer], the fragment
    stores it and the continuation runs. *)
Definition fragmentDecoded (currentTime : Q) (j : nat) (audioBuffer : AudioBuffer.t)
    (this : t) : option t :=
  '(number, callback) ← requests this !! j;
  let this := set_requests (delete j (requests this)) this in
  if destroyed this then None
  else
    fragment ← lookupZ (fragments this) number;
    let this := set_log (log this ++ [DecodeAudioData number]) this in
    let this :=
      set_fragments
        (<[Z.to_nat number := set_buffer (Some audioBuffer) fragment]> (fragments this))
        this in
    runCallback currentTime callback this.

(** The timer armed by [Source.prototype.schedule] fires for the source
    at position [i] of the queue. *)
Definition sourceEnded (currentTime : Q) (i : nat) (this : t) : option t :=
  source ← SourceQueue.sources (queue this) !! i;
  timer ← Source.endTimer source;
  let spent := {| Source.delayMs := Source.delayMs timer; Source.live := false |} in
  let this :=
    set_queue
      (SourceQueue.set_sources
         (<[i := Source.set_endTimer (Some spent) source]> (SourceQueue.sources (queue this)))
         (queue this))
      this in
  this ←
    match Source.endCallback source with
    | Some number => endCallback currentTime number this
    | None => Some this
    end;
  q ← SourceQueue.shift (queue this);
  Some (set_queue q this).

(** [Reader.prototype.state()] *)
Definition state (this : t) : option State :=
  if buffering this then Some STATE_BUFFERING
  else if destroyed this then None
  else Some (SourceQueue.state (queue this)).

(** [Reader.prototype.getCurrentTime()] *)
Definition getCurrentTime (currentTime : Q) (this : t) : option Q :=
  if destroyed this then None
  else
    Some (inject_Z (currentFragmentNumber this) * FRAGMENT_DURATION
          + SourceQueue.elapsed currentTime (queue this))%Q.

(** [Reader.prototype.destroy()] *)
Definition destroy (this : t) : option t :=
  this ← queue_empty this;
  Some (set_destroyed true (set_fragments [] this)).

End Reader.

(** ** The debounced seek *)

Module Debounce.

(** Modelled from the spec: [_.debounce] is lodash's, and lodash is not
    under [src/]; the source only has
    [Reader.prototype.setCurrentTime = _.debounce(function (time) {...}, 300)].
    The spec (4.4, 5, 8) has a burst of calls within the window collapse
    to one call that uses the last requested time, which is what
    [_.debounce(func, wait)] does with its default options (invocation on
    the trailing edge): [func] runs once [wait] milliseconds have passed
    without another call, with the arguments of the most recent call.
    The state is that of the closure: while an invocation is pending, the
    time of the most recent call, in milliseconds, and its argument. The
    closure is made once, on the prototype: all readers share it. *)
Record t := { wait : Q; pending : option (Q * Q) }.

Definition new_ (wait : Q) : t := {| wait := wait; pending := None |}.

(** A call of the debounced function at wall-clock time [now]. *)
Definition call (now : Q) (arg : Q) (d : t) : t :=
  {| wait := wait d; pending := Some (now, arg) |}.

(** The argument [func] is due to run with at time [now], if any. *)
Definition due (now : Q) (d : t) : option Q :=
  match pending d with
  | Some (lastCall, arg) => if Qle_bool (lastCall + wait d) now then Some arg else None
  | None => None
  end.

Definition clear (d : t) : t := {| wait := wait d; pending := None |}.

End Debounce.

(** ** One player and its environment *)

Module Session.

(** A reader together with what drives it: the wall clock of the timers
    (milliseconds), the clock of the audio context (seconds), the
    debounced [Reader.prototype.setCurrentTime] and the metadata request
    of the constructor. *)
Record t := {
  reader : Reader.t;
  wall : Q;
  currentTime : Q;
  setCurrentTime : Debounce.t;
  metadataRequest : bool;
}.

Definition set_reader v (s : t) : t :=
  {| reader := v; wall := wall s; currentTime := currentTime s;
     setCurrentTime := setCurrentTime s; metadataRequest := metadataRequest s |}.
Definition set_setCurrentTime v (s : t) : t :=
  {| reader := reader s; wall := wall s; currentTime := currentTime s;
     setCurrentTime := v; metadataRequest := metadataRequest s |}.
Definition set_metadataRequest v (s : t) : t :=
  {| reader := reader s; wall := wall s; currentTime := currentTime s;
     setCurrentTime := setCurrentTime s; metadataRequest := v |}.
Definition set_clocks w c (s : t) : t :=
  {| reader := reader s; wall := w; currentTime := c;
     setCurrentTime := setCurrentTime s; metadataRequest := metadataRequest s |}.

(** [new Player(path, manager, config, id)] at clock values [w], [c]. *)
Definition new_ (w c : Q) : t :=
  {| reader := Reader.new_; wall := w; currentTime := c;
     setCurrentTime := Debounce.new_ 300%Q; metadataRequest := true |}.

(** The calls the reader made to its own [setCurrentTime] reach the
    debounced function. *)
Definition deliver (s : t) : t :=
  let d := foldl (λ d time, Debounce.call (wall s) time d) (setCurrentTime s)
             (Reader.seekCalls (reader s)) in
  set_setCurrentTime d (set_reader (Reader.set_seekCalls [] (reader s)) s).

(** A reader method runs to completion. *)
Definition run (f : Q → Reader.t → option Reader.t) (s : t) : option t :=
  r ← f (currentTime s) (reader s);
  Some (deliver (set_reader r s)).

Inductive Action :=
| Play                                   (* player.play() *)
| Pause                                  (* player.pause() *)
| Seek (time : Q)                        (* player.currentTime = time *)
| Elapse (ms : Q) (seconds : Q)          (* both clocks advance *)
| MetadataFetched (metadata : Reader.Metadata)
| MetadataFailed
| FragmentDecoded (j : nat) (audioBuffer : AudioBuffer.t)
| SourceEnded (i : nat)                  (* an end timer fires *)
| WaitingTick (j : nat)                  (* a 100 ms poll of a waiting seek *)
| Destroy.                               (* player.destroy() *)

Definition timerLive (i : nat) (s : t) : bool :=
  match SourceQueue.sources (Reader.queue (reader s)) !! i with
  | Some source => from_option Source.live false (Source.endTimer source)
  | None => false
  end.

Definition step (a : Action) (s : t) : option t :=
  match a with
  | Play => run Reader.queue_play s
  | Pause => run Reader.queue_pause s
  | Seek time =>
      Some (set_setCurrentTime (Debounce.call (wall s) time (setCurrentTime s)) s)
  | Elapse ms seconds =>
      if Qle_bool 0 ms && Qle_bool 0 seconds then
        let s := set_clocks (wall s + ms)%Q (currentTime s + seconds)%Q s in
        match Debounce.due (wall s) (setCurrentTime s) with
        | Some time =>
            run (λ now, Reader.seek now time)
              (set_setCurrentTime (Debounce.clear (setCurrentTime s)) s)
        | None => Some s
        end
      else None
  | MetadataFetched metadata =>
      if metadataRequest s then
        run (λ now, Reader.metadataFetched now metadata) (set_metadataRequest false s)
      else None
  | MetadataFailed =>
      if metadataRequest s then
        run (λ _, Reader.metadataFailed) (set_metadataRequest false s)
      else None
  | FragmentDecoded j audioBuffer =>
      run (λ now, Reader.fragmentDecoded now j audioBuffer) s
  | SourceEnded i =>
      if timerLive i s then run (λ now, Reader.sourceEnded now i) s else None
  | WaitingTick j => run (λ now, Reader.waitingFragments_tick now j) s
  | Destroy => run (λ _, Reader.destroy) s
  end.

Fixpoint steps (actions : list Action) (s : t) : option t :=
  match actions with
  | [] => Some s
  | a :: actions => s ← step a s; steps actions s
  end.

(** The states a player can be in. *)
Definition reachable (s : t) : Prop :=
  ∃ w c actions, (0 <= w)%Q ∧ (0 <= c)%Q ∧ steps actions (new_ w c) = Some s.

End Session.

(** ** Manager *)

Module Manager.

(** [Manager.prototype]'s data properties other than [players]. *)
Definition prototype_muted : bool := false.
Definition prototype_volume : Q := 1%Q.

(** The own properties of a [Manager] object: its gain node, and
    [muted] and [volume] once a method has assigned them. The
    constructor assigns no [players]. *)
Record t := {
  gain : Q;                 (* this.gain.gain.value *)
  own_muted : option bool;
  own_volume : option Q;
}.

(** [new Manager()]: a gain node starts at 1. *)
Definition new_ : t := {| gain := 1%Q; own_muted := None; own_volume := None |}.

(** Property reads go to the prototype when the object has no own
    property. *)
Definition muted (this : t) : bool := default prototype_muted (own_muted this).
Definition volume (this : t) : Q := default prototype_volume (own_volume this).

(** [Manager.prototype.mute()] *)
Definition mute (this : t) : t :=
  {| gain := 0%Q; own_muted := Some true; own_volume := own_volume this |}.

(** [Manager.prototype.setVolume(volume)] *)
Definition setVolume (v : Q) (this : t) : t :=
  {| gain := v; own_muted := own_muted this; own_volume := Some v |}.

(** [Manager.prototype.unmute()] *)
Definition unmute (this : t) : t :=
  let this := {| gain := gain this; own_muted := Some false; own_volume := own_volume this |} in
  setVolume (volume this) this.

End Manager.

(** ** The store: managers, players and the prototype's array *)

Module World.

(** A [Player] object; [destroy] deletes its [reader] and [manager]. *)
Record Player := {
  id : nat;
  manager : option nat;
  reader : option Reader.t;
}.

(** [players] is the one array created with [Manager.prototype]; every
    [Manager] object reads it through the prototype. The array holds
    references into [heap]. [polls] are the intervals started by
    [pauseAll], by player. *)
Record t := {
  managers : list Manager.t;
  heap : list Player;
  players : list nat;
  polls : list nat;
}.

Definition empty : t := {| managers := []; heap := []; players := []; polls := [] |}.

(** [new Manager()]; the result carries the reference to the object. *)
Definition newManager (w : t) : t * nat :=
  ({| managers := managers w ++ [Manager.new_]; heap := heap w;
      players := players w; polls := polls w |}, length (managers w)).

(** [m.players] *)
Definition players_of (m : nat) (w : t) : option (list nat) :=
  _ ← managers w !! m; Some (players w).

(** [Manager.prototype.add(path, config)] on the manager [m]; the result
    carries the reference to the new player. *)
Definition add (m : nat) (w : t) : option (t * nat) :=
  ps ← players_of m w;
  let player := {| id := length ps; manager := Some m; reader := Some Reader.new_ |} in
  let ref := length (heap w) in
  Some ({| managers := managers w; heap := heap w ++ [player];
           players := ps ++ [ref]; polls := polls w |}, ref).

(** [Player.prototype.pause()] *)
Definition Player_pause (currentTime : Q) (p : Player) : option Player :=
  r ← reader p;
  r ← Reader.queue_pause currentTime r;
  Some {| id := id p; manager := manager p; reader := Some r |}.

(** [Player.prototype.destroy()] *)
Definition Player_destroy (p : Player) : option Player :=
  r ← reader p;
  _ ← Reader.destroy r;
  Some {| id := id p; manager := None; reader := None |}.

(** The body of the loop of [pauseAll] for the players [refs]. *)
Fixpoint pauseAll_loop (currentTime : Q) (exceptId : option nat) (refs : list nat)
    (w : t) : option t :=
  match refs with
  | [] => Some w
  | ref :: refs =>
      p ← heap w !! ref;
      p ← Player_pause currentTime p;
      r ← reader p;
      let polls :=
        if Reader.buffering r && negb (bool_decide (Some (id p) = exceptId))
        then polls w ++ [ref] else polls w in
      pauseAll_loop currentTime exceptId refs
        {| managers := managers w; heap := <[ref := p]> (heap w);
           players := players w; polls := polls |}
  end.

(** [Manager.prototype.pauseAll(id)] on the manager [m]. *)
Definition pauseAll (currentTime : Q) (m : nat) (exceptId : option nat) (w : t)
  : option t :=
  ps ← players_of m w;
  pauseAll_loop currentTime exceptId ps w.

(** [while (this.players.length > 1) this.players.shift().destroy()] *)
Fixpoint destroyUnused_loop (n : nat) (w : t) : option t :=
  match players w, n with
  | unused :: (_ :: _) as rest, S n =>
      p ← heap w !! unused;
      p ← Player_destroy p;
      destroyUnused_loop n
        {| managers := managers w; heap := <[unused := p]> (heap w);
           players := rest; polls := polls w |}
  | _ :: _ :: _, 0 => None
  | _, _ => Some w
  end.

(** [Manager.prototype.destroyUnused()] on the manager [m]. *)
Definition destroyUnused (m : nat) (w : t) : option t :=
  ps ← players_of m w;
  destroyUnused_loop (length ps) w.

End World.

(** ** Observations on a reader *)

(** The transport requests sent for a fragment, and its decodings. *)
Definition fetches (number : Z) (r : Reader.t) : nat :=
  length (filter (λ e, e = Reader.XHRSend number) (Reader.log r)).
Definition decodes (number : Z) (r : Reader.t) : nat :=
  length (filter (λ e, e = Reader.DecodeAudioData number) (Reader.log r)).

(** Several callers ask for the same fragment, one after the other,
    before any request completes. *)
Fixpoint loadFragment_calls (number : Z)
    (calls : list ((Reader.t → option Reader.t) * Reader.Callback)) (this : Reader.t)
  : option Reader.t :=
  match calls with
  | [] => Some this
  | (now, callback) :: calls =>
      this ← Reader.loadFragment now callback number this;
      loadFragment_calls number calls this
  end.

(** ** Gapless chaining *)

(** A source that has been set up on a decoded buffer. *)
Definition scheduled (u : Source.t) : Prop :=
  is_Some (Source.startsAt u) ∧ is_Some (Source.buffer u).

(** [v] starts when the audible content of [u] ends. *)
Definition follows (u v : Source.t) : Prop :=
  ∃ a b, Source.startsAt u = Some a ∧ Source.buffer u = Some b
         ∧ Source.startsAt v
           = Some (a + AudioBuffer.duration b - Source.startsFrom u)%Q.

(** The first [k] sources of [l] are chained. *)
Definition gapless_upto (k : nat) (l : list Source.t) : Prop :=
  (∀ i u, i < k → l !! i = Some u → scheduled u)
  ∧ (∀ i u v, S i < k → l !! i = Some u → l !! S i = Some v → follows u v).

(** [u[i+1].startsAt = u[i].startsAt + u[i].duration - u[i].startsFrom]
    for every [i]. *)
Definition gapless (l : list Source.t) : Prop :=
  (∀ i u, l !! i = Some u → scheduled u)
  ∧ (∀ i u v, l !! i = Some u → l !! S i = Some v → follows u v).

(** What holds of a queue while it plays. *)
Definition chained (q : SourceQueue.t) : Prop :=
  SourceQueue.state q = STATE_PLAYING →
  SourceQueue.latestElapsed q = None ∧ gapless (SourceQueue.sources q).

(** The fields of a source that scheduling leaves alone. *)
Definition static (s : Source.t) : option AudioBuffer.t * option Z * Q * option Z :=
  (Source.buffer s, Source.number s, Source.startsFrom s, Source.endCallback s).

(** A reader method keeps the queue chained. *)
Definition preserves (f : Reader.t → option Reader.t) : Prop :=
  ∀ r r', f r = Some r' → chained (Reader.queue r) → chained (Reader.queue r').

(** The fields of a reader that the queue's own methods leave alone. *)
Definition frame (r r' : Reader.t) : Prop :=
  Reader.fragments r' = Reader.fragments r
  ∧ Reader.currentFragmentNumber r' = Reader.currentFragmentNumber r
  ∧ Reader.buffering r' = Reader.buffering r
  ∧ Reader.jumped r' = Reader.jumped r
  ∧ Reader.destroyed r' = Reader.destroyed r
  ∧ Reader.requests r' = Reader.requests r
  ∧ Reader.waitingFragments r' = Reader.waitingFragments r.



(** ** Observations on the store *)

(** The reader of the player [ref] has moved on to the state [r]. *)
Definition with_reader (ref : nat) (r : Reader.t) (w : World.t) : World.t :=
  match World.heap w !! ref with
  | Some p =>
      {| World.managers := World.managers w;
         World.heap :=
           <[ref := {| World.id := World.id p; World.manager := World.manager p;
                       World.reader := Some r |}]> (World.heap w);
         World.players := World.players w; World.polls := World.polls w |}
  | None => w
  end.

(** The player [ref] exists and its queue is paused. *)
Definition paused_at (ref : nat) (w : World.t) : Prop :=
  ∃ p r, World.heap w !! ref = Some p ∧ World.reader p = Some r
         ∧ SourceQueue.state (Reader.queue r) = STATE_PAUSED.

(** The player [ref] has been destroyed. *)
Definition destroyed_at (ref : nat) (w : World.t) : Prop :=
  ∃ p, World.heap w !! ref = Some p ∧ World.reader p = None ∧ World.manager p = None.

(** ** Sample data: a track of 47 s in four fragments *)

Module Samples.

Definition metadata : Reader.Metadata :=
  {| Reader.m_duration := 47%Q;
     Reader.m_fragments :=
       [("0.mp3", "0.ogg", "00", "a0"); ("1.mp3", "1.ogg", "01", "a1");
        ("2.mp3", "2.ogg", "02", "a2"); ("3.mp3", "3.ogg", "03", "a3")]%string |}.

Definition full : AudioBuffer.t := {| AudioBuffer.duration := 15%Q |}.
Definition short : AudioBuffer.t := {| AudioBuffer.duration := 2%Q |}.

(** The metadata arrives, fragments 0 and 1 are decoded, the user plays. *)
Definition startup : list Session.Action :=
  [Session.MetadataFetched metadata; Session.FragmentDecoded 0 full;
   Session.FragmentDecoded 0 full; Session.Play].

Definition playing : Session.t :=
  Eval vm_compute in default (Session.new_ 0%Q 0%Q) (Session.steps startup (Session.new_ 0%Q 0%Q)).

(** Fragment 0 ends, which requests fragment 2; the user seeks to 30 s
    while that request is in flight, which requests fragment 2 again; the
    two requests then complete. *)
Definition raced : list Session.Action :=
  [Session.Elapse 15200%Q (152 # 10)%Q; Session.SourceEnded 0;
   Session.Seek 30%Q; Session.Elapse 300%Q (3 # 10)%Q;
   Session.FragmentDecoded 0 full; Session.FragmentDecoded 0 full].

(** The four fragments play to the end: each end timer fires, and the
    two fragments requested on the way are decoded. *)
Definition through : list Session.Action :=
  [Session.Elapse 15200%Q (152 # 10)%Q; Session.SourceEnded 0;
   Session.FragmentDecoded 0 full;
   Session.Elapse 15000%Q 15%Q; Session.SourceEnded 0;
   Session.FragmentDecoded 0 short;
   Session.Elapse 15000%Q 15%Q; Session.SourceEnded 0;
   Session.Elapse 2000%Q 2%Q; Session.SourceEnded 0].

(** A seek to 40 s that the prefetch of fragment 1 overtakes: the
    metadata arrives and fragment 0 is decoded, which requests fragment
    1; the user seeks to 40 s and the debounce delay passes, which
    requests fragment 2; then the two requests complete, the older one
    first. *)
Definition overtaken : list Session.Action :=
  [Session.MetadataFetched metadata; Session.FragmentDecoded 0 full;
   Session.Seek 40%Q; Session.Elapse 300%Q (3 # 10)%Q;
   Session.FragmentDecoded 0 full; Session.FragmentDecoded 0 full].

(** One second later. *)
Definition later : Session.t :=
  Eval vm_compute in default playing (Session.step (Session.Elapse 1000%Q 1%Q) playing).

(** A reader whose metadata has arrived and whose fragments are unloaded. *)
Definition fresh : Reader.t :=
  Eval vm_compute in
    Session.reader
      (default (Session.new_ 0%Q 0%Q)
         (Session.step (Session.MetadataFetched metadata) (Session.new_ 0%Q 0%Q))).

(** Two managers, and a player added through the first. *)
Definition twoManagers : World.t :=
  (World.newManager (World.newManager World.empty).1).1.
Definition added : World.t :=
  Eval vm_compute in default twoManagers (fst <$> World.add 0 twoManagers).
Definition addedTwice : World.t :=
  Eval vm_compute in default added (fst <$> World.add 0 added).


(** The track has played to its end. *)
Definition finished : Session.t :=
  Eval vm_compute in default playing (Session.steps through playing).

End Samples.

(** ** Calls on a manager and on the store *)

(** The volume methods of a manager, as calls. *)
Inductive VolumeCall :=
| CallMute
| CallUnmute
| CallSetVolume (v : Q).

Definition volumeCall (m : Manager.t) (c : VolumeCall) : Manager.t :=
  match c with
  | CallMute => Manager.mute m
  | CallUnmute => Manager.unmute m
  | CallSetVolume v => Manager.setVolume v m
  end.

(** The player [ref] exists and has not been destroyed. *)
Definition alive_at (ref : nat) (w : World.t) : Prop :=
  ∃ p r, World.heap w !! ref = Some p ∧ World.reader p = Some r
         ∧ Reader.destroyed r = false.

(** [pauseAll(exceptId)] starts a poll for the player [ref]: it is
    buffering and its id is not the excepted one. *)
Definition needs_poll (exceptId : option nat) (w : World.t) (ref : nat) : bool :=
  match World.heap w !! ref with
  | Some p =>
      match World.reader p with
      | Some r => Reader.buffering r && negb (bool_decide (Some (World.id p) = exceptId))
      | None => false
      end
  | None => false
  end.

(** ** The polls of pauseAll *)

(** The intervals that [pauseAll] starts, and their callbacks. Interval
    [k] is the one started for the player [World.polls w !! k]. Its
    callback reads the variable [interval], which is declared with
    [var]: one variable serves the whole call, and by the time a
    callback runs the loop has ended and the variable holds the id of
    the last interval the call started. [shared !! k] is that id, for
    the callback of interval [k]; [cleared] are the ids passed to
    [clearInterval]. *)
Module Polling.

Record t := {
  world : World.t;
  shared : list nat;
  cleared : list nat;
}.

Definition new_ (w : World.t) : t := {| world := w; shared := []; cleared := [] |}.

(** [Manager.prototype.pauseAll(id)], with the intervals it starts. *)
Definition pauseAll (currentTime : Q) (m : nat) (exceptId : option nat) (st : t)
  : option t :=
  w ← World.pauseAll currentTime m exceptId (world st);
  let started := length (World.polls w) - length (World.polls (world st)) in
  Some {| world := w;
          shared := shared st ++ replicate started (length (World.polls w) - 1);
          cleared := cleared st |}.

(** The callback of interval [k] runs. *)
Definition tick (currentTime : Q) (k : nat) (st : t) : option t :=
  if bool_decide (k ∈ cleared st) then None
  else
    ref ← World.polls (world st) !! k;
    interval ← shared st !! k;
    p ← World.heap (world st) !! ref;
    r ← World.reader p;
    if Reader.buffering r then Some st
    else
      p ← World.Player_pause currentTime p;
      Some {| world :=
                {| World.managers := World.managers (world st);
                   World.heap := <[ref := p]> (World.heap (world st));
                   World.players := World.players (world st);
                   World.polls := World.polls (world st) |};
              shared := shared st;
              cleared := interval :: cleared st |}.

(** What happens to a store and its polls: a call of [pauseAll], a tick
    of an interval, or anything else, which may change the managers and
    the players at will. *)
Inductive Event :=
| PauseAll (currentTime : Q) (m : nat) (exceptId : option nat)
| Tick (currentTime : Q) (k : nat)
| Other (managers : list Manager.t) (heap : list World.Player) (players : list nat).

Definition step (e : Event) (st : t) : option t :=
  match e with
  | PauseAll currentTime m exceptId => pauseAll currentTime m exceptId st
  | Tick currentTime k => tick currentTime k st
  | Other managers heap players =>
      Some {| world := {| World.managers := managers; World.heap := heap;
                          World.players := players;
                          World.polls := World.polls (world st) |};
              shared := shared st; cleared := cleared st |}
  end.

Fixpoint steps (events : list Event) (st : t) : option t :=
  match events with
  | [] => Some st
  | e :: events => st ← step e st; steps events st
  end.

End Polling.

(** Every interval has its variable, a variable holds the id of an
    interval that holds its own id, and only such intervals have been
    cleared. *)
Definition polls_wf (st : Polling.t) : Prop :=
  length (Polling.shared st) = length (World.polls (Polling.world st))
  ∧ (∀ k h, Polling.shared st !! k = Some h → Polling.shared st !! h = Some h)
  ∧ (∀ c, c ∈ Polling.cleared st → Polling.shared st !! c = Some c).

(** Two players are added and, while both are buffering, all players
    are paused. *)
Definition polled : Polling.t :=
  Eval vm_compute in
    default (Polling.new_ Samples.addedTwice)
      (Polling.pauseAll 1%Q 0 None (Polling.new_ Samples.addedTwice)).

(** A reader method keeps a property of the queue. *)
Definition maintains (inv : SourceQueue.t → Prop) (f : Reader.t → option Reader.t) : Prop :=
  ∀ r r', f r = Some r' → inv (Reader.queue r) → inv (Reader.queue r').

(** A source without an end timer whose node, if it has one, is
    disconnected. *)
Definition silent (source : Source.t) : Prop :=
  Source.endTimer source = None
  ∧ ∀ n, Source.node source = Some n → Source.connected n = false.

(** No source sounds or is timed unless the queue plays. *)
Definition quiet (q : SourceQueue.t) : Prop :=
  SourceQueue.state q ≠ STATE_PLAYING → Forall silent (SourceQueue.sources q).



(** ** Hexadecimal keys *)

(** [Reader.prototype.convertHex] and the built-ins it calls. A string
    is the list of its UTF-16 code units; [NaN] is [None]. *)
Module Hex.

(** The code units [String.prototype.trim] and [parseInt] skip: the
    white space and line terminator characters of the language. *)
Definition isWhiteSpace (c : Z) : bool :=
  bool_decide (c ∈ [9; 10; 11; 12; 13; 32; 160; 5760; 8192; 8193; 8194; 8195; 8196;
                    8197; 8198; 8199; 8200; 8201; 8202; 8232; 8233; 8239; 8287;
                    12288; 65279]%Z).

Fixpoint trimStart (s : list Z) : list Z :=
  match s with
  | c :: s' => if isWhiteSpace c then trimStart s' else s
  | [] => []
  end.

Definition trimEnd (s : list Z) : list Z := reverse (trimStart (reverse s)).

(** [s.trim()] *)
Definition trim (s : list Z) : list Z := trimEnd (trimStart s).

(** [s.substr(start, length)] for a [start] within the string. *)
Definition substr (s : list Z) (start length : nat) : list Z := take length (drop start s).

(** The value of a digit in radix 16. *)
Definition hexDigit (c : Z) : option Z :=
  if (48 <=? c)%Z && (c <=? 57)%Z then Some (c - 48)%Z
  else if (97 <=? c)%Z && (c <=? 102)%Z then Some (c - 87)%Z
  else if (65 <=? c)%Z && (c <=? 70)%Z then Some (c - 55)%Z
  else None.

(** The value of the longest prefix of digits; [acc] is the value so
    far, [None] before the first digit. *)
Fixpoint digits (s : list Z) (acc : option Z) : option Z :=
  match s with
  | c :: s' =>
      match hexDigit c with
      | Some v => digits s' (Some (16 * default 0 acc + v)%Z)
      | None => acc
      end
  | [] => acc
  end.

(** [parseInt(s, 16)]: leading white space, a sign and a [0x] prefix are
    skipped, then the digits are read up to the first character that is
    not one. *)
Definition parseInt (s : list Z) : option Z :=
  let s := trimStart s in
  let '(sign, s) :=
    match s with
    | 45%Z :: s' => ((-1)%Z, s')
    | 43%Z :: s' => (1%Z, s')
    | _ => (1%Z, s)
    end in
  let s :=
    match s with
    | 48%Z :: x :: s' => if bool_decide (x = 120 ∨ x = 88)%Z then s' else s
    | _ => s
    end in
  (λ n, sign * n)%Z <$> digits s None.

(** The conversion of a number stored into a [Uint8Array]. *)
Definition ToUint8 (v : option Z) : Z :=
  match v with
  | Some n => (n mod 256)%Z
  | None => 0%Z
  end.

(** [for (var c = 0; c < hex.length; c += 2) bytes.push(...)], at most
    [fuel] rounds. *)
Fixpoint convertHex_loop (fuel : nat) (c : nat) (hex : list Z) (bytes : list (option Z))
  : list (option Z) :=
  match fuel with
  | 0 => bytes
  | S fuel =>
      if bool_decide (c < length hex) then
        convertHex_loop fuel (c + 2) hex (bytes ++ [parseInt (substr hex c 2)])
      else bytes
  end.

(** [Reader.prototype.convertHex(hex)] *)
Definition convertHex (hex : list Z) : list Z :=
  let hex := trim hex in
  ToUint8 <$> convertHex_loop (length hex) 0 hex [].

End Hex.

(** A string cut in pieces of two code units, the last one of one when
    the length is odd. *)
Fixpoint pairs (s : list Z) : list (list Z) :=
  match s with
  | a :: b :: s' => [a; b] :: pairs s'
  | [a] => [[a]]
  | [] => []
  end.

(** The two digits of each pair, in a row. *)
Definition spell (ps : list (Z * Z)) : list Z := ps ≫= λ p, [p.1; p.2].

(** ** What holds of a player that has not been destroyed *)

(** The request for fragment [number] carries a callback made for that
    fragment. *)
Definition names (callback : Reader.Callback) (number : Z) : Prop :=
  match callback with
  | Reader.InitialLoaded => number = 0%Z
  | Reader.LoadedThenSchedule n _ => n = number
  | Reader.SeekLoaded n _ => n = number
  end.

(** A queued source holds a decoded buffer, and carries the number of
    one of the [count] fragments, which its end handler captured. *)
Definition sound_source (count : nat) (s : Source.t) : Prop :=
  is_Some (Source.buffer s)
  ∧ ∃ n, Source.number s = Some n ∧ Source.endCallback s = Some n
         ∧ (0 ≤ n < Z.of_nat count)%Z.

Definition sound_request (count : nat) (request : Z * Reader.Callback) : Prop :=
  (0 ≤ request.1 < Z.of_nat count)%Z ∧ names request.2 request.1.

Definition sound (r : Reader.t) : Prop :=
  Reader.destroyed r = false
  ∧ Forall (sound_source (length (Reader.fragments r)))
      (SourceQueue.sources (Reader.queue r))
  ∧ Forall (sound_request (length (Reader.fragments r))) (Reader.requests r)
  ∧ Forall (λ time, (0 <= time)%Q) (Reader.waitingFragments r)
  ∧ Forall (λ time, (0 <= time)%Q) (Reader.seekCalls r).

(** A sound reader whose pending seek, if any, is to a time that is not
    negative. *)
Definition live (s : Session.t) : Prop :=
  sound (Session.reader s)
  ∧ ∀ lastCall time,
      Debounce.pending (Session.setCurrentTime s) = Some (lastCall, time) → (0 <= time)%Q.

(** The user seeks to times that are not negative. *)
Definition benign (a : Session.Action) : Prop :=
  match a with
  | Session.Seek time => (0 <= time)%Q
  | _ => True
  end.

(** The events that can occur in a state: clocks do not run backwards,
    the metadata request completes once, a load completes for a request
    in flight, a timer fires while it is armed. *)
Definition enabled (a : Session.Action) (s : Session.t) : Prop :=
  match a with
  | Session.Elapse ms seconds => (0 <= ms)%Q ∧ (0 <= seconds)%Q
  | Session.MetadataFetched _ | Session.MetadataFailed => Session.metadataRequest s = true
  | Session.FragmentDecoded j _ => j < length (Reader.requests (Session.reader s))
  | Session.SourceEnded i => Session.timerLive i s = true
  | _ => True
  end.

(** Fragment [number] is in memory. *)
Definition in_memory (number : Z) (r : Reader.t) : Prop :=
  ∃ fragment, lookupZ (Reader.fragments r) number = Some fragment
              ∧ is_Some (Reader.buffer fragment).

(** A reader method succeeds on a sound reader that meets [P], and
    leaves a sound reader with the same fragments. *)
Definition safe (P : Reader.t → Prop) (f : Reader.t → option Reader.t) : Prop :=
  ∀ r, sound r → P r →
    ∃ r', f r = Some r' ∧ sound r' ∧ Reader.fragments r' = Reader.fragments r.

(** * Properties *)

(** Case analysis on the first computation of a sequence that returned. *)
Ltac bind_inv H :=
  match type of H with
  | (?m ≫= _) = Some _ =>
      let x := fresh "x" in
      let E := fresh "E" in
      destruct m as [x|] eqn:E; [simpl in H | discriminate H]
  end.

(** ** Loading a fragment *)

Lemma loadFragment_past_end now callback number this :
  (Z.of_nat (length (Reader.fragments this)) ≤ number)%Z →
  Reader.loadFragment now callback number this = Some this.
Proof. intros H. unfold Reader.loadFragment. by rewrite bool_decide_eq_true_2. Qed.

(** C8. A load for a number at or past the end of [fragments] returns at
    once: the reader is unchanged (no request, no event, no state
    change) and the callback is not invoked, whatever it would do. *)
Theorem loadFragment_out_of_range
    (now : Reader.t → option Reader.t) (callback : Reader.Callback)
    (number : Z) (this : Reader.t)
    (Hrange : (Z.of_nat (length (Reader.fragments this)) ≤ number)%Z) :
  Reader.loadFragment now callback number this = Some this
  ∧ Reader.loadFragment (λ _, None) callback number this = Some this
  ∧ ∀ currentTime offset,
      Reader.loadAndScheduleFragment currentTime number offset this = Some this.
Proof.
  unfold Reader.loadAndScheduleFragment.
  split; [by apply loadFragment_past_end|]. split; [by apply loadFragment_past_end|].
  intros. by apply loadFragment_past_end.
Qed.

Lemma loadFragment_out_of_range_witness :
  (Z.of_nat (length (Reader.fragments Samples.fresh)) ≤ 4)%Z
  ∧ Reader.loadFragment (λ _, None) Reader.InitialLoaded 4 Samples.fresh
    = Some Samples.fresh.
Proof.
  assert (H : (Z.of_nat (length (Reader.fragments Samples.fresh)) ≤ 4)%Z)
    by (vm_compute; discriminate).
  split; [exact H|].
  exact (proj1 (proj2 (loadFragment_out_of_range (λ _, None) Reader.InitialLoaded 4
                         Samples.fresh H))).
Defined.

(** ** Volume and mute *)

(** C9. After [mute()], [setVolume(v)] with a nonzero [v] sets the gain
    to [v] and leaves [muted] true: the manager reports itself muted
    while its output is audible. *)
Theorem setVolume_after_mute (m : Manager.t) (v : Q) (Hv : ¬ (v == 0)%Q) :
  Manager.gain (Manager.mute m) = 0%Q
  ∧ Manager.muted (Manager.mute m) = true
  ∧ Manager.gain (Manager.setVolume v (Manager.mute m)) = v
  ∧ ¬ (Manager.gain (Manager.setVolume v (Manager.mute m)) == 0)%Q
  ∧ Manager.muted (Manager.setVolume v (Manager.mute m)) = true.
Proof. by repeat split. Qed.

Lemma setVolume_after_mute_witness :
  ¬ ((1 # 2) == 0)%Q
  ∧ Manager.gain (Manager.setVolume (1 # 2) (Manager.mute Manager.new_)) = (1 # 2)%Q
  ∧ Manager.muted (Manager.setVolume (1 # 2) (Manager.mute Manager.new_)) = true.
Proof.
  assert (H : ¬ ((1 # 2) == 0)%Q) by (intros H; discriminate H).
  split; [exact H|].
  pose proof (setVolume_after_mute Manager.new_ (1 # 2)%Q H) as (_ & _ & Hg & _ & Hm).
  split; [exact Hg | exact Hm].
Defined.

Lemma option_bind_Some_l {A B} (x : A) (f : A → option B) : Some x ≫= f = f x.
Proof. reflexivity. Qed.

Lemma lookupZ_Some {A} (l : list A) (index : Z) (x : A) :
  lookupZ l index = Some x →
  (0 ≤ index < Z.of_nat (length l))%Z ∧ l !! Z.to_nat index = Some x.
Proof.
  unfold lookupZ. case_bool_decide; [|done]. intros Hl. split; [|done].
  apply lookup_lt_Some in Hl. lia.
Qed.

(** C4 (as stated, refuted). Two calls of [loadFragment(2, ...)] made
    before the first load completes send two transport requests, and the
    fragment is decoded twice. *)
Lemma concurrent_loads_fetch_twice :
  ∃ r2 r4,
    fetches 2 Samples.fresh = 0
    ∧ loadFragment_calls 2
        [(Some, Reader.LoadedThenSchedule 2 None); (Some, Reader.LoadedThenSchedule 2 None)]
        Samples.fresh = Some r2
    ∧ fetches 2 r2 = 2 ∧ fetches 2 r2 ≠ 1
    ∧ (r3 ← Reader.fragmentDecoded 0%Q 1 Samples.full r2;
       Reader.fragmentDecoded 0%Q 1 Samples.full r3) = Some r4
    ∧ decodes 2 r4 = 2.
Proof.
  eexists _, _. split; [reflexivity|]. split; [vm_compute; reflexivity|].
  split; [reflexivity|]. split; [discriminate|]. split; [vm_compute; reflexivity|].
  reflexivity.
Qed.

(** C4 (amended). A load of a fragment that is already in memory runs
    the callback at once on the unchanged reader, with no request. A
    load of a fragment that is not in memory sends one request per call:
    [n] calls made before any completes leave [n] requests in flight and
    [n] sends in the log, and when the [k]-th of them completes the
    fragment is decoded and the [k]-th caller's continuation runs. *)
Theorem loadFragment_per_call (this : Reader.t) (number : Z) (fragment : Reader.Fragment)
    (Hfragment : lookupZ (Reader.fragments this) number = Some fragment) :
  (is_Some (Reader.buffer fragment) →
     ∀ now callback, Reader.loadFragment now callback number this = now this)
  ∧ (Reader.buffer fragment = None →
     ∀ calls, ∃ this',
       loadFragment_calls number calls this = Some this'
       ∧ this' =
           Reader.set_log (Reader.log this ++ replicate (length calls) (Reader.XHRSend number))
             (Reader.set_requests
                (Reader.requests this ++ ((λ c, (number, c.2)) <$> calls)) this)
       ∧ fetches number this' = fetches number this + length calls
       ∧ ∀ k now callback currentTime audioBuffer,
           calls !! k = Some (now, callback) →
           Reader.destroyed this = false →
           ∃ loaded,
             Reader.fragmentDecoded currentTime (length (Reader.requests this) + k)
               audioBuffer this'
             = Reader.runCallback currentTime callback loaded
             ∧ lookupZ (Reader.fragments loaded) number
               = Some (Reader.set_buffer (Some audioBuffer) fragment)
             ∧ fetches number loaded = fetches number this').
Proof.
  destruct (lookupZ_Some _ _ _ Hfragment) as [Hrange Hnth].
  split.
  - intros Hloaded now callback. unfold Reader.loadFragment, Reader.isFragmentLoaded.
    rewrite bool_decide_eq_false_2 by lia. rewrite Hfragment. simpl.
    by rewrite bool_decide_eq_true_2.
  - intros Hnull calls.
    assert (Hcalls : ∀ calls this,
      lookupZ (Reader.fragments this) number = Some fragment →
      loadFragment_calls number calls this
      = Some (Reader.set_log
                (Reader.log this ++ replicate (length calls) (Reader.XHRSend number))
                (Reader.set_requests
                   (Reader.requests this ++ ((λ c, (number, c.2)) <$> calls)) this))).
    { clear - Hnull. induction calls as [|[now callback] calls IH]; intros this Hfragment.
      - destruct this. simpl. unfold Reader.set_log, Reader.set_requests. simpl.
        by rewrite !app_nil_r.
      - destruct (lookupZ_Some _ _ _ Hfragment) as [Hrange _].
        simpl. unfold Reader.loadFragment, Reader.isFragmentLoaded, Reader.fetchFragment.
        rewrite bool_decide_eq_false_2 by lia. rewrite Hfragment. simpl.
        rewrite bool_decide_eq_false_2 by (rewrite Hnull; by intros [? ?]).
        rewrite option_bind_Some_l, IH by (by destruct this).
        destruct this. unfold Reader.set_log, Reader.set_requests.
        simpl. by rewrite <- !app_assoc. }
    eexists. split; [by apply Hcalls|]. split; [done|]. split.
    + unfold fetches. destruct this. simpl. rewrite filter_app, length_app. f_equal.
      clear. induction calls as [|c calls IH]; [done|]. simpl.
      rewrite filter_cons_True by done. simpl. by rewrite IH.
    + intros k now callback currentTime audioBuffer Hk Halive.
      unfold Reader.fragmentDecoded.
      assert (Hreq : Reader.requests
                (Reader.set_log
                   (Reader.log this ++ replicate (length calls) (Reader.XHRSend number))
                   (Reader.set_requests
                      (Reader.requests this ++ ((λ c, (number, c.2)) <$> calls)) this))
              !! (length (Reader.requests this) + k) = Some (number, callback)).
      { destruct this. simpl. rewrite lookup_app_r by lia.
        replace (_ + k - _) with k by lia. rewrite list_lookup_fmap, Hk. done. }
      rewrite Hreq. simpl. destruct this. simpl in *. rewrite Halive, Hfragment. simpl.
      eexists. split; [reflexivity|]. split.
      * simpl. unfold lookupZ. rewrite bool_decide_eq_true_2 by lia.
        apply list_lookup_insert_eq. lia.
      * unfold fetches. simpl. rewrite !filter_app, !length_app.
        rewrite (filter_cons_False _ (Reader.DecodeAudioData number)) by done.
        rewrite filter_nil. simpl. lia.
Qed.

Lemma loadFragment_per_call_witness :
  lookupZ (Reader.fragments Samples.fresh) 1
  = Some {| Reader.buffer := None; Reader.mpath := "1.mp3"; Reader.vpath := "1.ogg";
            Reader.key := "01"; Reader.iv := "a1" |}
  ∧ ∃ this',
      loadFragment_calls 1
        [(Some, Reader.LoadedThenSchedule 1 None); (Some, Reader.SeekLoaded 1 0%Q);
         (Some, Reader.LoadedThenSchedule 1 None)] Samples.fresh = Some this'
      ∧ fetches 1 this' = fetches 1 Samples.fresh + 3.
Proof.
  assert (H : lookupZ (Reader.fragments Samples.fresh) 1
              = Some {| Reader.buffer := None; Reader.mpath := "1.mp3";
                        Reader.vpath := "1.ogg"; Reader.key := "01"; Reader.iv := "a1" |})
    by reflexivity.
  split; [exact H|].
  destruct (proj2 (loadFragment_per_call Samples.fresh 1 _ H) eq_refl
              [(Some, Reader.LoadedThenSchedule 1 None); (Some, Reader.SeekLoaded 1 0%Q);
               (Some, Reader.LoadedThenSchedule 1 None)])
    as (this' & Hcalls & _ & Hfetches & _).
  exists this'. split; [exact Hcalls | exact Hfetches].
Defined.

(** ** Scheduling lemmas *)

Lemma setup_spec currentTime get index this this' :
  Source.setup currentTime get index this = Some this' →
  static this' = static this
  ∧ (index = 0 → Source.startsAt this' = Some currentTime)
  ∧ (0 < index →
     ∃ previous b, get (index - 1) = Some previous ∧ Source.buffer previous = Some b
       ∧ Source.startsAt this'
         = Some (ToNumber (Source.startsAt previous) + AudioBuffer.duration b
                 - Source.startsFrom previous)%Q).
Proof.
  unfold Source.setup. case_bool_decide as Hindex.
  - destruct (get (index - 1)) as [previous|] eqn:Hget; [|done]. simpl.
    destruct (Source.buffer previous) as [b|] eqn:Hb; [|done]. simpl.
    intros [= <-]. split; [done|]. split; [lia|]. intros _. by exists previous, b.
  - intros [= <-]. split; [done|]. split; [done|]. lia.
Qed.

Lemma schedule_spec currentTime this this' :
  Source.schedule currentTime this = Some this' →
  static this' = static this ∧ Source.startsAt this' = Source.startsAt this
  ∧ is_Some (Source.buffer this).
Proof.
  unfold Source.schedule. destruct (Source.buffer this) as [b|] eqn:Hb; [|done].
  simpl. intros [= <-]. unfold static. simpl. rewrite Hb. by eauto.
Qed.

Lemma schedule_total currentTime this :
  is_Some (Source.buffer this) → is_Some (Source.schedule currentTime this).
Proof. intros [b Hb]. unfold Source.schedule. rewrite Hb. by eexists. Qed.

Lemma static_eq s s' :
  static s' = static s →
  Source.buffer s' = Source.buffer s ∧ Source.number s' = Source.number s
  ∧ Source.startsFrom s' = Source.startsFrom s
  ∧ Source.endCallback s' = Source.endCallback s.
Proof. unfold static. by intros [= -> -> -> ->]. Qed.

Lemma gapless_upto_length l : gapless_upto (length l) l ↔ gapless l.
Proof.
  split; intros [Hs Hf]; split.
  - intros i u Hi. apply (Hs i u); [|done]. by apply lookup_lt_Some in Hi.
  - intros i u v Hi Hj. apply (Hf i u v); try done. by apply lookup_lt_Some in Hj.
  - intros i u _. apply Hs.
  - intros i u v _. apply Hf.
Qed.

Lemma gapless_nil : gapless [].
Proof. split; intros i u; intros; by rewrite lookup_nil in *. Qed.

Lemma gapless_tail l : gapless l → gapless (tail l).
Proof.
  intros [Hs Hf]. split.
  - intros i u Hi. rewrite lookup_tail in Hi. by apply (Hs (S i)).
  - intros i u v Hi Hj. rewrite lookup_tail in Hi, Hj. by apply (Hf (S i)).
Qed.

(** Only the timing fields of the sources matter. *)
Lemma gapless_timing l l' :
  (∀ i, (λ s, (Source.startsAt s, static s)) <$> l' !! i
        = (λ s, (Source.startsAt s, static s)) <$> l !! i) →
  gapless l → gapless l'.
Proof.
  intros Heq [Hs Hf].
  assert (Hlook : ∀ i u', l' !! i = Some u' →
            ∃ u, l !! i = Some u ∧ Source.startsAt u' = Source.startsAt u
                 ∧ static u' = static u).
  { intros i u' Hi. specialize (Heq i). rewrite Hi in Heq. simpl in Heq.
    destruct (l !! i) as [u|]; [|done]. injection Heq as H1 H2 H3 H4 H5. exists u. unfold static. by rewrite H2, H3, H4, H5. }
  split.
  - intros i u' Hi. destruct (Hlook _ _ Hi) as (u & Hu & Hat & Hst).
    destruct (static_eq _ _ Hst) as (Hb & _). destruct (Hs _ _ Hu) as [? ?].
    split; congruence.
  - intros i u' v' Hi Hj. destruct (Hlook _ _ Hi) as (u & Hu & Hat & Hst).
    destruct (Hlook _ _ Hj) as (v & Hv & Hat' & Hst').
    destruct (static_eq _ _ Hst) as (Hb & _ & Hfrom & _).
    destruct (Hf _ _ _ Hu Hv) as (a & b & H1 & H2 & H3).
    exists a, b. rewrite Hat, Hb, Hat', Hfrom. done.
Qed.

(** One round of the loop of [play], and the set-up of a pushed source:
    the source at [i] is set up after its predecessor. *)
Lemma gapless_upto_step currentTime i srcs source source1 source2 :
  srcs !! i = Some source →
  gapless_upto i srcs →
  Source.setup currentTime (λ j, srcs !! j) i source = Some source1 →
  Source.schedule currentTime source1 = Some source2 →
  gapless_upto (S i) (<[i := source2]> srcs).
Proof.
  intros Hi [Hs Hf] Hsetup Hschedule.
  pose proof (lookup_lt_Some _ _ _ Hi) as Hlt.
  destruct (setup_spec _ _ _ _ _ Hsetup) as (Hst1 & Hzero & Hpos).
  destruct (schedule_spec _ _ _ Hschedule) as (Hst2 & Hat2 & Hbuf1).
  assert (Hsched : scheduled source2).
  { split.
    - rewrite Hat2. destruct i; [rewrite Hzero by done; by eexists|].
      destruct Hpos as (? & ? & _ & _ & ->); [lia|]. by eexists.
    - destruct (static_eq _ _ Hst2) as (-> & _). done. }
  split.
  - intros k u Hk Hu. destruct (decide (k = i)) as [->|Hne].
    + rewrite list_lookup_insert_eq in Hu by done. by injection Hu as <-.
    + rewrite list_lookup_insert_ne in Hu by done. apply (Hs k u); [lia|done].
  - intros k u v Hk Hu Hv. destruct (decide (S k = i)) as [<-|Hne].
    + rewrite list_lookup_insert_eq in Hv by done. injection Hv as <-.
      rewrite list_lookup_insert_ne in Hu by lia.
      destruct Hpos as (previous & b & Hprev & Hb & Hat); [lia|].
      simpl in Hprev. rewrite Nat.sub_0_r, Hu in Hprev. injection Hprev as <-.
      destruct (Hs k u) as [[a Ha] _]; [lia|done|].
      exists a, b. rewrite Hat2, Hat, Ha. done.
    + rewrite !list_lookup_insert_ne in * by lia. apply (Hf k u v); [lia|done..].
Qed.

Lemma play_loop_spec currentTime n : ∀ i srcs out,
  SourceQueue.play_loop currentTime n i srcs = Some out →
  i + n = length srcs →
  gapless_upto i srcs →
  gapless out
  ∧ length out = length srcs
  ∧ (∀ k, static <$> out !! k = static <$> srcs !! k)
  ∧ (∀ k s, k < i → srcs !! k = Some s → out !! k = Some s)
  ∧ (i = 0 → ∀ s, out !! 0 = Some s → Source.startsAt s = Some currentTime).
Proof.
  induction n as [|n IH]; intros i srcs out Hloop Hlen Hupto.
  - injection Hloop as <-. rewrite Nat.add_0_r in Hlen. subst i.
    split; [by apply gapless_upto_length|]. repeat split; try done.
    intros Hnil s Hs. apply lookup_lt_Some in Hs. lia.
  - simpl in Hloop.
    destruct (srcs !! i) as [source|] eqn:Hi; [|done]. simpl in Hloop.
    destruct (Source.setup _ _ _ _) as [source1|] eqn:Hsetup; [|done]. simpl in Hloop.
    destruct (Source.schedule _ _) as [source2|] eqn:Hschedule; [|done]. simpl in Hloop.
    pose proof (lookup_lt_Some _ _ _ Hi) as Hlt.
    destruct (IH _ _ _ Hloop) as (Hg & Hl & Hst & Hkeep & _).
    { rewrite length_insert. lia. }
    { eapply gapless_upto_step; eauto. }
    destruct (setup_spec _ _ _ _ _ Hsetup) as (Hst1 & Hzero & _).
    destruct (schedule_spec _ _ _ Hschedule) as (Hst2 & Hat2 & _).
    split; [done|]. split; [by rewrite Hl, length_insert|]. split; [|split].
    + intros k. rewrite Hst. destruct (decide (k = i)) as [->|Hne].
      * rewrite list_lookup_insert_eq, Hi by done. simpl. congruence.
      * by rewrite list_lookup_insert_ne.
    + intros k s Hk Hs. apply Hkeep; [lia|]. by rewrite list_lookup_insert_ne by lia.
    + intros -> s Hs.
      rewrite (Hkeep 0 source2) in Hs; [|lia|by rewrite list_lookup_insert_eq].
      injection Hs as <-. rewrite Hat2. by apply Hzero.
Qed.

Lemma play_loop_total currentTime n : ∀ i srcs,
  i + n = length srcs →
  (∀ k s, srcs !! k = Some s → is_Some (Source.buffer s)) →
  is_Some (SourceQueue.play_loop currentTime n i srcs).
Proof.
  induction n as [|n IH]; intros i srcs Hlen Hbuf; [by eexists|].
  simpl. destruct (lookup_lt_is_Some_2 srcs i) as [source Hi]; [lia|].
  rewrite Hi. simpl.
  assert (Hsetup : ∃ source1, Source.setup currentTime (λ j, srcs !! j) i source
                              = Some source1 ∧ static source1 = static source).
  { unfold Source.setup. case_bool_decide.
    - destruct (lookup_lt_is_Some_2 srcs (i - 1)) as [previous Hp]; [lia|].
      rewrite Hp. simpl. destruct (Hbuf _ _ Hp) as [b ->]. simpl. by eexists.
    - by eexists. }
  destruct Hsetup as (source1 & -> & Hst1). simpl.
  destruct (schedule_total currentTime source1) as [source2 Hschedule].
  { destruct (static_eq _ _ Hst1) as (-> & _). by apply (Hbuf i). }
  rewrite Hschedule. simpl. apply IH; [rewrite length_insert; lia|].
  intros k s Hs. destruct (decide (k = i)) as [->|Hne].
  - rewrite list_lookup_insert_eq in Hs by lia. injection Hs as <-.
    destruct (schedule_spec _ _ _ Hschedule) as (Hst2 & _).
    destruct (static_eq _ _ Hst2) as (-> & _). destruct (static_eq _ _ Hst1) as (-> & _).
    by apply (Hbuf i).
  - rewrite list_lookup_insert_ne in Hs by done. by apply (Hbuf k).
Qed.

(** ** The queue *)

Lemma gapless_upto_app k l l' : k ≤ length l → gapless l → gapless_upto k (l ++ l').
Proof.
  intros Hk [Hs Hf]. split.
  - intros i u Hi Hu. rewrite lookup_app_l in Hu by lia. by apply (Hs i).
  - intros i u v Hi Hu Hv. rewrite lookup_app_l in Hu, Hv by lia. by apply (Hf i).
Qed.

Lemma push_playing currentTime buffer number beforeSetup q q' res :
  SourceQueue.state q = STATE_PLAYING →
  SourceQueue.push currentTime buffer number beforeSetup q = Some (q', res) →
  ∃ source,
    res = Some source
    ∧ SourceQueue.sources q' = SourceQueue.sources q ++ [source]
    ∧ SourceQueue.state q' = STATE_PLAYING
    ∧ SourceQueue.latestElapsed q' = SourceQueue.latestElapsed q
    ∧ (length (SourceQueue.sources q) = 0 → Source.startsAt source = Some currentTime)
    ∧ (0 < length (SourceQueue.sources q) →
       ∃ previous b,
         SourceQueue.sources q !! (length (SourceQueue.sources q) - 1) = Some previous
         ∧ Source.buffer previous = Some b
         ∧ Source.startsAt source
           = Some (ToNumber (Source.startsAt previous) + AudioBuffer.duration b
                   - Source.startsFrom previous)%Q)
    ∧ (gapless (SourceQueue.sources q) → gapless (SourceQueue.sources q')).
Proof.
  intros Hstate. unfold SourceQueue.push. simpl.
  rewrite bool_decide_eq_true_2 by done.
  set (source0 := from_option _ _ beforeSetup).
  set (pushed := SourceQueue.sources q ++ [source0]).
  destruct (Source.setup _ _ _ _) as [source1|] eqn:Hsetup; [|done]. simpl.
  destruct (Source.schedule _ _) as [source2|] eqn:Hschedule; [|done]. simpl.
  intros [= <- <-]. exists source2.
  assert (Hins : <[length (SourceQueue.sources q) := source2]> pushed
                 = SourceQueue.sources q ++ [source2]).
  { unfold pushed. rewrite insert_app_r_alt by lia. by rewrite Nat.sub_diag. }
  destruct (setup_spec _ _ _ _ _ Hsetup) as (Hst1 & Hzero & Hpos).
  destruct (schedule_spec _ _ _ Hschedule) as (Hst2 & Hat2 & _).
  simpl. rewrite Hins. split; [done|]. split; [done|]. split; [done|].
  split; [done|]. split; [|split].
  - intros H0. rewrite Hat2. by apply Hzero.
  - intros Hlen. destruct (Hpos Hlen) as (previous & b & Hprev & Hb & Hat).
    exists previous, b. unfold pushed in Hprev. rewrite lookup_app_l in Hprev by lia.
    by rewrite Hat2.
  - intros Hg. apply gapless_upto_length.
    rewrite length_app, Nat.add_1_r, <- Hins.
    eapply gapless_upto_step; [|by apply gapless_upto_app|done..].
    unfold pushed. rewrite lookup_app_r by lia. by rewrite Nat.sub_diag.
Qed.

Lemma push_chained currentTime buffer number beforeSetup q q' res :
  SourceQueue.push currentTime buffer number beforeSetup q = Some (q', res) →
  chained q → chained q'.
Proof.
  intros Hpush Hq. destruct (decide (SourceQueue.state q = STATE_PLAYING)) as [Hp|Hp].
  - destruct (push_playing _ _ _ _ _ _ _ Hp Hpush) as (s & _ & _ & _ & Hl & _ & _ & Hg).
    intros _. destruct (Hq Hp) as [? ?]. split; [congruence|by apply Hg].
  - unfold SourceQueue.push in Hpush. simpl in Hpush.
    rewrite bool_decide_eq_false_2 in Hpush by done. injection Hpush as <- <-.
    intros Hstate. done.
Qed.

(** [push] never takes its early [return]: whenever it returns, it has
    appended a source. *)
Lemma push_appends currentTime buffer number beforeSetup q q' res :
  SourceQueue.push currentTime buffer number beforeSetup q = Some (q', res) →
  is_Some res
  ∧ length (SourceQueue.sources q') = S (length (SourceQueue.sources q))
  ∧ SourceQueue.state q' = SourceQueue.state q.
Proof.
  intros Hpush. destruct (decide (SourceQueue.state q = STATE_PLAYING)) as [Hp|Hp].
  - destruct (push_playing _ _ _ _ _ _ _ Hp Hpush) as (s & -> & -> & -> & _).
    rewrite length_app, Nat.add_1_r. by eauto.
  - unfold SourceQueue.push in Hpush. simpl in Hpush.
    rewrite bool_decide_eq_false_2 in Hpush by done. injection Hpush as <- <-.
    simpl. rewrite length_app, Nat.add_1_r. by eauto.
Qed.

Lemma pause_state currentTime q :
  SourceQueue.state (SourceQueue.pause currentTime q).1 = STATE_PAUSED.
Proof.
  unfold SourceQueue.pause. case_bool_decide; [done|].
  simpl. by destruct (Source.cancel <$> _).
Qed.

Lemma pause_chained currentTime q : chained (SourceQueue.pause currentTime q).1.
Proof. intros H. by rewrite pause_state in H. Qed.

Lemma play_chained currentTime q q' effects :
  SourceQueue.play currentTime q = Some (q', effects) → chained q → chained q'.
Proof.
  unfold SourceQueue.play. case_bool_decide as Hp; [by intros [= <- <-]|].
  case_bool_decide as Hf; [by intros [= <- <-]|]. simpl.
  destruct (SourceQueue.play_loop _ _ _ _) as [srcs|] eqn:Hloop; [|done]. simpl.
  intros [= <- <-] _ _. split; [done|]. simpl.
  apply (play_loop_spec _ _ _ _ _ Hloop); [done|].
  split; intros; lia.
Qed.

Lemma shift_chained q q' : SourceQueue.shift q = Some q' → chained q → chained q'.
Proof.
  unfold SourceQueue.shift. destruct (SourceQueue.first q); [|done]. simpl.
  intros [= <-] Hq Hp. destruct (Hq Hp) as [? ?]. split; [done|]. by apply gapless_tail.
Qed.

Lemma empty_loop_total n : ∀ q,
  length (SourceQueue.sources q) ≤ n →
  SourceQueue.empty_loop n q = Some (SourceQueue.set_sources [] q).
Proof.
  induction n as [|n IH]; intros [state sources latest] Hn; simpl in *.
  - destruct sources; [done|simpl in Hn; lia].
  - destruct sources as [|head sources]; [done|].
    unfold SourceQueue.isEmpty, SourceQueue.shift, SourceQueue.first, SourceQueue.get.
    simpl. rewrite IH by (simpl in *; lia). done.
Qed.

Lemma empty_total q : SourceQueue.empty q = Some (SourceQueue.set_sources [] q).
Proof. by apply empty_loop_total. Qed.

(** C5 (what the code does). [push] searches [this.queue], which a queue
    does not have, so no source is ever found: a buffer pushed for a
    number that already has a source in the queue is appended again
    (here fragment 1, into a playing queue that holds the sources of
    fragments 0 and 1). A player reaches such a queue by itself: when a
    seek to fragment 2 overtakes the prefetch of fragment 2, both loads
    schedule it and the queue holds two sources for fragment 2, one
    after the other. *)
Theorem push_duplicate_is_appended :
  (Source.number <$> SourceQueue.sources (Reader.queue (Session.reader Samples.playing))
   = [Some 0%Z; Some 1%Z]
   ∧ ∃ q' source,
       SourceQueue.push 0%Q (Some Samples.full) 1 None
         (Reader.queue (Session.reader Samples.playing)) = Some (q', Some source)
       ∧ Source.number <$> SourceQueue.sources q' = [Some 0%Z; Some 1%Z; Some 1%Z]
       ∧ SourceQueue.sources q'
         ≠ SourceQueue.sources (Reader.queue (Session.reader Samples.playing)))
  ∧ ∃ s,
      Session.steps (Samples.startup ++ Samples.raced) (Session.new_ 0%Q 0%Q) = Some s
      ∧ SourceQueue.state (Reader.queue (Session.reader s)) = STATE_PLAYING
      ∧ Source.number <$> SourceQueue.sources (Reader.queue (Session.reader s))
        = [Some 2%Z; Some 2%Z]
      ∧ ∃ a b,
          Source.startsAt <$> SourceQueue.sources (Reader.queue (Session.reader s))
          = [Some a; Some b]
          ∧ (a == 155 # 10)%Q ∧ (b == a + 15)%Q.
Proof.
  split.
  - split; [reflexivity|]. eexists _, _. split; [vm_compute; reflexivity|].
    split; [reflexivity|]. discriminate.
  - eexists. split; [vm_compute; reflexivity|]. split; [reflexivity|].
    split; [reflexivity|]. eexists _, _. split; [reflexivity|]. split; reflexivity.
Qed.

(** In the earlier build there is nothing to find: every push appends. *)
Lemma Earlier_push_appends currentTime buffer beforeSetup q q' source :
  Earlier.push currentTime buffer beforeSetup q = Some (q', source) →
  SourceQueue.sources q' = SourceQueue.sources q ++ [source].
Proof.
  unfold Earlier.push. case_bool_decide.
  - destruct (Source.setup _ _ _ _) as [source1|]; [|done]. simpl.
    destruct (Earlier.Source_schedule _ _) as [source2|]; [|done]. simpl.
    intros [= <- <-]. simpl. rewrite insert_app_r_alt by lia. by rewrite Nat.sub_diag.
  - by intros [= <- <-].
Qed.

(** ** Pause and resume *)



(** The earlier build gives the head the same [startsFrom] on pause, but
    the elapsed time it caches leaves the offset out. *)
Lemma Earlier_pause_spec t1 q head rest :
  SourceQueue.state q ≠ STATE_PAUSED →
  SourceQueue.sources q = head :: rest →
  Forall (λ s, is_Some (Source.node s)) (SourceQueue.sources q) →
  ∃ q1 effects head1 rest1,
    Earlier.pause t1 q = Some (q1, effects)
    ∧ SourceQueue.state q1 = STATE_PAUSED
    ∧ SourceQueue.sources q1 = head1 :: rest1
    ∧ SourceQueue.latestElapsed q1 = Some (t1 - ToNumber (Source.startsAt head))%Q
    ∧ (Source.startsFrom head1 == Source.elapsed t1 head)%Q.
Proof.
  destruct q as [st srcs latest]. simpl. intros Hstate -> Hnodes. unfold Earlier.pause.
  simpl. rewrite bool_decide_eq_false_2 by done. simpl.
  apply Forall_cons in Hnodes as [[n Hn] Hrest].
  assert (Hhead : is_Some (Earlier.Source_cancel head)
                  ∧ ∀ head1, Earlier.Source_cancel head = Some head1 →
                             Source.startsFrom head1 = Source.startsFrom head
                             ∧ Source.startsAt head1 = Source.startsAt head).
  { unfold Earlier.Source_cancel. rewrite Hn. simpl. split; [by eexists|].
    by intros head1 [= <-]. }
  destruct Hhead as [[head1 Hhead1] Hsame]. rewrite Hhead1. simpl.
  destruct (Hsame _ Hhead1) as [Hfrom Hat].
  destruct (mapM Earlier.Source_cancel rest) as [rest1|] eqn:Hmap.
  2:{ assert (Hsome : is_Some (mapM Earlier.Source_cancel rest)).
      { apply mapM_is_Some. eapply Forall_impl; [exact Hrest|].
        intros s [n' Hn']. simpl. unfold Earlier.Source_cancel. rewrite Hn'. by eexists. }
      rewrite Hmap in Hsome. by destruct Hsome. }
  simpl. eexists _, _, _, _. split; [done|]. simpl. split; [done|]. split; [done|].
  split; [done|]. unfold Earlier.Source_elapsed, Source.elapsed. simpl.
  rewrite Hfrom, Hat. ring.
Qed.

(** ** What every reader method preserves *)

Lemma perform_queue effects : ∀ r,
  Reader.queue (foldl Reader.perform r effects) = Reader.queue r.
Proof.
  induction effects as [|e effects IH]; intros r; [done|].
  simpl. rewrite IH. by destruct e.
Qed.

Lemma notify_queue e r r' : Reader.notify e r = Some r' → Reader.queue r' = Reader.queue r.
Proof. unfold Reader.notify. destruct (Reader.destroyed r); [done|]. by intros [= <-]. Qed.

Lemma notify_preserves e : preserves (Reader.notify e).
Proof. intros r r' H. by rewrite (notify_queue _ _ _ H). Qed.

Lemma queue_pause_preserves currentTime : preserves (Reader.queue_pause currentTime).
Proof.
  intros r r'. unfold Reader.queue_pause. destruct (Reader.destroyed r); [done|].
  destruct (SourceQueue.pause _ _) as [q effects] eqn:Hpause. intros [= <-] _.
  rewrite perform_queue. simpl.
  change q with (q, effects).1. rewrite <- Hpause. apply pause_chained.
Qed.

Lemma queue_play_preserves currentTime : preserves (Reader.queue_play currentTime).
Proof.
  intros r r'. unfold Reader.queue_play. destruct (Reader.destroyed r); [done|].
  destruct (SourceQueue.play _ _) as [[q effects]|] eqn:Hplay; [|done]. simpl.
  intros [= <-]. rewrite perform_queue. simpl. by eapply play_chained.
Qed.

Lemma queue_empty_preserves : preserves Reader.queue_empty.
Proof.
  intros r r'. unfold Reader.queue_empty. destruct (Reader.destroyed r); [done|].
  rewrite empty_total. simpl. intros [= <-] Hr Hp. simpl in *.
  destruct (Hr Hp) as [? _]. split; [done|]. apply gapless_nil.
Qed.

Lemma scheduleFragment_preserves currentTime number offset :
  preserves (Reader.scheduleFragment currentTime number offset).
Proof.
  intros r r'. unfold Reader.scheduleFragment. destruct (Reader.destroyed r); [done|].
  destruct (lookupZ _ _) as [fragment|]; [|done]. simpl.
  destruct (SourceQueue.push _ _ _ _ _) as [[q res]|] eqn:Hpush; [|done]. simpl.
  intros [= <-]. simpl. by eapply push_chained.
Qed.

Lemma loadFragment_preserves now callback number :
  preserves now → preserves (Reader.loadFragment now callback number).
Proof.
  intros Hnow r r'. unfold Reader.loadFragment. case_bool_decide as Hc; [by intros [= <-]|].
  destruct (Reader.isFragmentLoaded _ _) as [[|]|]; simpl; [by apply Hnow| |done].
  unfold Reader.fetchFragment. destruct (lookupZ _ _); [|done]. simpl. by intros [= <-].
Qed.

Lemma loadAndScheduleFragment_preserves currentTime number offset :
  preserves (Reader.loadAndScheduleFragment currentTime number offset).
Proof. apply loadFragment_preserves, scheduleFragment_preserves. Qed.

Lemma endCallback_preserves currentTime number :
  preserves (Reader.endCallback currentTime number).
Proof.
  intros r r'. unfold Reader.endCallback. intros H Hr. bind_inv H.
  eapply loadAndScheduleFragment_preserves; [done|].
  revert E. case_bool_decide.
  - intros E. bind_inv E. apply notify_queue in E. rewrite E. simpl. by intros ?.
  - by intros [= <-].
Qed.

Lemma seekLoaded_preserves currentTime number offset :
  preserves (Reader.seekLoaded currentTime number offset).
Proof.
  intros r r'. unfold Reader.seekLoaded. case_bool_decide as Hc; [by intros [= <-]|].
  intros H Hr. bind_inv H. bind_inv H. bind_inv H.
  eapply loadAndScheduleFragment_preserves; [done|].
  eapply scheduleFragment_preserves; [done|].
  eapply queue_play_preserves; [done|]. simpl.
  by rewrite (notify_queue _ _ _ E).
Qed.

Lemma seek_setup_preserves currentTime time : preserves (Reader.seek_setup currentTime time).
Proof.
  intros r r'. unfold Reader.seek_setup. intros H Hr. bind_inv H. bind_inv H. bind_inv H.
  eapply loadFragment_preserves; [apply seekLoaded_preserves|done|].
  eapply queue_empty_preserves; [done|]. rewrite (notify_queue _ _ _ E0). simpl.
  eapply queue_pause_preserves; [done|]. done.
Qed.

Lemma seek_preserves currentTime time : preserves (Reader.seek currentTime time).
Proof.
  intros r r'. unfold Reader.seek. case_bool_decide as Hc; [by intros [= <-]|].
  intros H Hr. by eapply seek_setup_preserves.
Qed.

Lemma waitingFragments_tick_preserves currentTime j :
  preserves (Reader.waitingFragments_tick currentTime j).
Proof.
  intros r r'. unfold Reader.waitingFragments_tick.
  destruct (_ !! j); [|by intros [= <-]]. case_bool_decide as Hc; [by intros [= <-]|].
  intros H Hr. by eapply seek_setup_preserves.
Qed.

Lemma initialLoaded_preserves currentTime : preserves (Reader.initialLoaded currentTime).
Proof.
  intros r r'. unfold Reader.initialLoaded. destruct (Reader.jumped r); [by intros [= <-]|].
  intros H Hr. bind_inv H. bind_inv H.
  eapply loadAndScheduleFragment_preserves; [done|]. simpl.
  rewrite (notify_queue _ _ _ E0). by eapply scheduleFragment_preserves.
Qed.

Lemma runCallback_preserves currentTime callback :
  preserves (Reader.runCallback currentTime callback).
Proof.
  destruct callback; simpl.
  - apply initialLoaded_preserves.
  - apply scheduleFragment_preserves.
  - apply seekLoaded_preserves.
Qed.

Lemma metadataFetched_preserves currentTime metadata :
  preserves (Reader.metadataFetched currentTime metadata).
Proof.
  intros r r'. unfold Reader.metadataFetched. intros H Hr. bind_inv H.
  eapply loadFragment_preserves; [apply initialLoaded_preserves|done|].
  by rewrite (notify_queue _ _ _ E).
Qed.

Lemma fragmentDecoded_preserves currentTime j audioBuffer :
  preserves (Reader.fragmentDecoded currentTime j audioBuffer).
Proof.
  intros r r'. unfold Reader.fragmentDecoded.
  destruct (_ !! j) as [[number callback]|]; [|done]. simpl.
  destruct (Reader.destroyed r); [done|]. destruct (lookupZ _ _); [|done]. simpl.
  intros H Hr. by eapply runCallback_preserves.
Qed.

Lemma sourceEnded_preserves currentTime i : preserves (Reader.sourceEnded currentTime i).
Proof.
  intros r r'. unfold Reader.sourceEnded.
  destruct (_ !! i) as [source|] eqn:Hi; [|done]. simpl.
  destruct (Source.endTimer source) as [timer|]; [|done]. simpl.
  intros H Hr. bind_inv H. bind_inv H. injection H as <-. simpl.
  eapply shift_chained; [done|].
  assert (Hspent : chained (SourceQueue.set_sources
            (<[i := Source.set_endTimer
                      (Some {| Source.delayMs := Source.delayMs timer; Source.live := false |})
                      source]> (SourceQueue.sources (Reader.queue r))) (Reader.queue r))).
  { intros Hp. destruct (Hr Hp) as [? Hg]. split; [done|]. simpl.
    eapply gapless_timing; [|done]. intros k. destruct (decide (k = i)) as [->|].
    - rewrite list_lookup_insert_eq by (by eapply lookup_lt_Some). by rewrite Hi.
    - by rewrite list_lookup_insert_ne. }
  destruct (Source.endCallback source) as [number|].
  - by eapply endCallback_preserves.
  - by injection E as <-.
Qed.

Lemma destroy_preserves : preserves Reader.destroy.
Proof.
  intros r r'. unfold Reader.destroy. intros H Hr. bind_inv H. injection H as <-.
  simpl. by eapply queue_empty_preserves.
Qed.

Lemma run_chained f s s' :
  (∀ now, preserves (f now)) →
  Session.run f s = Some s' →
  chained (Reader.queue (Session.reader s)) → chained (Reader.queue (Session.reader s')).
Proof.
  intros Hf. unfold Session.run. intros H Hs. bind_inv H. injection H as <-.
  simpl. by eapply Hf.
Qed.

Create HintDb chained.

#[local] Hint Resolve notify_preserves queue_pause_preserves queue_play_preserves
  seek_preserves metadataFetched_preserves fragmentDecoded_preserves
  sourceEnded_preserves waitingFragments_tick_preserves destroy_preserves : chained.

Lemma step_chained a s s' :
  Session.step a s = Some s' →
  chained (Reader.queue (Session.reader s)) → chained (Reader.queue (Session.reader s')).
Proof.
  intros H Hs.
  assert (Hrun : ∀ f s0,
    (∀ now, preserves (f now)) → Session.reader s0 = Session.reader s →
    Session.run f s0 = Some s' → chained (Reader.queue (Session.reader s'))).
  { intros f s0 Hf Hreader Hrun. eapply run_chained; [done..|]. by rewrite Hreader. }
  destruct a; simpl in H;
    repeat match type of H with
      | (if ?b then _ else _) = Some _ => destruct b; [|discriminate H]
      | match ?o with Some _ => _ | None => _ end = Some _ => destruct o
      end;
    first
      [ by injection H as <-
      | eapply Hrun; [| |exact H]; [intros now; unfold Reader.metadataFailed;
                                   auto with chained|reflexivity] ].
Qed.

Lemma reachable_chained s :
  Session.reachable s → chained (Reader.queue (Session.reader s)).
Proof.
  intros (w & c & actions & _ & _ & Hsteps).
  assert (Hgen : ∀ actions s0 s,
    Session.steps actions s0 = Some s →
    chained (Reader.queue (Session.reader s0)) → chained (Reader.queue (Session.reader s))).
  { clear. induction actions as [|a actions IH]; intros s0 s; simpl.
    - by intros [= <-].
    - intros H Hs0. bind_inv H. eapply IH; [done|]. by eapply step_chained. }
  eapply Hgen; [done|]. done.
Qed.

(** ** Gapless timing *)

(** C1. In every state a player can reach in which the queue is
    playing: a source set up at position [p] starts at the clock's
    current time when [p = 0], and otherwise at the previous source's
    [startsAt] plus the duration of its buffer minus its [startsFrom];
    every source of the queue starts where its predecessor ends; and a
    push keeps it so, the pushed source being set up at the position it
    is appended at. *)
Theorem gapless_timing_rule (s : Session.t)
    (Hreach : Session.reachable s)
    (Hplaying : SourceQueue.state (Reader.queue (Session.reader s)) = STATE_PLAYING) :
  let q := Reader.queue (Session.reader s) in
  (∀ currentTime p this this',
     Source.setup currentTime (SourceQueue.get q) p this = Some this' →
     (p = 0 → Source.startsAt this' = Some currentTime)
     ∧ (0 < p →
        ∃ previous a b,
          SourceQueue.get q (p - 1) = Some previous
          ∧ Source.startsAt previous = Some a ∧ Source.buffer previous = Some b
          ∧ Source.startsAt this'
            = Some (a + AudioBuffer.duration b - Source.startsFrom previous)%Q))
  ∧ (∀ i u v,
       SourceQueue.sources q !! i = Some u → SourceQueue.sources q !! S i = Some v →
       ∃ a b,
         Source.startsAt u = Some a ∧ Source.buffer u = Some b
         ∧ Source.startsAt v = Some (a + AudioBuffer.duration b - Source.startsFrom u)%Q)
  ∧ (∀ currentTime buffer number beforeSetup q' res,
       SourceQueue.push currentTime buffer number beforeSetup q = Some (q', res) →
       ∃ source,
         res = Some source
         ∧ SourceQueue.sources q' = SourceQueue.sources q ++ [source]
         ∧ (SourceQueue.sources q = [] → Source.startsAt source = Some currentTime)
         ∧ (∀ previous, last (SourceQueue.sources q) = Some previous →
            follows previous source)
         ∧ gapless (SourceQueue.sources q')).
Proof.
  intros q. destruct (reachable_chained s Hreach Hplaying) as [_ [Hsched Hfollows]].
  fold q in Hsched, Hfollows. split; [|split].
  - intros currentTime p this this' Hsetup.
    destruct (setup_spec _ _ _ _ _ Hsetup) as (_ & Hzero & Hpos). split; [done|].
    intros Hp. destruct (Hpos Hp) as (previous & b & Hprev & Hb & Hat).
    destruct (Hsched _ _ Hprev) as [[a Ha] _].
    exists previous, a, b. by rewrite Hat, Ha.
  - exact Hfollows.
  - intros currentTime buffer number beforeSetup q' res Hpush.
    destruct (push_playing _ _ _ _ _ _ _ Hplaying Hpush)
      as (source & -> & Hsources & _ & _ & Hzero & Hpos & Hg).
    exists source. split; [done|]. split; [done|]. split; [|split].
    + intros Hnil. apply Hzero. fold q. by rewrite Hnil.
    + intros previous Hlast. rewrite last_lookup in Hlast.
      destruct Hpos as (previous' & b & Hprev & Hb & Hat).
      { fold q. destruct (SourceQueue.sources q); [done|simpl; lia]. }
      fold q in Hprev. replace (length (SourceQueue.sources q) - 1)
        with (pred (length (SourceQueue.sources q))) in Hprev by lia.
      rewrite Hlast in Hprev. injection Hprev as <-.
      destruct (Hsched _ _ Hlast) as [[a Ha] _]. exists a, b. by rewrite Hat, Ha.
    + by apply Hg.
Qed.

Lemma gapless_timing_rule_witness :
  Session.reachable Samples.playing
  ∧ SourceQueue.state (Reader.queue (Session.reader Samples.playing)) = STATE_PLAYING
  ∧ ∀ i u v,
      SourceQueue.sources (Reader.queue (Session.reader Samples.playing)) !! i = Some u →
      SourceQueue.sources (Reader.queue (Session.reader Samples.playing)) !! S i = Some v →
      ∃ a b,
        Source.startsAt u = Some a ∧ Source.buffer u = Some b
        ∧ Source.startsAt v = Some (a + AudioBuffer.duration b - Source.startsFrom u)%Q.
Proof.
  assert (Hreach : Session.reachable Samples.playing).
  { exists 0%Q, 0%Q, Samples.startup. split; [discriminate|]. split; [discriminate|].
    vm_compute. reflexivity. }
  split; [exact Hreach|]. split; [reflexivity|].
  exact (proj1 (proj2 (gapless_timing_rule Samples.playing Hreach eq_refl))).
Defined.

Lemma queue_pause_spec currentTime r :
  Reader.destroyed r = false →
  ∃ r' paused,
    Reader.queue_pause currentTime r = Some r'
    ∧ Reader.queue r' = (SourceQueue.pause currentTime (Reader.queue r)).1
    ∧ Reader.log r' = Reader.log r ++ paused
    ∧ (paused = [] ∨ paused = [Reader.Player onPause])
    ∧ Reader.seekCalls r' = Reader.seekCalls r
    ∧ frame r r'.
Proof.
  intros Halive. unfold Reader.queue_pause. rewrite Halive.
  assert (Heffects : (SourceQueue.pause currentTime (Reader.queue r)).2 = []
                     ∨ (SourceQueue.pause currentTime (Reader.queue r)).2
                       = [SourceQueue.ClearInterval; SourceQueue.Callback onPause]).
  { unfold SourceQueue.pause. case_bool_decide; [by left|by right]. }
  destruct (SourceQueue.pause _ _) as [q effects]. simpl in *.
  destruct Heffects as [-> | ->]; simpl.
  - eexists _, []. split; [done|]. simpl. rewrite app_nil_r. by repeat split; eauto.
  - eexists _, [Reader.Player onPause]. split; [done|]. simpl. by repeat split; eauto.
Qed.

Lemma pause_length currentTime q :
  length (SourceQueue.sources (SourceQueue.pause currentTime q).1)
  = length (SourceQueue.sources q).
Proof.
  unfold SourceQueue.pause. case_bool_decide; [done|]. simpl.
  destruct q as [st [|head rest] latest]; simpl; [done|]. by rewrite length_fmap.
Qed.

(** ** The end of a fragment *)



(** Played to the end without a seek, the track raises [onFinish] once,
    when [currentFragmentNumber] has reached the number of fragments;
    fragment 2 was requested once, when fragment 0 ended. *)
Example playthrough_finishes_once :
  ∃ s1 s,
    Session.steps (Samples.startup ++ take 2 Samples.through) (Session.new_ 0%Q 0%Q)
    = Some s1
    ∧ fetches 2 (Session.reader s1) = 1
    ∧ Session.steps (drop 2 Samples.through) s1 = Some s
    ∧ SourceQueue.state (Reader.queue (Session.reader s)) = STATE_FINISHED
    ∧ Reader.currentFragmentNumber (Session.reader s) = 4%Z
    ∧ length (filter (λ e, e = Reader.Player onFinish) (Reader.log (Session.reader s))) = 1
    ∧ last (Reader.log (Session.reader s)) = Some (Reader.Player onFinish).
Proof.
  eexists _, _. split; [vm_compute; reflexivity|]. split; [reflexivity|].
  split; [vm_compute; reflexivity|]. by repeat split.
Qed.

(** ** Seeking *)

Lemma Qtruncate_nonneg x : (0 <= x)%Q → Qtruncate x = Qfloor x.
Proof.
  destruct x as [n d]. unfold Qle, Qtruncate, Qfloor. simpl. intros H.
  apply Z.quot_div_nonneg; lia.
Qed.

Lemma seek_split time :
  (0 <= time)%Q →
  (0 ≤ Reader.getFragmentNumber time)%Z
  ∧ (inject_Z (Reader.getFragmentNumber time) * FRAGMENT_DURATION <= time)%Q
  ∧ (time < (inject_Z (Reader.getFragmentNumber time) + 1) * FRAGMENT_DURATION)%Q
  ∧ (js_rem time FRAGMENT_DURATION
     == time - inject_Z (Reader.getFragmentNumber time) * FRAGMENT_DURATION)%Q
  ∧ (0 <= js_rem time FRAGMENT_DURATION)%Q
  ∧ (js_rem time FRAGMENT_DURATION < FRAGMENT_DURATION)%Q.
Proof.
  intros Htime. unfold Reader.getFragmentNumber, Math_floor, js_rem, FRAGMENT_DURATION.
  assert (Hx : (0 <= time / 15)%Q).
  { apply Qle_shift_div_l; [reflexivity|]. lra. }
  rewrite (Qtruncate_nonneg _ Hx).
  pose proof (Qfloor_le (time / 15)) as Hle.
  pose proof (Qlt_floor (time / 15)) as Hlt.
  rewrite inject_Z_plus in Hlt. change (inject_Z 1) with 1%Q in Hlt.
  assert (Htimes : (time == time / 15 * 15)%Q) by (field; discriminate).
  split. { change 0%Z with (Qfloor 0). by apply Qfloor_resp_le. }
  set (n := inject_Z (Qfloor (time / 15))) in *.
  set (x := (time / 15)%Q) in *.
  repeat split; lra.
Qed.

Lemma push_static currentTime buffer number beforeSetup q q' source :
  SourceQueue.push currentTime buffer number beforeSetup q = Some (q', Some source) →
  static source
  = static (from_option (λ f, f (Source.set_number (Some number) (Source.new_ buffer)))
              (Source.set_number (Some number) (Source.new_ buffer)) beforeSetup).
Proof.
  unfold SourceQueue.push. simpl. case_bool_decide.
  - destruct (Source.setup _ _ _ _) as [source1|] eqn:Hsetup; [|done]. simpl.
    destruct (Source.schedule _ _) as [source2|] eqn:Hschedule; [|done]. simpl.
    intros [= _ <-].
    destruct (setup_spec _ _ _ _ _ Hsetup) as (Hst1 & _).
    destruct (schedule_spec _ _ _ Hschedule) as (Hst2 & _). congruence.
  - by intros [= _ <-].
Qed.

Lemma push_total currentTime buffer number beforeSetup q :
  (SourceQueue.state q = STATE_PLAYING →
   is_Some (Source.buffer
              (from_option (λ f, f (Source.set_number (Some number) (Source.new_ buffer)))
                 (Source.set_number (Some number) (Source.new_ buffer)) beforeSetup))
   ∧ ∀ previous, last (SourceQueue.sources q) = Some previous →
                 is_Some (Source.buffer previous)) →
  is_Some (SourceQueue.push currentTime buffer number beforeSetup q).
Proof.
  intros Hq. unfold SourceQueue.push. simpl. case_bool_decide as Hp; [|by eexists].
  destruct (Hq Hp) as [Hbuffer Hlast].
  set (source0 := from_option _ _ beforeSetup) in *.
  assert (Hsetup : ∃ source1,
    Source.setup currentTime (λ i, (SourceQueue.sources q ++ [source0]) !! i)
      (length (SourceQueue.sources q)) source0 = Some source1
    ∧ static source1 = static source0).
  { unfold Source.setup. case_bool_decide as Hlen; [|by eexists].
    rewrite lookup_app_l by lia.
    destruct (lookup_lt_is_Some_2 (SourceQueue.sources q)
                (length (SourceQueue.sources q) - 1)) as [previous Hprev]; [lia|].
    rewrite Hprev. simpl. destruct (Hlast previous) as [b ->].
    { rewrite last_lookup. by replace (pred _) with (length (SourceQueue.sources q) - 1) by lia. }
    simpl. by eexists. }
  destruct Hsetup as (source1 & -> & Hst1). simpl.
  destruct (schedule_total currentTime source1) as [source2 ->]; [|by eexists].
  destruct (static_eq _ _ Hst1) as (-> & _). done.
Qed.

Lemma scheduleFragment_spec currentTime number offset r fragment audioBuffer :
  Reader.destroyed r = false →
  lookupZ (Reader.fragments r) number = Some fragment →
  Reader.buffer fragment = Some audioBuffer →
  (∀ previous, last (SourceQueue.sources (Reader.queue r)) = Some previous →
               is_Some (Source.buffer previous)) →
  ∃ r' source,
    Reader.scheduleFragment currentTime number offset r = Some r'
    ∧ SourceQueue.sources (Reader.queue r') = SourceQueue.sources (Reader.queue r) ++ [source]
    ∧ SourceQueue.state (Reader.queue r') = SourceQueue.state (Reader.queue r)
    ∧ SourceQueue.latestElapsed (Reader.queue r') = SourceQueue.latestElapsed (Reader.queue r)
    ∧ Source.number source = Some number
    ∧ Source.buffer source = Some audioBuffer
    ∧ Source.endCallback source = Some number
    ∧ Source.startsFrom source = (if truthy offset then ToNumber offset else 0%Q)
    ∧ (SourceQueue.state (Reader.queue r) = STATE_PLAYING →
       SourceQueue.sources (Reader.queue r) = [] →
       Source.startsAt source = Some currentTime)
    ∧ Reader.log r' = Reader.log r
    ∧ Reader.seekCalls r' = Reader.seekCalls r
    ∧ frame r r'.
Proof.
  intros Halive Hfragment Hbuffer Hlast. unfold Reader.scheduleFragment.
  rewrite Halive, Hfragment. simpl. rewrite Hbuffer.
  destruct (push_total currentTime (Some audioBuffer) number
              (Some (Reader.beforeSetup number offset)) (Reader.queue r))
    as [[q' res] Hpush].
  { intros _. split; [|done]. simpl. unfold Reader.beforeSetup.
    destruct (truthy offset); by eexists. }
  rewrite Hpush. simpl.
  assert (Hstatic : ∀ source, res = Some source →
    static source = (Some audioBuffer, Some number,
                     if truthy offset then ToNumber offset else 0%Q, Some number)).
  { intros source ->. rewrite (push_static _ _ _ _ _ _ _ Hpush). simpl.
    unfold Reader.beforeSetup. by destruct (truthy offset). }
  destruct (decide (SourceQueue.state (Reader.queue r) = STATE_PLAYING)) as [Hp|Hp].
  - destruct (push_playing _ _ _ _ _ _ _ Hp Hpush)
      as (source & -> & Hsources & Hstate & Hlatest & Hzero & _).
    specialize (Hstatic source eq_refl). injection Hstatic as ? ? ? ?.
    exists (Reader.set_queue q' r), source. split; [done|]. simpl.
    rewrite Hp. repeat split; try done.
    intros _ Hnil. apply Hzero. by rewrite Hnil.
  - unfold SourceQueue.push in Hpush. simpl in Hpush.
    rewrite bool_decide_eq_false_2 in Hpush by done. injection Hpush as <- <-.
    specialize (Hstatic _ eq_refl). injection Hstatic as ? ? ? ?.
    eexists _, _. split; [done|]. simpl. repeat split; try done.
Qed.

Lemma loadAndScheduleFragment_spec currentTime number r :
  (0 ≤ number)%Z →
  Reader.destroyed r = false →
  (∀ previous, last (SourceQueue.sources (Reader.queue r)) = Some previous →
               is_Some (Source.buffer previous)) →
  ∃ r' pushed,
    Reader.loadAndScheduleFragment currentTime number None r = Some r'
    ∧ SourceQueue.sources (Reader.queue r') = SourceQueue.sources (Reader.queue r) ++ pushed
    ∧ SourceQueue.state (Reader.queue r') = SourceQueue.state (Reader.queue r)
    ∧ SourceQueue.latestElapsed (Reader.queue r') = SourceQueue.latestElapsed (Reader.queue r)
    ∧ Reader.fragments r' = Reader.fragments r
    ∧ Reader.currentFragmentNumber r' = Reader.currentFragmentNumber r
    ∧ Reader.buffering r' = Reader.buffering r
    ∧ Reader.destroyed r' = Reader.destroyed r.
Proof.
  intros Hnumber Halive Hlast. unfold Reader.loadAndScheduleFragment, Reader.loadFragment.
  case_bool_decide as Hrange.
  { exists r, []. rewrite app_nil_r. by repeat split. }
  unfold Reader.isFragmentLoaded, Reader.fetchFragment.
  destruct (lookupZ (Reader.fragments r) number) as [fragment|] eqn:Hfragment.
  2:{ unfold lookupZ in Hfragment. rewrite bool_decide_eq_true_2 in Hfragment by done.
      apply lookup_ge_None in Hfragment. lia. }
  simpl. case_bool_decide as Hloaded.
  - destruct Hloaded as [audioBuffer Hbuffer].
    destruct (scheduleFragment_spec currentTime number None r fragment audioBuffer)
      as (r' & source & -> & Hsources & Hstate & Hlatest & _ & _ & _ & _ & _ & _ & _ & Hf);
      [done..|].
    destruct Hf as (? & ? & ? & ? & ? & ? & ?).
    exists r', [source]. by repeat split.
  - eexists _, []. split; [done|]. simpl. rewrite app_nil_r. by repeat split.
Qed.

Lemma play_paused_empty currentTime q :
  SourceQueue.state q = STATE_PAUSED → SourceQueue.sources q = [] →
  SourceQueue.play currentTime q
  = Some ({| SourceQueue.state := STATE_PLAYING; SourceQueue.sources := [];
             SourceQueue.latestElapsed := None |},
          [SourceQueue.SetInterval 500; SourceQueue.Callback onPlay]).
Proof. destruct q as [st srcs latest]. simpl. by intros -> ->. Qed.

Lemma truthy_offset offset :
  ((if truthy (Some offset) then ToNumber (Some offset) else 0) == offset)%Q.
Proof.
  simpl. destruct (Qeq_bool offset 0) eqn:Hzero; simpl; [|reflexivity].
  apply Qeq_bool_iff in Hzero. by rewrite Hzero.
Qed.

(** The load that a seek waits for completes while the queue is still
    paused and empty. *)
Lemma seekLoaded_resolves currentTime number offset r fragment audioBuffer :
  Reader.destroyed r = false →
  Reader.currentFragmentNumber r = number →
  SourceQueue.state (Reader.queue r) = STATE_PAUSED →
  SourceQueue.sources (Reader.queue r) = [] →
  lookupZ (Reader.fragments r) number = Some fragment →
  Reader.buffer fragment = Some audioBuffer →
  ∃ r3 source rest,
    Reader.seekLoaded currentTime number offset r = Some r3
    ∧ Reader.currentFragmentNumber r3 = number
    ∧ Reader.buffering r3 = false
    ∧ Reader.destroyed r3 = false
    ∧ SourceQueue.state (Reader.queue r3) = STATE_PLAYING
    ∧ SourceQueue.latestElapsed (Reader.queue r3) = None
    ∧ SourceQueue.sources (Reader.queue r3) = source :: rest
    ∧ Source.number source = Some number
    ∧ Source.startsAt source = Some currentTime
    ∧ (Source.startsFrom source == offset)%Q.
Proof.
  intros Halive Hcfn Hstate Hsources Hfragment Hbuffer.
  destruct (lookupZ_Some _ _ _ Hfragment) as [Hrange _].
  unfold Reader.seekLoaded. rewrite bool_decide_eq_false_2 by (by intros ?).
  unfold Reader.notify, Reader.queue_play. rewrite Halive. simpl. rewrite Halive.
  rewrite (play_paused_empty _ _ Hstate Hsources). simpl.
  set (rb := Reader.set_log _ _).
  destruct (scheduleFragment_spec currentTime number (Some offset) rb fragment audioBuffer)
    as (rc & source & -> & Hsrc & Hst & Hlatest & Hnumber & Hbuf & _ & Hfrom & Hat & _ & _ & Hf);
    [done..|].
  simpl in Hsrc, Hst, Hlatest. specialize (Hat eq_refl eq_refl).
  destruct Hf as (Hfr & Hc & Hb & _ & Hd & _). simpl in Hfr, Hc, Hb, Hd.
  simpl.
  destruct (loadAndScheduleFragment_spec currentTime (number + 1) rc)
    as (r3 & pushed & -> & Hsrc3 & Hst3 & Hlatest3 & _ & Hc3 & Hb3 & Hd3); [lia|congruence|..].
  { rewrite Hsrc. simpl. intros previous [= <-]. rewrite Hbuf. by eexists. }
  exists r3, source, pushed. split; [done|]. rewrite Hc3, Hb3, Hd3, Hst3, Hlatest3, Hsrc3.
  rewrite Hsrc, Hc, Hb, Hd, Hst, Hlatest. repeat split; try done.
  rewrite Hfrom. apply truthy_offset.
Qed.

(** What a seek does when the load it waits for is the next one to
    complete. For a time [t ≥ 0] the seek targets fragment
    [floor(t / 15)] at offset [t mod 15]: [t] is [15 * number + offset]
    with [0 ≤ offset < 15]. It sets [currentFragmentNumber] to the
    target, pauses the queue and empties it and signals the start of
    buffering, and only then loads the fragment. When the fragment is
    not in memory one request is sent; if that request completes before
    any other event, the fragment is scheduled with the offset as
    [startsFrom], and [getCurrentTime()] at clock [c] is [t] plus the
    time played since. *)
Theorem seek_arithmetic (currentTime time : Q) (r : Reader.t)
    (Htime : (0 <= time)%Q)
    (Hmetadata : Reader.fragments r ≠ [])
    (Halive : Reader.destroyed r = false) :
  let number := Reader.getFragmentNumber time in
  let offset := js_rem time FRAGMENT_DURATION in
  number = Qfloor (time / FRAGMENT_DURATION)
  ∧ (0 <= offset)%Q ∧ (offset < FRAGMENT_DURATION)%Q
  ∧ (time == inject_Z number * FRAGMENT_DURATION + offset)%Q
  ∧ ∃ r1 paused,
      Reader.seek currentTime time r
      = Reader.loadFragment (Reader.seekLoaded currentTime number offset)
          (Reader.SeekLoaded number offset) number r1
      ∧ Reader.currentFragmentNumber r1 = number
      ∧ SourceQueue.state (Reader.queue r1) = STATE_PAUSED
      ∧ SourceQueue.sources (Reader.queue r1) = []
      ∧ Reader.buffering r1 = true
      ∧ Reader.fragments r1 = Reader.fragments r
      ∧ Reader.requests r1 = Reader.requests r
      ∧ Reader.log r1 = Reader.log r ++ paused ++ [Reader.Player onBufferingStart]
      ∧ (paused = [] ∨ paused = [Reader.Player onPause])
      ∧ ∀ fragment,
          lookupZ (Reader.fragments r) number = Some fragment →
          Reader.buffer fragment = None →
          ∃ r',
            Reader.seek currentTime time r = Some r'
            ∧ r' = Reader.set_log (Reader.log r1 ++ [Reader.XHRSend number])
                     (Reader.set_requests
                        (Reader.requests r ++ [(number, Reader.SeekLoaded number offset)]) r1)
            ∧ ∀ now audioBuffer, ∃ r3 source rest,
                Reader.fragmentDecoded now (length (Reader.requests r)) audioBuffer r'
                = Some r3
                ∧ Reader.currentFragmentNumber r3 = number
                ∧ Reader.buffering r3 = false
                ∧ SourceQueue.state (Reader.queue r3) = STATE_PLAYING
                ∧ SourceQueue.sources (Reader.queue r3) = source :: rest
                ∧ Source.number source = Some number
                ∧ Source.startsAt source = Some now
                ∧ (Source.startsFrom source == offset)%Q
                ∧ ∀ c, ∃ t, Reader.getCurrentTime c r3 = Some t
                            ∧ (t == time + (c - now))%Q.
Proof.
  intros number offset.
  destruct (seek_split time Htime) as (Hnumber & _ & _ & Hoffset & Hlo & Hhi).
  fold number offset in Hnumber, Hoffset, Hlo, Hhi.
  split; [done|]. split; [done|]. split; [done|]. split; [lra|].
  unfold Reader.seek. rewrite bool_decide_eq_false_2
    by (simpl; by destruct (Reader.fragments r)).
  unfold Reader.seek_setup. fold number offset.
  destruct (queue_pause_spec currentTime
              (Reader.set_currentFragmentNumber number (Reader.set_jumped true r)))
    as (rp & paused & -> & Hq & Hlog & Hpaused & _ & Hf); [done|].
  destruct Hf as (Hfr & Hc & _ & _ & Hd & Hreq & _). simpl in Hq, Hlog, Hfr, Hc, Hd, Hreq.
  simpl. unfold Reader.notify, Reader.queue_empty. simpl. rewrite Hd, Halive. simpl.
  rewrite Hd, Halive, empty_total. simpl.
  set (r1 := Reader.set_queue _ _).
  exists r1, paused. split; [done|]. simpl. split; [done|].
  split; [by rewrite Hq, pause_state|]. split; [done|]. split; [done|]. split; [done|].
  split; [done|]. split; [by rewrite Hlog, <- app_assoc|]. split; [done|].
  intros fragment Hfragment Hnull. destruct (lookupZ_Some _ _ _ Hfragment) as [Hrange Hnth].
  unfold Reader.loadFragment, Reader.isFragmentLoaded, Reader.fetchFragment. simpl.
  rewrite Hfr, bool_decide_eq_false_2, Hfragment by lia. simpl.
  rewrite bool_decide_eq_false_2 by (rewrite Hnull; by intros [? ?]).
  eexists. split; [done|]. split; [by rewrite Hreq|].
  intros now audioBuffer. unfold Reader.fragmentDecoded. simpl.
  rewrite Hreq, lookup_app_r, Nat.sub_diag by lia. simpl.
  rewrite Hd, Halive, Hfr, Hfragment. simpl.
  set (r2 := Reader.set_fragments _ _).
  destruct (seekLoaded_resolves now number offset r2
              (Reader.set_buffer (Some audioBuffer) fragment) audioBuffer)
    as (r3 & source & rest & -> & Hc3 & Hb3 & Hd3 & Hst3 & Hlatest3 & Hsrc3 & Hn3 & Hat3 & Hfrom3);
    [try (simpl; congruence)..|].
  { simpl. rewrite Hq. apply pause_state. }
  { simpl. unfold lookupZ. rewrite bool_decide_eq_true_2 by lia.
    apply list_lookup_insert_eq. lia. }
  exists r3, source, rest. repeat split; try done.
  intros c. unfold Reader.getCurrentTime. rewrite Hd3. eexists. split; [done|].
  unfold SourceQueue.elapsed, Source.elapsed. rewrite Hlatest3, Hsrc3, Hat3, Hc3. simpl.
  rewrite Hfrom3. lra.
Qed.

Lemma seek_arithmetic_witness :
  (0 <= 40)%Q
  ∧ Reader.fragments (Session.reader Samples.later) ≠ []
  ∧ Reader.destroyed (Session.reader Samples.later) = false
  ∧ Reader.getFragmentNumber 40 = 2%Z
  ∧ (js_rem 40 FRAGMENT_DURATION == 10)%Q
  ∧ ∃ r' r3 source rest t,
      Reader.seek 1%Q 40%Q (Session.reader Samples.later) = Some r'
      ∧ Reader.fragmentDecoded (3 # 2)%Q 0 Samples.full r' = Some r3
      ∧ Reader.currentFragmentNumber r3 = 2%Z
      ∧ SourceQueue.sources (Reader.queue r3) = source :: rest
      ∧ Source.number source = Some 2%Z
      ∧ (Source.startsFrom source == 10)%Q
      ∧ Reader.getCurrentTime (3 # 2)%Q r3 = Some t
      ∧ (t == 40)%Q.
Proof.
  assert (H1 : (0 <= 40)%Q) by discriminate.
  assert (H2 : Reader.fragments (Session.reader Samples.later) ≠ []) by discriminate.
  split; [exact H1|]. split; [exact H2|]. split; [reflexivity|].
  split; [reflexivity|]. split; [reflexivity|].
  destruct (seek_arithmetic 1%Q 40%Q (Session.reader Samples.later) H1 H2 eq_refl)
    as (_ & _ & _ & _ & r1 & paused & _ & _ & _ & _ & _ & _ & _ & _ & _ & Hunloaded).
  destruct (Hunloaded _ eq_refl eq_refl) as (r' & Hseek & _ & Hdecoded).
  destruct (Hdecoded (3 # 2)%Q Samples.full)
    as (r3 & source & rest & Hr3 & Hc3 & _ & _ & Hsrc & Hnumber & _ & Hfrom & Htime).
  destruct (Htime (3 # 2)%Q) as (t & Ht & Heq).
  exists r', r3, source, rest, t. split; [exact Hseek|]. split; [exact Hr3|].
  split; [exact Hc3|]. split; [exact Hsrc|]. split; [exact Hnumber|].
  split; [exact Hfrom|]. split; [exact Ht|]. rewrite Heq. reflexivity.
Defined.

(** C2 (what the code does). On a track of four fragments the seek to
    40 s computes fragment 2 and offset 10, sets [currentFragmentNumber]
    to 2, leaves the queue paused and empty with the buffering flag up
    and requests fragment 2. The prefetch of fragment 1, requested
    before the seek, is still in flight; its callback, the one of
    [loadAndScheduleFragment], does not check whether it is still
    wanted, unlike the callback of the seek and the one of the
    constructor. When it completes first, fragment 1 is pushed onto the
    emptied queue; when the seek's own load then completes, buffering
    stops and the queue plays with fragment 1 at its head, from its
    start, and fragment 2 at offset 10 behind it: [getCurrentTime()] is
    30, not 40. *)
Theorem seek_overtaken_by_prefetch :
  (∃ s offset,
     Session.steps (take 4 Samples.overtaken) (Session.new_ 0%Q 0%Q) = Some s
     ∧ Reader.currentFragmentNumber (Session.reader s) = 2%Z
     ∧ Reader.buffering (Session.reader s) = true
     ∧ SourceQueue.state (Reader.queue (Session.reader s)) = STATE_PAUSED
     ∧ SourceQueue.sources (Reader.queue (Session.reader s)) = []
     ∧ Reader.requests (Session.reader s)
       = [(1%Z, Reader.LoadedThenSchedule 1 None); (2%Z, Reader.SeekLoaded 2 offset)]
     ∧ (offset == 10)%Q)
  ∧ ∃ s u v t,
      Session.steps Samples.overtaken (Session.new_ 0%Q 0%Q) = Some s
      ∧ Reader.buffering (Session.reader s) = false
      ∧ Reader.state (Session.reader s) = Some STATE_PLAYING
      ∧ Reader.currentFragmentNumber (Session.reader s) = 2%Z
      ∧ SourceQueue.sources (Reader.queue (Session.reader s)) = [u; v]
      ∧ Source.number u = Some 1%Z ∧ (Source.startsFrom u == 0)%Q
      ∧ Source.number v = Some 2%Z ∧ (Source.startsFrom v == 10)%Q
      ∧ Reader.getCurrentTime (Session.currentTime s) (Session.reader s) = Some t
      ∧ (t == 30)%Q ∧ ¬ (t == 40)%Q.
Proof.
  split.
  - eexists _, _. split; [vm_compute; reflexivity|]. by repeat split.
  - eexists _, _, _, _. split; [vm_compute; reflexivity|].
    repeat split; try reflexivity. discriminate.
Qed.

(** ** Debounced seeks *)

Lemma Qle_bool_false x y : (y < x)%Q → Qle_bool x y = false.
Proof.
  intros H. destruct (Qle_bool x y) eqn:E; [|done]. apply Qle_bool_iff in E. lra.
Qed.

Lemma Qle_bool_true x y : (x <= y)%Q → Qle_bool x y = true.
Proof. apply Qle_bool_iff. Qed.

Lemma steps_app actions actions' s :
  Session.steps (actions ++ actions') s
  = Session.steps actions s ≫= Session.steps actions'.
Proof.
  revert s. induction actions as [|a actions IH]; intros s; [done|].
  simpl. destruct (Session.step a s); simpl; [apply IH|done].
Qed.




(** ** Managers and their players *)

Lemma Player_pause_paused currentTime p p' :
  World.Player_pause currentTime p = Some p' →
  ∃ r', World.reader p' = Some r'
        ∧ SourceQueue.state (Reader.queue r') = STATE_PAUSED.
Proof.
  unfold World.Player_pause. destruct (World.reader p) as [r|]; [|done]. simpl.
  unfold Reader.queue_pause. destruct (Reader.destroyed r); [done|].
  destruct (SourceQueue.pause currentTime (Reader.queue r)) as [q effects] eqn:Hpause.
  simpl. intros [= <-]. eexists. split; [done|]. rewrite perform_queue. simpl.
  change q with (q, effects).1. rewrite <- Hpause. apply pause_state.
Qed.

Lemma pauseAll_loop_pauses currentTime exceptId ref refs : ∀ w w2,
  World.pauseAll_loop currentTime exceptId refs w = Some w2 →
  (paused_at ref w → paused_at ref w2) ∧ (ref ∈ refs → paused_at ref w2).
Proof.
  induction refs as [|ref0 refs IH]; intros w w2; simpl.
  - intros [= <-]. split; [done|]. by intros ?%elem_of_nil.
  - destruct (World.heap w !! ref0) as [p|] eqn:Hp; [|done]. simpl.
    destruct (World.Player_pause currentTime p) as [p'|] eqn:Hpause; [|done]. simpl.
    destruct (Player_pause_paused _ _ _ Hpause) as (r' & Hr' & Hstate).
    rewrite Hr'. simpl. intros Hloop. destruct (IH _ _ Hloop) as [Hkeep Hin].
    assert (Hhere : paused_at ref0
              {| World.managers := World.managers w; World.heap := <[ref0 := p']> (World.heap w);
                 World.players := World.players w;
                 World.polls :=
                   if Reader.buffering r' && negb (bool_decide (Some (World.id p') = exceptId))
                   then World.polls w ++ [ref0] else World.polls w |}).
    { exists p', r'. split; [|done]. simpl. apply list_lookup_insert_eq.
      by eapply lookup_lt_Some. }
    split.
    + intros Hpaused. apply Hkeep. destruct (decide (ref = ref0)) as [->|Hne]; [done|].
      destruct Hpaused as (p0 & r0 & H0 & ?). exists p0, r0. split; [|done]. simpl.
      by rewrite list_lookup_insert_ne.
    + intros [->|Hrefs]%elem_of_cons; [by apply Hkeep|by apply Hin].
Qed.

Lemma Player_destroy_spec p p' :
  World.Player_destroy p = Some p' →
  is_Some (World.reader p) ∧ World.reader p' = None ∧ World.manager p' = None.
Proof.
  unfold World.Player_destroy. destruct (World.reader p) as [r|]; [|done]. simpl.
  destruct (Reader.destroy r); [|done]. simpl. intros [= <-]. by eauto.
Qed.

Lemma destroyUnused_loop_spec n : ∀ w w2,
  World.destroyUnused_loop n w = Some w2 →
  (∀ ref, destroyed_at ref w → destroyed_at ref w2)
  ∧ (∀ i ref, World.players w !! i = Some ref → S i < length (World.players w) →
              destroyed_at ref w2)
  ∧ (length (World.players w) ≤ S n →
     World.players w2 = option_list (last (World.players w))).
Proof.
  induction n as [|n IH]; intros w w2; simpl.
  - destruct (World.players w) as [|ref0 [|ref1 refs]] eqn:Hps; [| |done].
    + intros [= <-]. rewrite Hps. split; [done|]. split; [|done].
      intros i ref _ Hi. simpl in Hi. lia.
    + intros [= <-]. rewrite Hps. split; [done|]. split; [|done].
      intros i ref _ Hi. simpl in Hi. lia.
  - destruct (World.players w) as [|ref0 [|ref1 refs]] eqn:Hps.
    + intros [= <-]. rewrite Hps. split; [done|]. split; [|done].
      intros i ref _ Hi. simpl in Hi. lia.
    + intros [= <-]. rewrite Hps. split; [done|]. split; [|done].
      intros i ref _ Hi. simpl in Hi. lia.
    + destruct (World.heap w !! ref0) as [p|] eqn:Hp; [|done]. simpl.
      destruct (World.Player_destroy p) as [p'|] eqn:Hdestroy; [|done]. simpl.
      destruct (Player_destroy_spec _ _ Hdestroy) as ([r Hr] & Hr' & Hm').
      intros Hloop. destruct (IH _ _ Hloop) as (Hkeep & Hearlier & Hlast).
      simpl in Hearlier, Hlast.
      assert (Hhere : destroyed_at ref0
                {| World.managers := World.managers w;
                   World.heap := <[ref0 := p']> (World.heap w);
                   World.players := ref1 :: refs; World.polls := World.polls w |}).
      { exists p'. split; [|done]. simpl. apply list_lookup_insert_eq.
        by eapply lookup_lt_Some. }
      split; [|split].
      * intros ref (p0 & H0 & Hnone & ?). apply Hkeep.
        destruct (decide (ref = ref0)) as [->|Hne]; [done|].
        exists p0. split; [|done]. simpl. by rewrite list_lookup_insert_ne.
      * intros [|i] ref Href Hi; simpl in Href.
        -- injection Href as <-. by apply Hkeep.
        -- apply (Hearlier i); [done|]. simpl in Hi |- *. lia.
      * intros Hlen. rewrite Hlast by (simpl in Hlen |- *; lia). done.
Qed.

(** C10. [players] lives on [Manager.prototype], so every manager reads
    and extends the same array: a player added through [m1] is listed by
    any other manager [m2], whose list is thereby changed; [m2.pauseAll()]
    pauses that player, whatever it is doing by then, and
    [m2.destroyUnused()] destroys it once a later player has been added. *)
Theorem players_shared_across_managers (w : World.t) (m1 m2 : nat) (w' : World.t)
    (ref : nat)
    (Hdistinct : m1 ≠ m2)
    (Hm2 : is_Some (World.managers w !! m2))
    (Hadd : World.add m1 w = Some (w', ref)) :
  (∃ p, World.heap w' !! ref = Some p ∧ World.manager p = Some m1
        ∧ World.reader p = Some Reader.new_)
  ∧ World.players_of m2 w = Some (World.players w)
  ∧ World.players_of m2 w' = Some (World.players w ++ [ref])
  ∧ World.players_of m2 w' ≠ World.players_of m2 w
  ∧ World.players_of m1 w' = World.players_of m2 w'
  ∧ (∀ r currentTime exceptId w2,
       World.pauseAll currentTime m2 exceptId (with_reader ref r w') = Some w2 →
       paused_at ref w2)
  ∧ (∀ m3 w1 ref2 w2,
       World.add m3 w' = Some (w1, ref2) →
       World.destroyUnused m2 w1 = Some w2 →
       destroyed_at ref w2 ∧ World.players w2 = [ref2]).
Proof.
  destruct Hm2 as [manager2 Hm2]. unfold World.add, World.players_of in Hadd.
  destruct (World.managers w !! m1) as [manager1|] eqn:Hm1; [|done].
  simpl in Hadd. injection Hadd as <- <-.
  unfold World.players_of. simpl. rewrite Hm1, Hm2. simpl.
  split. { rewrite lookup_app_r by lia. rewrite Nat.sub_diag. simpl. by eexists. }
  split; [done|]. split; [done|].
  split. { intros [= Heq]. apply (f_equal length) in Heq.
           rewrite length_app in Heq. simpl in Heq. lia. }
  split; [done|]. split.
  - intros r currentTime exceptId w2. unfold World.pauseAll, World.players_of, with_reader.
    simpl. rewrite lookup_app_r, Nat.sub_diag by lia. simpl. rewrite Hm2. simpl.
    intros Hloop. eapply pauseAll_loop_pauses; [done|].
    apply elem_of_app. right. by left.
  - intros m3 w1 ref2 w2. unfold World.add, World.players_of. simpl.
    destruct (World.managers w !! m3); [|done]. simpl. intros [= <- <-].
    unfold World.destroyUnused, World.players_of. simpl. rewrite Hm2. simpl.
    intros Hloop. destruct (destroyUnused_loop_spec _ _ _ Hloop) as (_ & Hearlier & Hlast).
    simpl in Hearlier, Hlast. split.
    + apply (Hearlier (length (World.players w))).
      * rewrite <- app_assoc. rewrite lookup_app_r by lia. by rewrite Nat.sub_diag.
      * rewrite !length_app. simpl. lia.
    + rewrite Hlast by lia. by rewrite last_snoc.
Qed.

Lemma players_shared_across_managers_witness :
  0 ≠ 1
  ∧ is_Some (World.managers Samples.twoManagers !! 1)
  ∧ World.add 0 Samples.twoManagers = Some (Samples.added, 0)
  ∧ World.players_of 1 Samples.twoManagers = Some []
  ∧ World.players_of 1 Samples.added = Some [0]
  ∧ (∃ w2,
       World.pauseAll 1%Q 1 None
         (with_reader 0 (Session.reader Samples.later) Samples.added) = Some w2
       ∧ paused_at 0 w2)
  ∧ (∃ w2,
       World.add 0 Samples.added = Some (Samples.addedTwice, 1)
       ∧ World.destroyUnused 1 Samples.addedTwice = Some w2
       ∧ destroyed_at 0 w2).
Proof.
  assert (H1 : 0 ≠ 1) by discriminate.
  assert (H2 : is_Some (World.managers Samples.twoManagers !! 1)) by (by eexists).
  assert (H3 : World.add 0 Samples.twoManagers = Some (Samples.added, 0)) by reflexivity.
  split; [exact H1|]. split; [exact H2|]. split; [exact H3|].
  pose proof (players_shared_across_managers Samples.twoManagers 0 1 Samples.added 0
                H1 H2 H3) as (_ & Hbefore & Hafter & _ & _ & Hpause & Hdestroy).
  split; [exact Hbefore|]. split; [exact Hafter|]. split.
  - assert (Hw2 : ∃ w2, World.pauseAll 1%Q 1 None
                          (with_reader 0 (Session.reader Samples.later) Samples.added)
                        = Some w2) by (eexists; vm_compute; reflexivity).
    destruct Hw2 as [w2 Hw2]. exists w2. split; [exact Hw2|].
    exact (Hpause _ _ _ _ Hw2).
  - assert (Hadd : World.add 0 Samples.added = Some (Samples.addedTwice, 1))
      by reflexivity.
    assert (Hw2 : ∃ w2, World.destroyUnused 1 Samples.addedTwice = Some w2)
      by (eexists; vm_compute; reflexivity).
    destruct Hw2 as [w2 Hw2]. exists w2. split; [exact Hadd|]. split; [exact Hw2|].
    exact (proj1 (Hdestroy _ _ _ _ Hadd Hw2)).
Defined.

(** * Further properties *)

(** ** The volume of a manager *)

(** X1. Whatever sequence of [mute], [unmute] and [setVolume] a new
    manager has gone through, its gain is either its volume or zero, and
    it is its volume whenever the manager is not muted; [unmute] always
    brings the gain back to the stored volume and leaves that volume as
    it was. *)
Theorem volume_calls_invariant (calls : list VolumeCall) :
  let m := foldl volumeCall Manager.new_ calls in
  (Manager.muted m = false → Manager.gain m = Manager.volume m)
  ∧ (Manager.gain m = Manager.volume m ∨ Manager.gain m = 0%Q)
  ∧ Manager.gain (Manager.unmute m) = Manager.volume m
  ∧ Manager.volume (Manager.unmute m) = Manager.volume m
  ∧ Manager.muted (Manager.unmute m) = false.
Proof.
  intros m.
  assert (Hinv : (Manager.muted m = false → Manager.gain m = Manager.volume m)
                 ∧ (Manager.gain m = Manager.volume m ∨ Manager.gain m = 0%Q)).
  { subst m.
    assert (Hnew : (Manager.muted Manager.new_ = false
                    → Manager.gain Manager.new_ = Manager.volume Manager.new_)
                   ∧ (Manager.gain Manager.new_ = Manager.volume Manager.new_
                      ∨ Manager.gain Manager.new_ = 0%Q)) by (split; [done|by left]).
    revert Hnew. generalize Manager.new_.
    induction calls as [|c calls IH]; intros m0 Hm0; [done|].
    simpl. apply IH. destruct Hm0 as [Hun Hor].
    destruct c; simpl.
    - split; [done|by right].
    - split; [done|by left].
    - split; [done|by left]. }
  destruct Hinv as [Hun Hor]. by repeat split.
Qed.

(** ** Pausing every player *)

Lemma Player_pause_spec currentTime p r :
  World.reader p = Some r → Reader.destroyed r = false →
  ∃ p' r',
    World.Player_pause currentTime p = Some p'
    ∧ World.reader p' = Some r'
    ∧ World.id p' = World.id p
    ∧ Reader.buffering r' = Reader.buffering r
    ∧ Reader.destroyed r' = false
    ∧ SourceQueue.state (Reader.queue r') = STATE_PAUSED.
Proof.
  intros Hr Halive. unfold World.Player_pause. rewrite Hr. simpl.
  destruct (queue_pause_spec currentTime r Halive)
    as (r' & paused & -> & Hq & _ & _ & _ & Hf).
  destruct Hf as (_ & _ & Hb & _ & Hd & _). simpl. eexists _, r'.
  split; [done|]. simpl. split; [done|]. split; [done|]. split; [done|].
  split; [congruence|]. rewrite Hq. apply pause_state.
Qed.

Lemma Player_pause_alive currentTime p p' :
  World.Player_pause currentTime p = Some p' →
  ∃ r, World.reader p = Some r ∧ Reader.destroyed r = false.
Proof.
  unfold World.Player_pause. destruct (World.reader p) as [r|]; [|done]. simpl.
  unfold Reader.queue_pause. destruct (Reader.destroyed r) eqn:Hd; [done|].
  intros _. by exists r.
Qed.

Lemma pauseAll_loop_total currentTime exceptId refs : ∀ w,
  (∀ ref, ref ∈ refs → alive_at ref w) →
  ∃ w',
    World.pauseAll_loop currentTime exceptId refs w = Some w'
    ∧ World.players w' = World.players w
    ∧ World.managers w' = World.managers w
    ∧ World.polls w'
      = World.polls w ++ filter (λ ref, needs_poll exceptId w ref = true) refs
    ∧ (∀ ref, alive_at ref w → alive_at ref w')
    ∧ (∀ ref, ref ∉ refs → World.heap w' !! ref = World.heap w !! ref).
Proof.
  induction refs as [|ref0 refs IH]; intros w Halive; simpl.
  - exists w. rewrite app_nil_r. by repeat split.
  - destruct (Halive ref0) as (p & r & Hp & Hr & Hd); [by left|].
    rewrite Hp. simpl.
    destruct (Player_pause_spec currentTime p r Hr Hd)
      as (p' & r' & -> & Hr' & Hid & Hb & Hd' & _).
    simpl. rewrite Hr'. simpl.
    set (w1 := World.Build_t _ _ _ _).
    assert (Hlt : ref0 < length (World.heap w)) by (by eapply lookup_lt_Some).
    assert (Hkeep : ∀ ref, alive_at ref w → alive_at ref w1).
    { intros ref (p0 & r0 & H0 & ? & ?). destruct (decide (ref = ref0)) as [->|Hne].
      - exists p', r'. split; [|done]. simpl. by apply list_lookup_insert_eq.
      - exists p0, r0. split; [|done]. simpl. by rewrite list_lookup_insert_ne. }
    assert (Hpoll : ∀ ref, needs_poll exceptId w1 ref = needs_poll exceptId w ref).
    { intros ref. unfold needs_poll. simpl. destruct (decide (ref = ref0)) as [->|Hne].
      - rewrite list_lookup_insert_eq by done. by rewrite Hp, Hr', Hr, Hid, Hb.
      - by rewrite list_lookup_insert_ne. }
    destruct (IH w1) as (w' & Hloop & Hplayers & Hmanagers & Hpolls & Halive' & Hother).
    { intros ref Hin. apply Hkeep, Halive. by right. }
    exists w'. split; [done|]. split; [done|]. split; [done|]. split; [|split].
    + rewrite Hpolls. simpl.
      rewrite (list_filter_iff _ (λ ref, needs_poll exceptId w ref = true))
        by (intros ref; by rewrite Hpoll).
      assert (Hhere : needs_poll exceptId w ref0
                      = Reader.buffering r'
                        && negb (bool_decide (Some (World.id p') = exceptId))).
      { unfold needs_poll. by rewrite Hp, Hr, Hid, Hb. }
      rewrite <- Hhere. destruct (needs_poll exceptId w ref0) eqn:Hneeds.
      * rewrite filter_cons_True by done. by rewrite <- app_assoc.
      * rewrite filter_cons_False by (by rewrite Hneeds). done.
    + intros ref Href. by apply Halive', Hkeep.
    + intros ref Hnot. rewrite Hother by (intros Hin; apply Hnot; by right).
      simpl. rewrite list_lookup_insert_ne; [done|]. intros <-. apply Hnot. by left.
Qed.

Lemma pauseAll_loop_alive currentTime exceptId refs : ∀ w w',
  World.pauseAll_loop currentTime exceptId refs w = Some w' →
  ∀ ref, ref ∈ refs → alive_at ref w.
Proof.
  induction refs as [|ref0 refs IH]; intros w w'; simpl.
  - intros _ ref Hin. by apply elem_of_nil in Hin.
  - destruct (World.heap w !! ref0) as [p|] eqn:Hp; [|done]. simpl.
    destruct (World.Player_pause currentTime p) as [p'|] eqn:Hpause; [|done]. simpl.
    destruct (Player_pause_alive _ _ _ Hpause) as (r & Hr & Hd).
    destruct (World.reader p') as [r'|]; [|done]. simpl. intros Hloop ref Hin.
    apply elem_of_cons in Hin as [->|Hin]; [by exists p, r|].
    destruct (IH _ _ Hloop ref Hin) as (p0 & r0 & H0 & ? & ?). simpl in H0.
    destruct (decide (ref = ref0)) as [->|Hne]; [by exists p, r|].
    rewrite list_lookup_insert_ne in H0 by done. by exists p0, r0.
Qed.

(** X2. [pauseAll] through a manager succeeds exactly when every listed
    player is alive (a destroyed player in the list makes it raise). When
    it succeeds, every listed player is left paused, the list and the
    unlisted players are as they were, and one poll is started for each
    listed player that is buffering and whose id is not the excepted one,
    in the order of the list. *)
Theorem pauseAll_pauses_every_player (currentTime : Q) (m : nat)
    (exceptId : option nat) (w : World.t)
    (Hm : is_Some (World.managers w !! m)) :
  (is_Some (World.pauseAll currentTime m exceptId w)
   ↔ ∀ ref, ref ∈ World.players w → alive_at ref w)
  ∧ ∀ w', World.pauseAll currentTime m exceptId w = Some w' →
      (∀ ref, ref ∈ World.players w → paused_at ref w' ∧ alive_at ref w')
      ∧ World.players w' = World.players w
      ∧ World.polls w'
        = World.polls w
          ++ filter (λ ref, needs_poll exceptId w ref = true) (World.players w)
      ∧ (∀ ref, ref ∉ World.players w → World.heap w' !! ref = World.heap w !! ref).
Proof.
  destruct Hm as [manager Hm]. unfold World.pauseAll, World.players_of.
  rewrite Hm. simpl. split.
  - split.
    + intros [w' Hloop]. by eapply pauseAll_loop_alive.
    + intros Halive.
      destruct (pauseAll_loop_total currentTime exceptId _ w Halive) as (w' & -> & _).
      by eexists.
  - intros w' Hloop.
    pose proof (pauseAll_loop_alive _ _ _ _ _ Hloop) as Halive.
    destruct (pauseAll_loop_total currentTime exceptId _ w Halive)
      as (w'' & Hloop' & Hplayers & _ & Hpolls & Halive' & Hother).
    rewrite Hloop in Hloop'. injection Hloop' as <-.
    split; [|by repeat split]. intros ref Hin. split; [|by apply Halive', Halive].
    by apply (pauseAll_loop_pauses _ _ ref _ _ _ Hloop).
Qed.

Lemma pauseAll_pauses_every_player_witness :
  is_Some (World.managers Samples.addedTwice !! 1)
  ∧ ∃ w',
      World.pauseAll 1%Q 1 (Some 1) Samples.addedTwice = Some w'
      ∧ paused_at 0 w' ∧ paused_at 1 w'
      ∧ World.polls w' = [0].
Proof.
  assert (Hm : is_Some (World.managers Samples.addedTwice !! 1)) by (by eexists).
  split; [exact Hm|].
  destruct (pauseAll_pauses_every_player 1%Q 1 (Some 1) Samples.addedTwice Hm)
    as [Hiff Hspec].
  assert (Hw' : ∃ w', World.pauseAll 1%Q 1 (Some 1) Samples.addedTwice = Some w')
    by (eexists; vm_compute; reflexivity).
  destruct Hw' as [w' Hw']. exists w'. split; [exact Hw'|].
  destruct (Hspec w' Hw') as (Hpaused & _ & Hpolls & _).
  split; [exact (proj1 (Hpaused 0 ltac:(by left)))|].
  split; [exact (proj1 (Hpaused 1 ltac:(right; by left)))|].
  rewrite Hpolls. reflexivity.
Defined.

(** ** Destroying the unused players *)

Lemma Player_destroy_total p r :
  World.reader p = Some r → Reader.destroyed r = false →
  is_Some (World.Player_destroy p).
Proof.
  intros Hr Hd. unfold World.Player_destroy, Reader.destroy, Reader.queue_empty.
  rewrite Hr. simpl. rewrite Hd, empty_total. by eexists.
Qed.

Lemma destroyUnused_loop_total n : ∀ w,
  NoDup (World.players w) →
  (∀ ref, ref ∈ World.players w → alive_at ref w) →
  length (World.players w) ≤ S n →
  ∃ w',
    World.destroyUnused_loop n w = Some w'
    ∧ World.managers w' = World.managers w
    ∧ (∀ ref, last (World.players w) = Some ref →
              World.heap w' !! ref = World.heap w !! ref)
    ∧ (∀ ref, ref ∉ World.players w → World.heap w' !! ref = World.heap w !! ref).
Proof.
  induction n as [|n IH]; intros w Hnodup Halive Hlen.
  - exists w. simpl. destruct (World.players w) as [|ref0 [|ref1 refs]];
      [by repeat split..|simpl in Hlen; lia].
  - simpl. destruct (World.players w) as [|ref0 [|ref1 refs]] eqn:Hps;
      [exists w; by repeat split..|].
    destruct (Halive ref0) as (p & r & Hp & Hr & Hd); [by left|].
    rewrite Hp. simpl. destruct (Player_destroy_total p r Hr Hd) as [p' Hp'].
    rewrite Hp'. simpl. set (w1 := World.Build_t _ _ _ _).
    apply NoDup_cons in Hnodup as [Hnotin Hnodup].
    destruct (IH w1) as (w' & -> & Hmanagers & Hlast & Hother); [done|..].
    { intros ref Hin. destruct (Halive ref) as (p0 & r0 & H0 & ? & ?); [by right|].
      exists p0, r0. split; [|done]. simpl. rewrite list_lookup_insert_ne; [done|].
      by intros <-. }
    { simpl in *. lia. }
    exists w'. split; [done|]. split; [done|]. split.
    + intros ref Href. rewrite Hlast by done. simpl.
      rewrite list_lookup_insert_ne; [done|]. intros <-. apply Hnotin.
      change (last (ref0 :: ref1 :: refs)) with (last (ref1 :: refs)) in Href.
      rewrite last_lookup in Href. by eapply list_elem_of_lookup_2.
    + intros ref Hnot. rewrite Hother by (intros Hin; apply Hnot; by right).
      simpl. rewrite list_lookup_insert_ne; [done|]. intros <-. apply Hnot. by left.
Qed.

(** X3. When the listed players are distinct and alive, [destroyUnused]
    through any manager does not raise: it destroys every listed player
    but the last, which it leaves untouched and alone in the list; the
    players that were not listed are untouched too. With at most one
    player listed it changes nothing. *)
Theorem destroyUnused_keeps_the_last (m : nat) (w : World.t)
    (Hm : is_Some (World.managers w !! m))
    (Hnodup : NoDup (World.players w))
    (Halive : ∀ ref, ref ∈ World.players w → alive_at ref w) :
  ∃ w',
    World.destroyUnused m w = Some w'
    ∧ World.players w' = option_list (last (World.players w))
    ∧ (∀ ref, last (World.players w) = Some ref →
              World.heap w' !! ref = World.heap w !! ref)
    ∧ (∀ ref, ref ∈ World.players w → last (World.players w) ≠ Some ref →
              destroyed_at ref w')
    ∧ (∀ ref, ref ∉ World.players w → World.heap w' !! ref = World.heap w !! ref)
    ∧ (length (World.players w) ≤ 1 → w' = w).
Proof.
  destruct Hm as [manager Hm]. unfold World.destroyUnused, World.players_of.
  rewrite Hm. simpl.
  destruct (destroyUnused_loop_total (length (World.players w)) w Hnodup Halive)
    as (w' & Hloop & _ & Hlast & Hother); [lia|].
  exists w'. split; [done|].
  destruct (destroyUnused_loop_spec _ _ _ Hloop) as (_ & Hearlier & Hplayers).
  split; [apply Hplayers; lia|]. split; [done|]. split; [|split; [done|]].
  - intros ref Hin Hnotlast. apply list_elem_of_lookup in Hin as [i Hi].
    apply (Hearlier i ref Hi).
    pose proof (lookup_lt_Some _ _ _ Hi) as Hlt.
    destruct (decide (S i = length (World.players w))) as [Heq|]; [|lia].
    exfalso. apply Hnotlast. rewrite last_lookup, <- Heq. done.
  - intros Hshort. revert Hloop. clear -Hshort.
    destruct (World.players w) as [|ref0 [|ref1 refs]] eqn:Hps;
      [| |simpl in Hshort; lia].
    + simpl. rewrite Hps. by intros [= <-].
    + simpl. rewrite Hps. by intros [= <-].
Qed.

Lemma destroyUnused_keeps_the_last_witness :
  is_Some (World.managers Samples.addedTwice !! 1)
  ∧ NoDup (World.players Samples.addedTwice)
  ∧ (∀ ref, ref ∈ World.players Samples.addedTwice → alive_at ref Samples.addedTwice)
  ∧ ∃ w',
      World.destroyUnused 1 Samples.addedTwice = Some w'
      ∧ World.players w' = [1]
      ∧ destroyed_at 0 w'
      ∧ World.heap w' !! 1 = World.heap Samples.addedTwice !! 1.
Proof.
  assert (H1 : is_Some (World.managers Samples.addedTwice !! 1)) by (by eexists).
  assert (H2 : NoDup (World.players Samples.addedTwice)).
  { apply NoDup_cons. split; [|apply NoDup_singleton].
    intros Hin. apply list_elem_of_In in Hin. simpl in Hin.
    destruct Hin as [Hin|[]]. discriminate Hin. }
  assert (H3 : ∀ ref, ref ∈ World.players Samples.addedTwice
                      → alive_at ref Samples.addedTwice).
  { intros ref Hin. apply list_elem_of_In in Hin. simpl in Hin.
    destruct Hin as [<-|[<-|[]]]; eexists _, _; by repeat split. }
  split; [exact H1|]. split; [exact H2|]. split; [exact H3|].
  destruct (destroyUnused_keeps_the_last 1 Samples.addedTwice H1 H2 H3)
    as (w' & Hw' & Hplayers & Hlast & Hdestroyed & _).
  exists w'. split; [exact Hw'|]. split; [exact Hplayers|].
  split; [apply Hdestroyed; [by left|discriminate]|]. by apply Hlast.
Defined.

(** X4. A new player's id is the length of the shared list when it is
    added. So once [destroyUnused] has left the last player alone in the
    list, the next player added through any manager gets the id 1,
    whatever ids exist: it is the survivor's id too when the survivor
    was the second player of its list. Ids do not tell players apart. *)
Theorem ids_repeat_after_destroyUnused (m : nat) (w : World.t) (survivor : nat)
    (Hm : is_Some (World.managers w !! m))
    (Hnodup : NoDup (World.players w))
    (Halive : ∀ ref, ref ∈ World.players w → alive_at ref w)
    (Hlast : last (World.players w) = Some survivor) :
  ∃ w1,
    World.destroyUnused m w = Some w1
    ∧ World.players w1 = [survivor]
    ∧ ∀ m' w2 ref, World.add m' w1 = Some (w2, ref) →
        World.players w2 = [survivor; ref]
        ∧ ∃ p, World.heap w2 !! ref = Some p ∧ World.id p = 1
               ∧ ∀ p0, World.heap w !! survivor = Some p0 → World.id p0 = 1 →
                       World.heap w2 !! survivor = Some p0
                       ∧ World.id p0 = World.id p.
Proof.
  destruct Hm as [manager Hm]. unfold World.destroyUnused, World.players_of.
  rewrite Hm. simpl.
  destruct (destroyUnused_loop_total (length (World.players w)) w Hnodup Halive)
    as (w1 & Hloop & _ & Hkept & _); [lia|].
  exists w1. split; [done|].
  destruct (destroyUnused_loop_spec _ _ _ Hloop) as (_ & _ & Hplayers).
  rewrite Hlast in Hplayers. specialize (Hplayers ltac:(lia)). simpl in Hplayers.
  split; [done|]. intros m' w2 ref. unfold World.add, World.players_of.
  destruct (World.managers w1 !! m'); [|done]. simpl. intros [= <- <-]. simpl.
  rewrite Hplayers. split; [done|].
  eexists. split; [by rewrite lookup_app_r, Nat.sub_diag by lia|]. split; [done|].
  intros p0 Hp0 Hid. split; [|done]. rewrite <- (Hkept _ Hlast) in Hp0.
  rewrite lookup_app_l; [done|]. by eapply lookup_lt_Some.
Qed.

Lemma ids_repeat_after_destroyUnused_witness :
  is_Some (World.managers Samples.addedTwice !! 1)
  ∧ NoDup (World.players Samples.addedTwice)
  ∧ (∀ ref, ref ∈ World.players Samples.addedTwice → alive_at ref Samples.addedTwice)
  ∧ last (World.players Samples.addedTwice) = Some 1
  ∧ ∃ w1 w2 p p0,
      World.destroyUnused 1 Samples.addedTwice = Some w1
      ∧ World.add 0 w1 = Some (w2, 2)
      ∧ World.players w2 = [1; 2]
      ∧ World.heap w2 !! 1 = Some p0 ∧ World.heap w2 !! 2 = Some p
      ∧ World.id p0 = 1 ∧ World.id p = 1.
Proof.
  assert (H1 : is_Some (World.managers Samples.addedTwice !! 1)) by (by eexists).
  assert (H2 : NoDup (World.players Samples.addedTwice)).
  { apply NoDup_cons. split; [|apply NoDup_singleton].
    intros Hin. apply list_elem_of_In in Hin. simpl in Hin.
    destruct Hin as [Hin|[]]. discriminate Hin. }
  assert (H3 : ∀ ref, ref ∈ World.players Samples.addedTwice
                      → alive_at ref Samples.addedTwice).
  { intros ref Hin. apply list_elem_of_In in Hin. simpl in Hin.
    destruct Hin as [<-|[<-|[]]]; eexists _, _; by repeat split. }
  assert (H4 : last (World.players Samples.addedTwice) = Some 1) by reflexivity.
  split; [exact H1|]. split; [exact H2|]. split; [exact H3|]. split; [exact H4|].
  destruct (ids_repeat_after_destroyUnused 1 Samples.addedTwice 1 H1 H2 H3 H4)
    as (w1 & Hw1 & Hplayers & Hadd).
  assert (Hw2 : ∃ w2, World.add 0 w1 = Some (w2, 2)).
  { unfold World.add, World.players_of.
    assert (Hmanagers : World.managers w1 !! 0 = Some Manager.new_
                        ∧ length (World.heap w1) = 2).
    { revert Hw1. vm_compute. intros [= <-]. by split. }
    destruct Hmanagers as [-> Hheap]. simpl. rewrite Hheap. by eexists. }
  destruct Hw2 as (w2 & Hw2).
  destruct (Hadd 0 w2 2 Hw2) as (Hplayers2 & p & Hp & Hid & Hsame).
  destruct (Hsame _ eq_refl eq_refl) as (Hp0 & Hid0).
  eexists w1, w2, p, _. split; [exact Hw1|]. split; [exact Hw2|].
  split; [exact Hplayers2|]. split; [exact Hp0|]. split; [exact Hp|].
  split; [reflexivity|exact Hid].
Defined.

(** ** Seeks at the edges *)

Lemma seek_prefix currentTime time r :
  Reader.destroyed r = false → Reader.fragments r ≠ [] →
  ∃ r1 paused,
    Reader.seek currentTime time r
    = Reader.loadFragment
        (Reader.seekLoaded currentTime (Reader.getFragmentNumber time)
           (js_rem time FRAGMENT_DURATION))
        (Reader.SeekLoaded (Reader.getFragmentNumber time) (js_rem time FRAGMENT_DURATION))
        (Reader.getFragmentNumber time) r1
    ∧ Reader.currentFragmentNumber r1 = Reader.getFragmentNumber time
    ∧ Reader.queue r1
      = SourceQueue.set_sources [] (SourceQueue.pause currentTime (Reader.queue r)).1
    ∧ Reader.buffering r1 = true
    ∧ Reader.destroyed r1 = false
    ∧ Reader.fragments r1 = Reader.fragments r
    ∧ Reader.requests r1 = Reader.requests r
    ∧ Reader.log r1 = Reader.log r ++ paused ++ [Reader.Player onBufferingStart]
    ∧ (paused = [] ∨ paused = [Reader.Player onPause])
    ∧ Reader.seekCalls r1 = Reader.seekCalls r.
Proof.
  intros Halive Hmetadata. unfold Reader.seek.
  rewrite bool_decide_eq_false_2 by (simpl; by destruct (Reader.fragments r)).
  unfold Reader.seek_setup.
  destruct (queue_pause_spec currentTime
              (Reader.set_currentFragmentNumber (Reader.getFragmentNumber time)
                 (Reader.set_jumped true r)))
    as (rp & paused & -> & Hq & Hlog & Hpaused & Hcalls & Hf); [done|].
  destruct Hf as (Hfr & Hc & _ & _ & Hd & Hreq & _).
  simpl in Hq, Hlog, Hfr, Hc, Hd, Hreq, Hcalls.
  simpl. unfold Reader.notify, Reader.queue_empty. simpl. rewrite Hd, Halive. simpl.
  rewrite Hd, Halive, empty_total. simpl.
  eexists _, paused. split; [done|]. simpl. rewrite Hq, Hlog, <- app_assoc.
  repeat split; try done. by rewrite Hd.
Qed.

(** X5. A seek to a time at or past the end of the last fragment (the
    target number is not below [fragments.length]) pauses and empties
    the queue and raises the buffering flag, and then loads nothing: no
    request is sent and nothing is left to lower the flag, so [state()]
    answers [STATE_BUFFERING]. A [play()] after it sets the empty queue
    playing and [state()] still answers [STATE_BUFFERING]. *)
Theorem seek_past_the_end (currentTime time : Q) (r : Reader.t)
    (Halive : Reader.destroyed r = false)
    (Hmetadata : Reader.fragments r ≠ [])
    (Hpast : (Z.of_nat (length (Reader.fragments r)) ≤ Reader.getFragmentNumber time)%Z) :
  ∃ r' paused,
    Reader.seek currentTime time r = Some r'
    ∧ Reader.state r' = Some STATE_BUFFERING
    ∧ Reader.currentFragmentNumber r' = Reader.getFragmentNumber time
    ∧ SourceQueue.state (Reader.queue r') = STATE_PAUSED
    ∧ SourceQueue.sources (Reader.queue r') = []
    ∧ Reader.requests r' = Reader.requests r
    ∧ Reader.log r' = Reader.log r ++ paused ++ [Reader.Player onBufferingStart]
    ∧ (paused = [] ∨ paused = [Reader.Player onPause])
    ∧ ∀ now, ∃ r'',
        Reader.queue_play now r' = Some r''
        ∧ SourceQueue.state (Reader.queue r'') = STATE_PLAYING
        ∧ SourceQueue.sources (Reader.queue r'') = []
        ∧ Reader.state r'' = Some STATE_BUFFERING
        ∧ Reader.requests r'' = Reader.requests r.
Proof.
  destruct (seek_prefix currentTime time r Halive Hmetadata)
    as (r1 & paused & -> & Hc & Hq & Hb & Hd & Hfr & Hreq & Hlog & Hpaused & Hcalls).
  rewrite loadFragment_past_end by (by rewrite Hfr).
  exists r1, paused. split; [done|]. unfold Reader.state. rewrite Hb.
  split; [done|]. split; [done|]. rewrite Hq. simpl.
  split; [apply pause_state|]. split; [done|]. split; [done|]. split; [done|].
  split; [done|]. intros now. unfold Reader.queue_play. rewrite Hd, Hq.
  rewrite (play_paused_empty now _ (pause_state currentTime (Reader.queue r) : SourceQueue.state (SourceQueue.set_sources [] _) = _) eq_refl). simpl.
  eexists. split; [done|]. simpl. by rewrite Hb.
Qed.

Lemma seek_past_the_end_witness :
  Reader.destroyed (Session.reader Samples.later) = false
  ∧ Reader.fragments (Session.reader Samples.later) ≠ []
  ∧ (Z.of_nat (length (Reader.fragments (Session.reader Samples.later)))
     ≤ Reader.getFragmentNumber 60)%Z
  ∧ ∃ r',
      Reader.seek 1%Q 60%Q (Session.reader Samples.later) = Some r'
      ∧ Reader.state r' = Some STATE_BUFFERING
      ∧ Reader.requests r' = [].
Proof.
  assert (H2 : Reader.fragments (Session.reader Samples.later) ≠ []) by discriminate.
  assert (H3 : (Z.of_nat (length (Reader.fragments (Session.reader Samples.later)))
                ≤ Reader.getFragmentNumber 60)%Z) by (vm_compute; discriminate).
  split; [reflexivity|]. split; [exact H2|]. split; [exact H3|].
  destruct (seek_past_the_end 1%Q 60%Q (Session.reader Samples.later) eq_refl H2 H3)
    as (r' & paused & Hseek & Hstate & _ & _ & _ & Hrequests & _).
  exists r'. split; [exact Hseek|]. split; [exact Hstate|exact Hrequests].
Defined.

Lemma getFragmentNumber_negative time :
  (time < 0)%Q → (Reader.getFragmentNumber time < 0)%Z.
Proof.
  intros Htime. unfold Reader.getFragmentNumber, Math_floor, FRAGMENT_DURATION.
  pose proof (Qfloor_le (time / 15)) as Hle.
  destruct (Z_lt_le_dec (Qfloor (time / 15)) 0) as [|Hge]; [done|].
  exfalso. rewrite Zle_Qle in Hge.
  assert (Htimes : (time == time / 15 * 15)%Q) by (field; discriminate).
  change (inject_Z 0) with 0%Q in Hge.
  set (x := (time / 15)%Q) in *. set (n := inject_Z (Qfloor x)) in *. lra.
Qed.

(** X6. A seek to a negative time raises: the target number is
    negative, [fragments[number]] is [undefined] and reading its buffer
    fails. By then the method has set [currentFragmentNumber] to that
    negative number, paused and emptied the queue and raised the
    buffering flag. *)
Theorem seek_negative_raises (currentTime time : Q) (r : Reader.t)
    (Htime : (time < 0)%Q)
    (Halive : Reader.destroyed r = false)
    (Hmetadata : Reader.fragments r ≠ []) :
  Reader.seek currentTime time r = None
  ∧ ∃ r1,
      Reader.seek currentTime time r
      = Reader.loadFragment
          (Reader.seekLoaded currentTime (Reader.getFragmentNumber time)
             (js_rem time FRAGMENT_DURATION))
          (Reader.SeekLoaded (Reader.getFragmentNumber time) (js_rem time FRAGMENT_DURATION))
          (Reader.getFragmentNumber time) r1
      ∧ (Reader.currentFragmentNumber r1 < 0)%Z
      ∧ SourceQueue.state (Reader.queue r1) = STATE_PAUSED
      ∧ SourceQueue.sources (Reader.queue r1) = []
      ∧ Reader.buffering r1 = true.
Proof.
  pose proof (getFragmentNumber_negative time Htime) as Hneg.
  destruct (seek_prefix currentTime time r Halive Hmetadata)
    as (r1 & paused & Hseek & Hc & Hq & Hb & Hd & Hfr & Hreq & Hlog & Hpaused & Hcalls).
  split.
  - rewrite Hseek. unfold Reader.loadFragment, Reader.isFragmentLoaded, lookupZ.
    rewrite bool_decide_eq_false_2 by lia. by rewrite bool_decide_eq_false_2 by lia.
  - exists r1. split; [done|]. rewrite Hc, Hq. simpl.
    split; [done|]. split; [apply pause_state|]. by split.
Qed.

Lemma seek_negative_raises_witness :
  (-1 < 0)%Q
  ∧ Reader.destroyed (Session.reader Samples.later) = false
  ∧ Reader.fragments (Session.reader Samples.later) ≠ []
  ∧ Reader.seek 1%Q (-1)%Q (Session.reader Samples.later) = None.
Proof.
  assert (H1 : (-1 < 0)%Q) by reflexivity.
  assert (H3 : Reader.fragments (Session.reader Samples.later) ≠ []) by discriminate.
  split; [exact H1|]. split; [reflexivity|]. split; [exact H3|].
  exact (proj1 (seek_negative_raises 1%Q (-1)%Q (Session.reader Samples.later)
                  H1 eq_refl H3)).
Defined.

(** ** The end of the track *)



(** ** Seeking into memory, and playing again after the end *)

Lemma scheduleFragment_seekCalls currentTime number offset r r' :
  Reader.scheduleFragment currentTime number offset r = Some r' →
  Reader.seekCalls r' = Reader.seekCalls r.
Proof.
  unfold Reader.scheduleFragment. destruct (Reader.destroyed r); [done|].
  intros H. bind_inv H. bind_inv H. destruct x0. by injection H as <-.
Qed.

Lemma loadAndScheduleFragment_seekCalls currentTime number offset r r' :
  Reader.loadAndScheduleFragment currentTime number offset r = Some r' →
  Reader.seekCalls r' = Reader.seekCalls r.
Proof.
  unfold Reader.loadAndScheduleFragment, Reader.loadFragment.
  case_bool_decide as Hrange; [by intros [= <-]|]. intros H. bind_inv H. destruct x.
  - by apply scheduleFragment_seekCalls in H.
  - unfold Reader.fetchFragment in H. bind_inv H. by injection H as <-.
Qed.

Lemma seekLoaded_seekCalls currentTime number offset r r' :
  SourceQueue.state (Reader.queue r) = STATE_PAUSED →
  Reader.seekLoaded currentTime number offset r = Some r' →
  Reader.seekCalls r' = Reader.seekCalls r.
Proof.
  intros Hpaused. unfold Reader.seekLoaded. case_bool_decide as Hcfn; [by intros [= <-]|].
  unfold Reader.notify, Reader.queue_play. destruct (Reader.destroyed r) eqn:Hd; [done|].
  simpl. rewrite Hd. unfold SourceQueue.play. rewrite Hpaused. simpl.
  intros H. bind_inv H. simpl in H. bind_inv H.
  apply loadAndScheduleFragment_seekCalls in H.
  apply scheduleFragment_seekCalls in E0. rewrite H, E0.
  bind_inv E. destruct x1 as [q effects]. bind_inv E1. injection E1 as <- <-.
  by injection E as <-.
Qed.

Lemma seek_in_memory currentTime time r fragment audioBuffer :
  Reader.destroyed r = false →
  lookupZ (Reader.fragments r) (Reader.getFragmentNumber time) = Some fragment →
  Reader.buffer fragment = Some audioBuffer →
  ∃ r3 source rest,
    Reader.seek currentTime time r = Some r3
    ∧ Reader.currentFragmentNumber r3 = Reader.getFragmentNumber time
    ∧ Reader.buffering r3 = false
    ∧ Reader.destroyed r3 = false
    ∧ SourceQueue.state (Reader.queue r3) = STATE_PLAYING
    ∧ SourceQueue.latestElapsed (Reader.queue r3) = None
    ∧ SourceQueue.sources (Reader.queue r3) = source :: rest
    ∧ Source.number source = Some (Reader.getFragmentNumber time)
    ∧ Source.startsAt source = Some currentTime
    ∧ (Source.startsFrom source == js_rem time FRAGMENT_DURATION)%Q
    ∧ Reader.seekCalls r3 = Reader.seekCalls r.
Proof.
  intros Halive Hfragment Hbuffer.
  destruct (lookupZ_Some _ _ _ Hfragment) as [Hrange _].
  assert (Hmetadata : Reader.fragments r ≠ []).
  { intros Hnil. rewrite Hnil in Hrange. simpl in Hrange. lia. }
  destruct (seek_prefix currentTime time r Halive Hmetadata)
    as (r1 & paused & -> & Hc & Hq & Hb & Hd & Hfr & Hreq & Hlog & Hpaused & Hcalls).
  unfold Reader.loadFragment, Reader.isFragmentLoaded.
  rewrite Hfr, bool_decide_eq_false_2, Hfragment by lia. simpl.
  rewrite bool_decide_eq_true_2 by (rewrite Hbuffer; by eexists).
  assert (Hstate : SourceQueue.state (Reader.queue r1) = STATE_PAUSED).
  { rewrite Hq. apply pause_state. }
  destruct (seekLoaded_resolves currentTime (Reader.getFragmentNumber time)
              (js_rem time FRAGMENT_DURATION) r1 fragment audioBuffer)
    as (r3 & source & rest & Hloaded & H3); [done|done|done|by rewrite Hq|by rewrite Hfr|done|].
  exists r3, source, rest. split; [done|].
  apply seekLoaded_seekCalls in Hloaded; [|done]. rewrite Hloaded, Hcalls.
  destruct H3 as (? & ? & ? & ? & ? & ? & ? & ? & ?). by repeat split.
Qed.

(** X8. A seek to a time [t ≥ 0] whose fragment is already in memory
    completes within the call: the queue is emptied and plays again at
    once with that fragment at its head, started at the clock time of
    the call from offset [t mod 15]; the buffering flag is down, and
    [getCurrentTime()] at clock [c] is [t] plus the time since the
    call. *)
Theorem seek_to_a_loaded_fragment (currentTime time : Q) (r : Reader.t)
    (fragment : Reader.Fragment) (audioBuffer : AudioBuffer.t)
    (Htime : (0 <= time)%Q)
    (Halive : Reader.destroyed r = false)
    (Hfragment : lookupZ (Reader.fragments r) (Reader.getFragmentNumber time) = Some fragment)
    (Hbuffer : Reader.buffer fragment = Some audioBuffer) :
  ∃ r' source rest,
    Reader.seek currentTime time r = Some r'
    ∧ Reader.state r' = Some STATE_PLAYING
    ∧ Reader.currentFragmentNumber r' = Reader.getFragmentNumber time
    ∧ SourceQueue.sources (Reader.queue r') = source :: rest
    ∧ Source.number source = Some (Reader.getFragmentNumber time)
    ∧ Source.startsAt source = Some currentTime
    ∧ (Source.startsFrom source == js_rem time FRAGMENT_DURATION)%Q
    ∧ ∀ c, ∃ t, Reader.getCurrentTime c r' = Some t
                ∧ (t == time + (c - currentTime))%Q.
Proof.
  destruct (seek_in_memory currentTime time r fragment audioBuffer Halive Hfragment Hbuffer)
    as (r' & source & rest & Hseek & Hc & Hb & Hd & Hst & Hlatest & Hsrc & Hn & Hat & Hfrom & _).
  destruct (seek_split time Htime) as (_ & _ & _ & Hoffset & _ & _).
  exists r', source, rest. unfold Reader.state. rewrite Hb, Hd, Hst.
  repeat split; try done.
  intros c. unfold Reader.getCurrentTime. rewrite Hd. eexists. split; [done|].
  unfold SourceQueue.elapsed, Source.elapsed. rewrite Hlatest, Hsrc, Hat, Hc. simpl.
  rewrite Hfrom, Hoffset. unfold FRAGMENT_DURATION. ring.
Qed.

Lemma seek_to_a_loaded_fragment_witness :
  (0 <= 20)%Q
  ∧ Reader.destroyed (Session.reader Samples.later) = false
  ∧ ∃ fragment audioBuffer r',
      lookupZ (Reader.fragments (Session.reader Samples.later))
        (Reader.getFragmentNumber 20) = Some fragment
      ∧ Reader.buffer fragment = Some audioBuffer
      ∧ Reader.seek 1%Q 20%Q (Session.reader Samples.later) = Some r'
      ∧ Reader.state r' = Some STATE_PLAYING
      ∧ ∃ t, Reader.getCurrentTime 3%Q r' = Some t ∧ (t == 22)%Q.
Proof.
  assert (H1 : (0 <= 20)%Q) by discriminate.
  split; [exact H1|]. split; [reflexivity|].
  destruct (seek_to_a_loaded_fragment 1%Q 20%Q (Session.reader Samples.later)
              _ Samples.full H1 eq_refl eq_refl eq_refl)
    as (r' & source & rest & Hseek & Hstate & _ & _ & _ & _ & _ & Htime).
  destruct (Htime 3%Q) as (t & Ht & Heq).
  eexists _, Samples.full, r'. split; [reflexivity|]. split; [reflexivity|].
  split; [exact Hseek|]. split; [exact Hstate|].
  exists t. split; [exact Ht|]. rewrite Heq. reflexivity.
Defined.

(** X9. [play()] on a player that has finished does not touch the
    reader: it only calls the debounced [setCurrentTime(0)]. Nothing
    happens until the debounce delay has passed; then the seek to 0
    runs, and when fragment 0 is still in memory the player is playing
    again within that step, from the start: fragment 0 is at the head
    of the queue with offset 0 and [getCurrentTime()] counts from 0. *)
Theorem play_after_finish_restarts (s : Session.t)
    (fragment : Reader.Fragment) (audioBuffer : AudioBuffer.t)
    (Halive : Reader.destroyed (Session.reader s) = false)
    (Hfinished : SourceQueue.state (Reader.queue (Session.reader s)) = STATE_FINISHED)
    (Hcalls : Reader.seekCalls (Session.reader s) = [])
    (Hfragment : lookupZ (Reader.fragments (Session.reader s)) 0 = Some fragment)
    (Hbuffer : Reader.buffer fragment = Some audioBuffer) :
  ∃ s1,
    Session.step Session.Play s = Some s1
    ∧ Session.reader s1 = Session.reader s
    ∧ Session.wall s1 = Session.wall s
    ∧ Session.currentTime s1 = Session.currentTime s
    ∧ Debounce.pending (Session.setCurrentTime s1) = Some (Session.wall s, 0%Q)
    ∧ (∀ ms seconds,
         (0 <= ms)%Q → (0 <= seconds)%Q →
         (ms < Debounce.wait (Session.setCurrentTime s))%Q →
         ∃ s2, Session.step (Session.Elapse ms seconds) s1 = Some s2
               ∧ Session.reader s2 = Session.reader s)
    ∧ ∀ ms seconds,
        (0 <= seconds)%Q → (0 <= ms)%Q →
        (Debounce.wait (Session.setCurrentTime s) <= ms)%Q →
        ∃ s2 source rest,
          Session.step (Session.Elapse ms seconds) s1 = Some s2
          ∧ Debounce.pending (Session.setCurrentTime s2) = None
          ∧ Reader.state (Session.reader s2) = Some STATE_PLAYING
          ∧ Reader.currentFragmentNumber (Session.reader s2) = 0%Z
          ∧ SourceQueue.sources (Reader.queue (Session.reader s2)) = source :: rest
          ∧ Source.number source = Some 0%Z
          ∧ Source.startsAt source = Some (Session.currentTime s + seconds)%Q
          ∧ (Source.startsFrom source == 0)%Q
          ∧ ∀ c, ∃ t, Reader.getCurrentTime c (Session.reader s2) = Some t
                      ∧ (t == c - (Session.currentTime s + seconds))%Q.
Proof.
  destruct s as [r w c d request]. simpl in *.
  assert (Hplay : Session.step Session.Play
                    {| Session.reader := r; Session.wall := w; Session.currentTime := c;
                       Session.setCurrentTime := d; Session.metadataRequest := request |}
                  = Some {| Session.reader := r; Session.wall := w; Session.currentTime := c;
                            Session.setCurrentTime := Debounce.call w 0%Q d;
                            Session.metadataRequest := request |}).
  { destruct r as [fragments [st srcs latest] cfn buffering duration jumped interval
                     destroyed waiting requests calls log].
    simpl in *. subst st destroyed calls. reflexivity. }
  eexists. split; [exact Hplay|]. simpl.
  split; [done|]. split; [done|]. split; [done|]. split; [done|]. split.
  - intros ms seconds Hms Hseconds Hearly. unfold Session.step.
    rewrite (Qle_bool_true 0 ms), (Qle_bool_true 0 seconds) by done. simpl.
    unfold Debounce.due. simpl. rewrite Qle_bool_false by lra. by eexists.
  - intros ms seconds Hseconds Hms Hlate. unfold Session.step.
    rewrite (Qle_bool_true 0 ms), (Qle_bool_true 0 seconds) by done. simpl.
    unfold Debounce.due. simpl. rewrite Qle_bool_true by lra.
    unfold Session.run. simpl.
    destruct (seek_in_memory (c + seconds) 0 r fragment audioBuffer Halive Hfragment Hbuffer)
      as (r' & source & rest & -> & Hc & Hb & Hd & Hst & Hlatest & Hsrc & Hn & Hat & Hfrom & Hnone).
    simpl. exists (Session.deliver
                     {| Session.reader := r'; Session.wall := (w + ms)%Q;
                        Session.currentTime := (c + seconds)%Q;
                        Session.setCurrentTime := Debounce.clear (Debounce.call w 0%Q d);
                        Session.metadataRequest := request |}), source, rest.
    split; [done|]. unfold Session.deliver. simpl.
    rewrite Hnone. simpl. unfold Reader.state, Reader.getCurrentTime. simpl.
    rewrite Hb, Hd, Hst, Hc, Hsrc.
    assert (Hzero : Reader.getFragmentNumber 0 = 0%Z) by reflexivity.
    rewrite Hzero in *. rewrite Hcalls. repeat split; try done.
    intros c'. eexists. split; [done|].
    unfold SourceQueue.elapsed, Source.elapsed. rewrite Hlatest, Hsrc, Hat. simpl.
    rewrite Hfrom.
    assert (Hrem : (js_rem 0 FRAGMENT_DURATION == 0)%Q) by reflexivity.
    rewrite Hrem. unfold FRAGMENT_DURATION. change (inject_Z 0) with 0%Q. ring.
Qed.

Lemma play_after_finish_restarts_witness :
  Reader.destroyed (Session.reader Samples.finished) = false
  ∧ SourceQueue.state (Reader.queue (Session.reader Samples.finished)) = STATE_FINISHED
  ∧ Reader.seekCalls (Session.reader Samples.finished) = []
  ∧ ∃ fragment s1 s2,
      lookupZ (Reader.fragments (Session.reader Samples.finished)) 0 = Some fragment
      ∧ Reader.buffer fragment = Some Samples.full
      ∧ Session.step Session.Play Samples.finished = Some s1
      ∧ Session.reader s1 = Session.reader Samples.finished
      ∧ Session.step (Session.Elapse 300%Q (3 # 10)%Q) s1 = Some s2
      ∧ Reader.state (Session.reader s2) = Some STATE_PLAYING.
Proof.
  split; [reflexivity|]. split; [reflexivity|]. split; [reflexivity|].
  destruct (play_after_finish_restarts Samples.finished _ Samples.full
              eq_refl eq_refl eq_refl eq_refl eq_refl)
    as (s1 & Hplay & Hreader & _ & _ & _ & _ & Hlate).
  destruct (Hlate 300%Q (3 # 10)%Q) as (s2 & _ & _ & Hstep & _ & Hstate & _);
    [discriminate|discriminate|vm_compute; discriminate|].
  eexists _, s1, s2. split; [reflexivity|]. split; [reflexivity|].
  split; [exact Hplay|]. split; [exact Hreader|]. split; [exact Hstep|exact Hstate].
Defined.

(** ** A player that has not been destroyed *)

Lemma sound_source_static count s s' :
  static s' = static s → sound_source count s → sound_source count s'.
Proof.
  intros Hstatic. destruct (static_eq _ _ Hstatic) as (Hb & Hn & _ & Hc).
  unfold sound_source. by rewrite Hb, Hn, Hc.
Qed.

Lemma sound_source_cancel count s :
  sound_source count s → sound_source count (Source.cancel s).
Proof. by apply sound_source_static. Qed.

Lemma pause_sound_sources count currentTime q :
  Forall (sound_source count) (SourceQueue.sources q) →
  Forall (sound_source count) (SourceQueue.sources (SourceQueue.pause currentTime q).1).
Proof.
  intros Hq. unfold SourceQueue.pause. case_bool_decide as Hp; [done|].
  destruct q as [st [|head rest] latest]; simpl in *; [done|].
  apply Forall_cons in Hq as [Hhead Hrest]. apply Forall_cons. split.
  - exact Hhead.
  - apply Forall_fmap. eapply Forall_impl; [exact Hrest|]. intros s. apply sound_source_cancel.
Qed.

Lemma play_sound_sources count currentTime q :
  Forall (sound_source count) (SourceQueue.sources q) →
  ∃ q' effects,
    SourceQueue.play currentTime q = Some (q', effects)
    ∧ Forall (sound_source count) (SourceQueue.sources q')
    ∧ (effects = [] ∨ effects = [SourceQueue.SetCurrentTime 0%Q]
       ∨ effects = [SourceQueue.SetInterval 500; SourceQueue.Callback onPlay]).
Proof.
  intros Hq. unfold SourceQueue.play.
  case_bool_decide as Hp; [exists q, []; by auto|].
  case_bool_decide as Hf; [exists q, [SourceQueue.SetCurrentTime 0%Q]; by auto|]. simpl.
  destruct (play_loop_total currentTime (length (SourceQueue.sources q)) 0
              (SourceQueue.sources q)) as [out Hloop]; [done| |].
  { intros k s Hk. by destruct (proj1 (Forall_lookup _ _) Hq k s Hk). }
  rewrite Hloop. simpl. eexists _, _. split; [done|]. split; [|by auto].
  simpl. destruct (play_loop_spec _ _ _ _ _ Hloop) as (_ & Hlen & Hstatic & _); [done| |].
  { split; intros; lia. }
  apply Forall_lookup. intros k s Hk. specialize (Hstatic k). rewrite Hk in Hstatic.
  destruct (SourceQueue.sources q !! k) as [s0|] eqn:Hk0; simpl in Hstatic; [|done].
  apply (sound_source_static _ s0); [congruence|]. by apply (proj1 (Forall_lookup _ _) Hq k).
Qed.

Lemma sound_set_queue q r :
  sound r → Forall (sound_source (length (Reader.fragments r))) (SourceQueue.sources q) →
  sound (Reader.set_queue q r).
Proof. intros (? & ? & ? & ? & ?) Hq. by repeat split. Qed.

Lemma perform_sound effects : ∀ r,
  sound r →
  (effects = [] ∨ effects = [SourceQueue.SetCurrentTime 0%Q]
   ∨ effects = [SourceQueue.SetInterval 500; SourceQueue.Callback onPlay]
   ∨ effects = [SourceQueue.ClearInterval; SourceQueue.Callback onPause]) →
  sound (foldl Reader.perform r effects)
  ∧ Reader.fragments (foldl Reader.perform r effects) = Reader.fragments r.
Proof.
  intros r (Hd & Hs & Hr & Hw & Hc) [-> | [-> | [-> | ->]]]; simpl; try done.
  split; [|done]. repeat split; try done. simpl.
  apply Forall_app. split; [done|]. by apply Forall_singleton.
Qed.

Lemma notify_safe e : safe (λ _, True) (Reader.notify e).
Proof.
  intros r Hr _. unfold Reader.notify. rewrite (proj1 Hr). eexists. split; [done|].
  by destruct Hr as (? & ? & ? & ? & ?).
Qed.

Lemma queue_pause_safe currentTime : safe (λ _, True) (Reader.queue_pause currentTime).
Proof.
  intros r Hr _. unfold Reader.queue_pause. rewrite (proj1 Hr).
  pose proof (pause_sound_sources _ currentTime _ (proj1 (proj2 Hr))) as Hq.
  assert (Heffects : (SourceQueue.pause currentTime (Reader.queue r)).2 = []
                     ∨ (SourceQueue.pause currentTime (Reader.queue r)).2
                       = [SourceQueue.ClearInterval; SourceQueue.Callback onPause]).
  { unfold SourceQueue.pause. case_bool_decide; [by left|by right]. }
  destruct (SourceQueue.pause _ _) as [q effects]. simpl in *.
  eexists. split; [done|].
  destruct (perform_sound effects (Reader.set_queue q r)) as [Hs Hf];
    [by apply sound_set_queue|destruct Heffects; by auto|]. by split.
Qed.

Lemma queue_play_safe currentTime : safe (λ _, True) (Reader.queue_play currentTime).
Proof.
  intros r Hr _. unfold Reader.queue_play. rewrite (proj1 Hr).
  destruct (play_sound_sources _ currentTime _ (proj1 (proj2 Hr)))
    as (q & effects & -> & Hq & Heffects). simpl.
  eexists. split; [done|].
  destruct (perform_sound effects (Reader.set_queue q r)) as [Hs Hf];
    [by apply sound_set_queue|destruct Heffects as [? | [? | ?]]; by auto|]. by split.
Qed.

Lemma queue_empty_safe : safe (λ _, True) Reader.queue_empty.
Proof.
  intros r Hr _. unfold Reader.queue_empty. rewrite (proj1 Hr), empty_total. simpl.
  eexists. split; [done|]. split; [|done]. by apply sound_set_queue.
Qed.

Lemma scheduleFragment_safe currentTime number offset :
  safe (in_memory number) (Reader.scheduleFragment currentTime number offset).
Proof.
  intros r Hr (fragment & Hfragment & audioBuffer & Hbuffer).
  destruct (scheduleFragment_spec currentTime number offset r fragment audioBuffer)
    as (r' & source & -> & Hsources & _ & _ & Hnumber & Hbuf & Hcallback & _ & _ & _ & Hcalls & Hf);
    [by apply Hr|done|done| |].
  { intros previous Hlast. apply last_Some in Hlast as [l Hl].
    destruct Hr as (_ & Hs & _). rewrite Hl in Hs.
    rewrite Forall_app, Forall_singleton in Hs. apply Hs. }
  destruct Hf as (Hfr & _ & _ & _ & Hd & Hreq & Hw).
  destruct Hr as (Halive & Hs & Hr & Hwait & Hc).
  exists r'. split; [done|]. split; [|done]. unfold sound.
  rewrite Hd, Hsources, Hfr, Hreq, Hw, Hcalls. repeat split; try done.
  apply Forall_app. split; [done|]. apply Forall_singleton. split; [by rewrite Hbuf|].
  exists number. repeat split; try done; by destruct (lookupZ_Some _ _ _ Hfragment) as [? _]; lia.
Qed.

Lemma loadAndScheduleFragment_safe currentTime number offset :
  safe (λ _, (0 ≤ number)%Z) (Reader.loadAndScheduleFragment currentTime number offset).
Proof.
  intros r Hr Hnumber. unfold Reader.loadAndScheduleFragment, Reader.loadFragment.
  case_bool_decide as Hrange; [by exists r|].
  unfold Reader.isFragmentLoaded, Reader.fetchFragment.
  destruct (lookupZ (Reader.fragments r) number) as [fragment|] eqn:Hfragment.
  2:{ unfold lookupZ in Hfragment. rewrite bool_decide_eq_true_2 in Hfragment by done.
      apply lookup_ge_None in Hfragment. lia. }
  simpl. case_bool_decide as Hloaded.
  - apply scheduleFragment_safe; [done|]. by exists fragment.
  - eexists. split; [done|]. split; [|done].
    destruct Hr as (Halive & Hs & Hr & Hwait & Hc). repeat split; try done. simpl.
    apply Forall_app. split; [done|]. apply Forall_singleton. split; simpl; [lia|done].
Qed.

Lemma in_memory_range number r : in_memory number r → (0 ≤ number)%Z.
Proof. intros (fragment & Hfragment & _). destruct (lookupZ_Some _ _ _ Hfragment). lia. Qed.

Lemma seekLoaded_safe currentTime number offset :
  safe (in_memory number) (Reader.seekLoaded currentTime number offset).
Proof.
  intros r Hr Hmemory. unfold Reader.seekLoaded.
  case_bool_decide as Hcfn; [by exists r|].
  destruct (notify_safe onBufferingStop r Hr I) as (r1 & -> & Hr1 & Hf1). simpl.
  destruct (queue_play_safe currentTime (Reader.set_buffering false r1) Hr1 I)
    as (r2 & -> & Hr2 & Hf2). simpl in *.
  destruct (scheduleFragment_safe currentTime number (Some offset) r2 Hr2)
    as (r3 & -> & Hr3 & Hf3); [unfold in_memory; by rewrite Hf2, Hf1|]. simpl.
  destruct (loadAndScheduleFragment_safe currentTime (number + 1) None r3 Hr3)
    as (r4 & -> & Hr4 & Hf4); [apply in_memory_range in Hmemory; lia|].
  exists r4. split; [done|]. split; [done|]. congruence.
Qed.

Lemma initialLoaded_safe currentTime :
  safe (in_memory 0) (Reader.initialLoaded currentTime).
Proof.
  intros r Hr Hmemory. unfold Reader.initialLoaded.
  destruct (Reader.jumped r); [by exists r|].
  destruct (scheduleFragment_safe currentTime 0 (Some 0%Q) r Hr Hmemory)
    as (r1 & -> & Hr1 & Hf1). simpl.
  destruct (notify_safe onBufferingStop r1 Hr1 I) as (r2 & -> & Hr2 & Hf2). simpl.
  destruct (loadAndScheduleFragment_safe currentTime 1 None
              (Reader.set_buffering false r2) Hr2)
    as (r3 & -> & Hr3 & Hf3); [lia|].
  exists r3. split; [done|]. split; [done|]. simpl in *. congruence.
Qed.

Lemma runCallback_safe currentTime callback number :
  names callback number →
  safe (in_memory number) (Reader.runCallback currentTime callback).
Proof.
  destruct callback as [|n offset|n offset]; simpl; intros ->.
  - apply initialLoaded_safe.
  - apply scheduleFragment_safe.
  - apply seekLoaded_safe.
Qed.

Lemma loadFragment_safe now callback number :
  names callback number →
  safe (in_memory number) now →
  safe (λ _, (0 ≤ number)%Z) (Reader.loadFragment now callback number).
Proof.
  intros Hnames Hnow r Hr Hnumber. unfold Reader.loadFragment.
  case_bool_decide as Hrange; [by exists r|].
  unfold Reader.isFragmentLoaded, Reader.fetchFragment.
  destruct (lookupZ (Reader.fragments r) number) as [fragment|] eqn:Hfragment.
  2:{ unfold lookupZ in Hfragment. rewrite bool_decide_eq_true_2 in Hfragment by done.
      apply lookup_ge_None in Hfragment. lia. }
  simpl. case_bool_decide as Hloaded.
  - apply Hnow; [done|]. by exists fragment.
  - eexists. split; [done|]. split; [|done].
    destruct Hr as (Halive & Hs & Hr & Hwait & Hc). repeat split; try done. simpl.
    apply Forall_app. split; [done|]. apply Forall_singleton. split; simpl; [lia|done].
Qed.

Lemma seek_setup_safe currentTime time :
  safe (λ _, (0 <= time)%Q) (Reader.seek_setup currentTime time).
Proof.
  intros r Hr Htime. unfold Reader.seek_setup.
  destruct (queue_pause_safe currentTime
              (Reader.set_currentFragmentNumber (Reader.getFragmentNumber time) r) Hr I)
    as (r1 & -> & Hr1 & Hf1). simpl.
  destruct (notify_safe onBufferingStart (Reader.set_buffering true r1) Hr1 I)
    as (r2 & -> & Hr2 & Hf2). simpl.
  destruct (queue_empty_safe r2 Hr2 I) as (r3 & -> & Hr3 & Hf3). simpl.
  destruct (loadFragment_safe
              (Reader.seekLoaded currentTime (Reader.getFragmentNumber time)
                 (js_rem time FRAGMENT_DURATION))
              (Reader.SeekLoaded (Reader.getFragmentNumber time) (js_rem time FRAGMENT_DURATION))
              (Reader.getFragmentNumber time) eq_refl (seekLoaded_safe _ _ _) r3 Hr3)
    as (r4 & -> & Hr4 & Hf4); [by destruct (seek_split time Htime)|].
  exists r4. split; [done|]. split; [done|]. simpl in *. congruence.
Qed.

Lemma seek_safe currentTime time :
  safe (λ _, (0 <= time)%Q) (Reader.seek currentTime time).
Proof.
  intros r Hr Htime. unfold Reader.seek. case_bool_decide as Hempty.
  - eexists. split; [done|]. split; [|done].
    destruct Hr as (Halive & Hs & Hr & Hwait & Hc). repeat split; try done. simpl.
    apply Forall_app. split; [done|]. by apply Forall_singleton.
  - by apply (seek_setup_safe currentTime time (Reader.set_jumped true r)).
Qed.

Lemma waitingFragments_tick_safe currentTime j :
  safe (λ _, True) (Reader.waitingFragments_tick currentTime j).
Proof.
  intros r Hr _. unfold Reader.waitingFragments_tick.
  destruct (Reader.waitingFragments r !! j) as [time|] eqn:Hj; [|by exists r].
  case_bool_decide as Hempty; [by exists r|].
  destruct Hr as (Halive & Hs & Hr & Hwait & Hc).
  apply (seek_setup_safe currentTime time
           (Reader.set_waitingFragments (delete j (Reader.waitingFragments r)) r)).
  - repeat split; try done. simpl. by apply Forall_delete.
  - by apply (proj1 (Forall_lookup _ _) Hwait j).
Qed.

Lemma scheduleFragment_grows currentTime number offset r r' :
  Reader.scheduleFragment currentTime number offset r = Some r' →
  length (SourceQueue.sources (Reader.queue r'))
  = S (length (SourceQueue.sources (Reader.queue r))).
Proof.
  unfold Reader.scheduleFragment. destruct (Reader.destroyed r); [done|].
  intros H. bind_inv H. bind_inv H. destruct x0 as [q res]. injection H as <-.
  by destruct (push_appends _ _ _ _ _ _ _ E0) as (_ & ? & _).
Qed.

Lemma loadAndScheduleFragment_grows currentTime number offset r r' :
  Reader.loadAndScheduleFragment currentTime number offset r = Some r' →
  length (SourceQueue.sources (Reader.queue r))
  ≤ length (SourceQueue.sources (Reader.queue r')).
Proof.
  unfold Reader.loadAndScheduleFragment, Reader.loadFragment.
  case_bool_decide as Hrange; [by intros [= <-]|]. intros H. bind_inv H. destruct x.
  - apply scheduleFragment_grows in H. lia.
  - unfold Reader.fetchFragment in H. bind_inv H. by injection H as <-.
Qed.

Lemma queue_pause_length currentTime r r' :
  Reader.queue_pause currentTime r = Some r' →
  length (SourceQueue.sources (Reader.queue r'))
  = length (SourceQueue.sources (Reader.queue r)).
Proof.
  unfold Reader.queue_pause. destruct (Reader.destroyed r); [done|].
  pose proof (pause_length currentTime (Reader.queue r)) as Hlength.
  destruct (SourceQueue.pause _ _) as [q effects]. intros [= <-].
  by rewrite perform_queue.
Qed.

Lemma endCallback_safe currentTime number :
  safe (λ _, (0 ≤ number)%Z) (Reader.endCallback currentTime number).
Proof.
  intros r Hr Hnumber. unfold Reader.endCallback. simpl.
  case_bool_decide as Hlast; simpl.
  - destruct (queue_pause_safe currentTime
                (Reader.set_currentFragmentNumber (number + 1) r) Hr I)
      as (r1 & -> & Hr1 & Hf1). simpl.
    destruct (notify_safe onFinish
                (Reader.set_queue (SourceQueue.set_state STATE_FINISHED (Reader.queue r1)) r1)
                Hr1 I)
      as (r2 & -> & Hr2 & Hf2). simpl.
    destruct (loadAndScheduleFragment_safe currentTime (number + 2) None r2 Hr2)
      as (r3 & -> & Hr3 & Hf3); [lia|].
    exists r3. split; [done|]. split; [done|]. simpl in *. congruence.
  - apply (loadAndScheduleFragment_safe currentTime (number + 2) None
             (Reader.set_currentFragmentNumber (number + 1) r) Hr). lia.
Qed.

Lemma endCallback_grows currentTime number r r' :
  Reader.endCallback currentTime number r = Some r' →
  length (SourceQueue.sources (Reader.queue r))
  ≤ length (SourceQueue.sources (Reader.queue r')).
Proof.
  unfold Reader.endCallback. simpl. case_bool_decide as Hlast; simpl.
  - intros H. bind_inv H. bind_inv E. apply queue_pause_length in E0.
    apply notify_queue in E. apply loadAndScheduleFragment_grows in H.
    simpl in *. rewrite E in H. simpl in H. lia.
  - intros H. by apply loadAndScheduleFragment_grows in H.
Qed.

Lemma sourceEnded_safe currentTime i :
  safe (λ r, ∃ source timer,
          SourceQueue.sources (Reader.queue r) !! i = Some source
          ∧ Source.endTimer source = Some timer)
    (Reader.sourceEnded currentTime i).
Proof.
  intros r Hr (source & timer & Hsource & Htimer). unfold Reader.sourceEnded.
  rewrite Hsource. simpl. rewrite Htimer. simpl.
  set (spent := Source.set_endTimer _ source).
  set (r0 := Reader.set_queue _ r).
  assert (Hsound : sound_source (length (Reader.fragments r)) source).
  { destruct Hr as (_ & Hs & _). by apply (proj1 (Forall_lookup _ _) Hs i). }
  assert (Hr0 : sound r0).
  { destruct Hr as (Halive & Hs & Hr & Hwait & Hc). repeat split; try done. simpl.
    by apply Forall_insert. }
  assert (Hlength : 0 < length (SourceQueue.sources (Reader.queue r0))).
  { simpl. rewrite length_insert. apply lookup_lt_Some in Hsource. lia. }
  destruct Hsound as (_ & n & _ & Hcallback & Hn & _). rewrite Hcallback.
  destruct (endCallback_safe currentTime n r0 Hr0 Hn) as (r1 & Hended & Hr1 & Hf1).
  rewrite Hended. simpl. apply endCallback_grows in Hended.
  unfold SourceQueue.shift, SourceQueue.first, SourceQueue.get.
  destruct (SourceQueue.sources (Reader.queue r1)) as [|head rest] eqn:Hsources;
    [cbn [length] in Hended; lia|]. simpl.
  eexists. split; [done|]. split; [|done].
  destruct Hr1 as (Halive & Hs & Hreq & Hwait & Hc). repeat split; try done. simpl.
  rewrite Hsources in Hs. by apply Forall_cons in Hs as [_ Hs].
Qed.

Lemma sound_source_mono count count' s :
  count ≤ count' → sound_source count s → sound_source count' s.
Proof.
  intros Hcount (Hb & n & Hn & Hc & Hrange). split; [done|]. exists n.
  repeat split; try done; lia.
Qed.

Lemma sound_request_mono count count' request :
  count ≤ count' → sound_request count request → sound_request count' request.
Proof. intros Hcount [Hrange Hnames]. split; [lia|done]. Qed.

Lemma sound_set_fragments fragments r :
  length (Reader.fragments r) ≤ length fragments →
  sound r → sound (Reader.set_fragments fragments r).
Proof.
  intros Hlength (Halive & Hs & Hr & Hwait & Hc). repeat split; try done; simpl.
  - eapply Forall_impl; [exact Hs|]. intros s. by apply sound_source_mono.
  - eapply Forall_impl; [exact Hr|]. intros s. by apply sound_request_mono.
Qed.

Lemma metadataFetched_sound currentTime metadata r :
  sound r →
  ∃ r', Reader.metadataFetched currentTime metadata r = Some r' ∧ sound r'.
Proof.
  intros Hr. unfold Reader.metadataFetched.
  set (r0 := Reader.set_fragments _ _).
  assert (Hr0 : sound r0).
  { apply sound_set_fragments; [|done]. simpl. rewrite length_app. lia. }
  destruct (notify_safe onMetadataFetched r0 Hr0 I) as (r1 & -> & Hr1 & Hf1). simpl.
  destruct (loadFragment_safe (Reader.initialLoaded currentTime) Reader.InitialLoaded 0
              eq_refl (initialLoaded_safe _) r1 Hr1) as (r2 & -> & Hr2 & _); [done|].
  by exists r2.
Qed.

Lemma fragmentDecoded_sound currentTime j audioBuffer r :
  sound r → j < length (Reader.requests r) →
  ∃ r', Reader.fragmentDecoded currentTime j audioBuffer r = Some r' ∧ sound r'.
Proof.
  intros Hr Hj. unfold Reader.fragmentDecoded.
  destruct (lookup_lt_is_Some_2 _ _ Hj) as [[number callback] Hrequest].
  rewrite Hrequest. simpl.
  destruct Hr as (Halive & Hs & Hreq & Hwait & Hc). rewrite Halive.
  destruct (proj1 (Forall_lookup _ _) Hreq j _ Hrequest) as [Hrange Hnames].
  simpl in Hrange, Hnames.
  destruct (lookup_lt_is_Some_2 (Reader.fragments r) (Z.to_nat number)) as [fragment Hfragment];
    [lia|].
  unfold lookupZ at 1. simpl. rewrite bool_decide_eq_true_2 by lia. rewrite Hfragment. simpl.
  set (r0 := Reader.set_fragments _ _).
  assert (Hr0 : sound r0).
  { apply sound_set_fragments; [simpl; by rewrite length_insert|].
    repeat split; try done. simpl. by apply Forall_delete. }
  destruct (runCallback_safe currentTime callback number Hnames r0 Hr0) as (r1 & -> & Hr1 & _).
  { exists (Reader.set_buffer (Some audioBuffer) fragment). split; [|by eexists].
    unfold lookupZ. simpl. rewrite bool_decide_eq_true_2 by lia.
    apply list_lookup_insert_eq. apply lookup_lt_Some in Hfragment. lia. }
  by exists r1.
Qed.

Lemma deliver_live s :
  sound (Session.reader s) →
  (∀ lastCall time,
     Debounce.pending (Session.setCurrentTime s) = Some (lastCall, time) → (0 <= time)%Q) →
  live (Session.deliver s).
Proof.
  intros (Halive & Hs & Hr & Hwait & Hc) Hpending. split.
  - by repeat split.
  - unfold Session.deliver. simpl.
    revert Hpending. generalize (Session.setCurrentTime s).
    induction Hc as [|time calls Htime Hcalls IH]; intros d Hd; simpl; [done|].
    apply IH. simpl. intros lastCall time' [= <- <-]. done.
Qed.

Lemma run_live f s :
  live s →
  (∃ r', f (Session.currentTime s) (Session.reader s) = Some r' ∧ sound r') →
  ∃ s', Session.run f s = Some s' ∧ live s'.
Proof.
  intros [Hr Hpending] (r' & Hf & Hr'). unfold Session.run. rewrite Hf. simpl.
  eexists. split; [done|]. by apply deliver_live.
Qed.

Lemma safe_sound P f r :
  safe P f → sound r → P r → ∃ r', f r = Some r' ∧ sound r'.
Proof. intros Hf Hr HP. destruct (Hf r Hr HP) as (r' & ? & ? & _). by exists r'. Qed.

Lemma step_safe a s :
  live s → benign a → enabled a s →
  ∃ s', Session.step a s = Some s' ∧ (a ≠ Session.Destroy → live s').
Proof.
  intros Hlive Hbenign Henabled. pose proof Hlive as [Hr Hpending].
  destruct a as [| |time|ms seconds|metadata| |j audioBuffer|i|j|]; simpl in *.
  - destruct (run_live Reader.queue_play s Hlive) as (s' & ? & ?); [|by exists s'].
    by apply (safe_sound (λ _, True)); [apply queue_play_safe|..].
  - destruct (run_live Reader.queue_pause s Hlive) as (s' & ? & ?); [|by exists s'].
    by apply (safe_sound (λ _, True)); [apply queue_pause_safe|..].
  - eexists. split; [done|]. intros _. split; [done|]. simpl. by intros ? ? [= <- <-].
  - destruct Henabled as [Hms Hseconds].
    rewrite (Qle_bool_true 0 ms), (Qle_bool_true 0 seconds) by done. simpl.
    destruct (Debounce.due _ _) as [time|] eqn:Hdue.
    + assert (Htime : (0 <= time)%Q).
      { unfold Debounce.due in Hdue. simpl in Hdue.
        destruct (Debounce.pending (Session.setCurrentTime s)) as [[lastCall arg]|] eqn:Hp;
          [|done].
        destruct (Qle_bool _ _); [|done]. injection Hdue as <-. by eapply Hpending. }
      match goal with |- ∃ s', Session.run ?f ?s0 = _ ∧ _ =>
        destruct (run_live f s0) as (s' & ? & ?) end; [done| |by exists s'].
      by apply (safe_sound (λ _, (0 <= time)%Q)); [apply seek_safe|..].
    + eexists. split; [done|]. by intros _.
  - rewrite Henabled.
    match goal with |- ∃ s', Session.run ?f ?s0 = _ ∧ _ =>
      destruct (run_live f s0) as (s' & ? & ?) end; [done| |by exists s'].
    by apply metadataFetched_sound.
  - rewrite Henabled.
    match goal with |- ∃ s', Session.run ?f ?s0 = _ ∧ _ =>
      destruct (run_live f s0) as (s' & ? & ?) end; [done| |by exists s'].
    by apply (safe_sound (λ _, True)); [apply notify_safe|..].
  - match goal with |- ∃ s', Session.run ?f ?s0 = _ ∧ _ =>
      destruct (run_live f s0) as (s' & ? & ?) end; [done| |by exists s'].
    by apply fragmentDecoded_sound.
  - rewrite Henabled.
    match goal with |- ∃ s', Session.run ?f ?s0 = _ ∧ _ =>
      destruct (run_live f s0) as (s' & ? & ?) end; [done| |by exists s'].
    eapply safe_sound; [apply sourceEnded_safe|done|].
    unfold Session.timerLive in Henabled.
    destruct (SourceQueue.sources (Reader.queue (Session.reader s)) !! i)
      as [source|] eqn:Hsource; [|done].
    destruct (Source.endTimer source) as [timer|] eqn:Htimer; [|done].
    by exists source, timer.
  - match goal with |- ∃ s', Session.run ?f ?s0 = _ ∧ _ =>
      destruct (run_live f s0) as (s' & ? & ?) end; [done| |by exists s'].
    by apply (safe_sound (λ _, True)); [apply waitingFragments_tick_safe|..].
  - unfold Session.run, Reader.destroy.
    destruct (queue_empty_safe _ Hr I) as (r' & -> & _). simpl. eexists. by split.
Qed.

Lemma step_enabled a s s' : Session.step a s = Some s' → enabled a s.
Proof.
  destruct a as [| |time|ms seconds|metadata| |j audioBuffer|i|j|]; simpl; try done.
  - destruct (Qle_bool 0 ms) eqn:Hms; [|done].
    destruct (Qle_bool 0 seconds) eqn:Hseconds; [|done]. intros _.
    by split; apply Qle_bool_iff.
  - by destruct (Session.metadataRequest s).
  - by destruct (Session.metadataRequest s).
  - unfold Session.run, Reader.fragmentDecoded. intros H.
    destruct (Reader.requests (Session.reader s) !! j) eqn:Hj; [|done].
    by apply lookup_lt_Some in Hj.
  - by destruct (Session.timerLive i s).
Qed.

Lemma new_live w c : live (Session.new_ w c).
Proof. split; [by repeat split|done]. Qed.

Lemma steps_live actions : ∀ s s',
  live s → Forall (λ a, benign a ∧ a ≠ Session.Destroy) actions →
  Session.steps actions s = Some s' → live s'.
Proof.
  induction actions as [|a actions IH]; intros s s' Hlive Hactions; simpl.
  - by intros [= <-].
  - apply Forall_cons in Hactions as [[Hbenign Hkept] Hactions].
    intros H. bind_inv H.
    destruct (step_safe a s Hlive Hbenign (step_enabled _ _ _ E)) as (s1 & Hstep & Hlive1).
    assert (x = s1) as -> by congruence. apply (IH s1); [by apply Hlive1|done|done].
Qed.

(** X10. A player that has not been destroyed never raises: after any
    history of calls and events without [destroy()] in which the user
    never seeks to a negative time, every call ([play], [pause], a seek
    to a time that is not negative, [destroy]) and every event that can
    occur (a load or the metadata request completing, an armed timer
    firing, time passing) runs to completion. *)
Theorem live_player_never_raises (w c : Q) (actions : list Session.Action)
    (s : Session.t) (a : Session.Action)
    (Hhistory : Forall (λ a, benign a ∧ a ≠ Session.Destroy) actions)
    (Hreached : Session.steps actions (Session.new_ w c) = Some s)
    (Hbenign : benign a)
    (Henabled : enabled a s) :
  is_Some (Session.step a s).
Proof.
  assert (Hlive : live s)
    by (apply (steps_live actions (Session.new_ w c)); [apply new_live|done|done]).
  destruct (step_safe a s Hlive Hbenign Henabled) as (s' & Hstep & _). by exists s'.
Qed.

Lemma live_player_never_raises_witness :
  Forall (λ a, benign a ∧ a ≠ Session.Destroy) Samples.startup
  ∧ Session.steps Samples.startup (Session.new_ 0%Q 0%Q) = Some Samples.playing
  ∧ benign (Session.SourceEnded 0)
  ∧ enabled (Session.SourceEnded 0) Samples.playing
  ∧ is_Some (Session.step (Session.SourceEnded 0) Samples.playing).
Proof.
  assert (H1 : Forall (λ a, benign a ∧ a ≠ Session.Destroy) Samples.startup).
  { repeat constructor; discriminate. }
  assert (H2 : Session.steps Samples.startup (Session.new_ 0%Q 0%Q) = Some Samples.playing)
    by (vm_compute; reflexivity).
  split; [exact H1|]. split; [exact H2|]. split; [exact I|]. split; [reflexivity|].
  exact (live_player_never_raises 0%Q 0%Q Samples.startup Samples.playing
           (Session.SourceEnded 0) H1 H2 I eq_refl).
Defined.

(** X11. In every state of a player that has not been destroyed (a
    history as above), each source in the queue holds a decoded buffer
    and the number of an existing fragment, the one its end handler
    captured; each request in flight is for an existing fragment and
    carries a callback made for that fragment; and no seek to a
    negative time is pending. *)
Theorem queued_sources_are_decoded (w c : Q) (actions : list Session.Action)
    (s : Session.t)
    (Hhistory : Forall (λ a, benign a ∧ a ≠ Session.Destroy) actions)
    (Hreached : Session.steps actions (Session.new_ w c) = Some s) :
  Reader.destroyed (Session.reader s) = false
  ∧ (∀ source, source ∈ SourceQueue.sources (Reader.queue (Session.reader s)) →
       is_Some (Source.buffer source)
       ∧ ∃ n, Source.number source = Some n ∧ Source.endCallback source = Some n
              ∧ (0 ≤ n < Z.of_nat (length (Reader.fragments (Session.reader s))))%Z)
  ∧ (∀ number callback, (number, callback) ∈ Reader.requests (Session.reader s) →
       (0 ≤ number < Z.of_nat (length (Reader.fragments (Session.reader s))))%Z
       ∧ names callback number)
  ∧ (∀ time, time ∈ Reader.waitingFragments (Session.reader s) → (0 <= time)%Q)
  ∧ (∀ lastCall time,
       Debounce.pending (Session.setCurrentTime s) = Some (lastCall, time) → (0 <= time)%Q).
Proof.
  assert (Hlive : live s)
    by (apply (steps_live actions (Session.new_ w c)); [apply new_live|done|done]).
  destruct Hlive as [(Halive & Hs & Hr & Hwait & _) Hpending].
  split; [done|]. split; [|split; [|split; [|done]]].
  - intros source Hsource. by apply (proj1 (Forall_forall _ _) Hs).
  - intros number callback Hrequest.
    by apply (proj1 (Forall_forall _ _) Hr (number, callback)).
  - intros time Htime. by apply (proj1 (Forall_forall _ _) Hwait).
Qed.

Lemma queued_sources_are_decoded_witness :
  Forall (λ a, benign a ∧ a ≠ Session.Destroy) Samples.startup
  ∧ Session.steps Samples.startup (Session.new_ 0%Q 0%Q) = Some Samples.playing
  ∧ ∀ source, source ∈ SourceQueue.sources (Reader.queue (Session.reader Samples.playing)) →
      is_Some (Source.buffer source).
Proof.
  assert (H1 : Forall (λ a, benign a ∧ a ≠ Session.Destroy) Samples.startup).
  { repeat constructor; discriminate. }
  assert (H2 : Session.steps Samples.startup (Session.new_ 0%Q 0%Q) = Some Samples.playing)
    by (vm_compute; reflexivity).
  split; [exact H1|]. split; [exact H2|]. intros source Hsource.
  exact (proj1 (proj1 (proj2 (queued_sources_are_decoded 0%Q 0%Q Samples.startup
                                Samples.playing H1 H2)) source Hsource)).
Defined.

(** ** Pausing before the first fragment *)

Lemma initialLoaded_while_paused currentTime r fragment audioBuffer :
  Reader.destroyed r = false →
  Reader.jumped r = false →
  SourceQueue.state (Reader.queue r) = STATE_PAUSED →
  SourceQueue.sources (Reader.queue r) = [] →
  lookupZ (Reader.fragments r) 0 = Some fragment →
  Reader.buffer fragment = Some audioBuffer →
  ∃ r' source rest,
    Reader.initialLoaded currentTime r = Some r'
    ∧ Reader.destroyed r' = false
    ∧ Reader.buffering r' = false
    ∧ Reader.currentFragmentNumber r' = Reader.currentFragmentNumber r
    ∧ SourceQueue.state (Reader.queue r') = STATE_PAUSED
    ∧ SourceQueue.latestElapsed (Reader.queue r')
      = SourceQueue.latestElapsed (Reader.queue r)
    ∧ SourceQueue.sources (Reader.queue r') = source :: rest
    ∧ Source.startsAt source = None
    ∧ Source.startsFrom source = 0%Q.
Proof.
  intros Halive Hjumped Hstate Hsources Hfragment Hbuffer.
  unfold Reader.initialLoaded. rewrite Hjumped.
  unfold Reader.scheduleFragment. rewrite Halive, Hfragment. simpl.
  unfold SourceQueue.push. simpl. rewrite Hstate, Hsources. simpl.
  unfold Reader.notify. simpl. rewrite Halive. simpl.
  set (r1 := Reader.set_buffering _ _).
  destruct (loadAndScheduleFragment_spec currentTime 1 r1)
    as (r2 & pushed & -> & Hsrc & Hst & Hlatest & _ & Hc & Hb & Hd); [lia|done|..].
  { simpl. intros previous [= <-]. simpl. rewrite Hbuffer. by eexists. }
  simpl in *. eexists r2, _, pushed. split; [done|].
  rewrite Hd, Hb, Hc, Hst, Hlatest, Hsrc. by repeat split.
Qed.

(** X12. The user plays and then pauses before the first fragment has
    arrived (the queue is empty, so [pause] records no position), the
    metadata arrives and fragment 0 is decoded: the player is paused,
    and [getCurrentTime()] answers the clock of the audio context,
    which keeps running, instead of a fixed position. *)
Theorem early_pause_reports_the_clock (w c : Q) (metadata : Reader.Metadata)
    (audioBuffer : AudioBuffer.t)
    (Hfragments : Reader.m_fragments metadata ≠ []) :
  ∃ s,
    Session.steps
      [Session.Play; Session.Pause; Session.MetadataFetched metadata;
       Session.FragmentDecoded 0 audioBuffer] (Session.new_ w c) = Some s
    ∧ Reader.state (Session.reader s) = Some STATE_PAUSED
    ∧ ∀ clock, ∃ time, Reader.getCurrentTime clock (Session.reader s) = Some time
                       ∧ (time == clock)%Q.
Proof.
  destruct metadata as [duration [|[[[m v] k] i] fragments]]; [done|]. clear Hfragments.
  set (metadata := {| Reader.m_duration := duration;
                      Reader.m_fragments := (m, v, k, i) :: fragments |}).
  assert (H3 : ∃ s3,
            Session.steps [Session.Play; Session.Pause; Session.MetadataFetched metadata]
              (Session.new_ w c) = Some s3
            ∧ Reader.destroyed (Session.reader s3) = false
            ∧ Reader.jumped (Session.reader s3) = false
            ∧ Reader.queue (Session.reader s3)
              = {| SourceQueue.state := STATE_PAUSED; SourceQueue.sources := [];
                   SourceQueue.latestElapsed := None |}
            ∧ Reader.requests (Session.reader s3) = [(0%Z, Reader.InitialLoaded)]
            ∧ Reader.currentFragmentNumber (Session.reader s3) = 0%Z
            ∧ ∃ fragment rest, Reader.fragments (Session.reader s3) = fragment :: rest).
  { eexists. split; [vm_compute; reflexivity|]. simpl. repeat split. by eexists _, _. }
  destruct H3 as (s3 & Hsteps & Halive & Hjumped & Hqueue & Hrequests & Hcfn & fragment & rest & Hfr).
  change [Session.Play; Session.Pause; Session.MetadataFetched metadata;
          Session.FragmentDecoded 0 audioBuffer]
    with ([Session.Play; Session.Pause; Session.MetadataFetched metadata]
          ++ [Session.FragmentDecoded 0 audioBuffer]).
  rewrite steps_app, Hsteps. simpl.
  unfold Session.run, Reader.fragmentDecoded. rewrite Hrequests. simpl.
  rewrite Halive, Hfr. simpl.
  set (r0 := Reader.set_fragments _ _).
  destruct (initialLoaded_while_paused (Session.currentTime s3) r0
              (Reader.set_buffer (Some audioBuffer) fragment) audioBuffer)
    as (r' & source & pushed & -> & Hd & Hb & Hc & Hst & Hlatest & Hsrc & Hat & Hfrom);
    [done|done|simpl; by rewrite Hqueue|simpl; by rewrite Hqueue|done|done|].
  simpl. eexists. split; [done|]. unfold Session.deliver. simpl.
  unfold Reader.state, Reader.getCurrentTime. simpl. rewrite Hb, Hd, Hst.
  split; [done|]. intros clock. eexists. split; [done|].
  rewrite Hc. simpl. rewrite Hcfn. unfold SourceQueue.elapsed, Source.elapsed.
  rewrite Hlatest, Hsrc, Hat, Hfrom. simpl. rewrite Hqueue. simpl.
  unfold FRAGMENT_DURATION. change (inject_Z 0) with 0%Q. ring.
Qed.

Lemma early_pause_reports_the_clock_witness :
  Reader.m_fragments Samples.metadata ≠ []
  ∧ ∃ s,
      Session.steps
        [Session.Play; Session.Pause; Session.MetadataFetched Samples.metadata;
         Session.FragmentDecoded 0 Samples.full] (Session.new_ 0%Q 0%Q) = Some s
      ∧ Reader.state (Session.reader s) = Some STATE_PAUSED
      ∧ ∃ time, Reader.getCurrentTime 7%Q (Session.reader s) = Some time ∧ (time == 7)%Q.
Proof.
  assert (H1 : Reader.m_fragments Samples.metadata ≠ []) by discriminate.
  split; [exact H1|].
  destruct (early_pause_reports_the_clock 0%Q 0%Q Samples.metadata Samples.full H1)
    as (s & Hsteps & Hstate & Htime).
  exists s. split; [exact Hsteps|]. split; [exact Hstate|exact (Htime 7%Q)].
Defined.

(** ** From one fragment to the next *)

(** X13. A fragment that is not the last one ends while the queue plays and
    its successor is already queued: the step succeeds, and the position
    [getCurrentTime()] reports at any clock value moves by 15 s minus
    the duration of the ended buffer, plus the offset of the successor.
    With buffers of 15 s and a successor that starts at offset 0 the
    reported position is continuous across the handover. *)
Theorem handover_position (w c : Q) (actions : list Session.Action) (s : Session.t)
    (i : Z) (head next : Source.t) (rest : list Source.t)
    (Hw : (0 <= w)%Q) (Hc : (0 <= c)%Q)
    (Hhistory : Forall (λ a, benign a ∧ a ≠ Session.Destroy) actions)
    (Hreached : Session.steps actions (Session.new_ w c) = Some s)
    (Hplaying : SourceQueue.state (Reader.queue (Session.reader s)) = STATE_PLAYING)
    (Hsources : SourceQueue.sources (Reader.queue (Session.reader s)) = head :: next :: rest)
    (Harmed : Session.timerLive 0 s = true)
    (Hcallback : Source.endCallback head = Some i)
    (Hcurrent : Reader.currentFragmentNumber (Session.reader s) = i)
    (Hmore : (i + 1 < Z.of_nat (length (Reader.fragments (Session.reader s))))%Z) :
  ∃ s' b,
    Session.step (Session.SourceEnded 0) s = Some s'
    ∧ Source.buffer head = Some b
    ∧ Reader.currentFragmentNumber (Session.reader s') = (i + 1)%Z
    ∧ (∃ pushed, SourceQueue.sources (Reader.queue (Session.reader s'))
                 = next :: rest ++ pushed)
    ∧ ∀ clock, ∃ t t',
        Reader.getCurrentTime clock (Session.reader s) = Some t
        ∧ Reader.getCurrentTime clock (Session.reader s') = Some t'
        ∧ (t' == t + (FRAGMENT_DURATION - AudioBuffer.duration b)
                 + Source.startsFrom next)%Q.
Proof.
  assert (Hlive : live s)
    by (apply (steps_live actions (Session.new_ w c)); [apply new_live|done|done]).
  assert (Hchained : chained (Reader.queue (Session.reader s))).
  { apply reachable_chained. by exists w, c, actions. }
  destruct (Hchained Hplaying) as (Hlatest & _ & Hfollows).
  destruct (Hfollows 0 head next) as (a & b & Hat & Hb & Hnext); [by rewrite Hsources..|].
  destruct Hlive as [(Halive & Hs & Hreq & Hwait & Hcalls) Hpending].
  assert (Hi : (0 ≤ i)%Z).
  { rewrite Hsources in Hs. apply Forall_cons in Hs as [(_ & n & _ & Hn & ? & _) _].
    congruence. }
  unfold Session.step. rewrite Harmed. unfold Session.timerLive in Harmed.
  rewrite Hsources in Harmed. simpl in Harmed.
  destruct (Source.endTimer head) as [timer|] eqn:Htimer; [|done].
  unfold Session.run, Reader.sourceEnded. rewrite Hsources. simpl. rewrite Htimer. simpl.
  rewrite Hcallback. unfold Reader.endCallback. simpl.
  rewrite bool_decide_eq_false_2 by lia. simpl.
  set (r1 := Reader.set_currentFragmentNumber _ _).
  destruct (loadAndScheduleFragment_spec (Session.currentTime s) (i + 2) r1)
    as (r2 & pushed & -> & Hsrc2 & Hst2 & Hlatest2 & _ & Hc2 & _ & Hd2); [lia|done|..].
  { simpl. intros previous Hlast. apply last_Some_elem_of in Hlast.
    rewrite Hsources in Hs. apply Forall_cons in Hs as [Hhead Hs].
    exact (proj1 (proj1 (Forall_forall _ _) Hs previous Hlast)). }
  simpl in Hsrc2, Hst2, Hlatest2, Hc2, Hd2.
  unfold SourceQueue.shift, SourceQueue.first, SourceQueue.get. simpl. rewrite Hsrc2. simpl.
  eexists _, b. split; [done|]. split; [done|]. unfold Session.deliver. simpl.
  split; [done|]. split; [by exists pushed|].
  intros clock. unfold Reader.getCurrentTime. simpl. rewrite Halive, Hd2, Halive.
  eexists _, _. split; [done|]. split; [done|].
  rewrite Hc2, Hcurrent. unfold SourceQueue.elapsed. simpl.
  rewrite Hlatest2, Hlatest, Hsources. unfold Source.elapsed. rewrite Hat, Hnext. simpl.
  rewrite inject_Z_plus. unfold FRAGMENT_DURATION. change (inject_Z 1) with 1%Q. ring.
Qed.

Lemma handover_position_witness :
  (0 <= 0)%Q
  ∧ Forall (λ a, benign a ∧ a ≠ Session.Destroy) Samples.startup
  ∧ Session.steps Samples.startup (Session.new_ 0%Q 0%Q) = Some Samples.playing
  ∧ SourceQueue.state (Reader.queue (Session.reader Samples.playing)) = STATE_PLAYING
  ∧ Session.timerLive 0 Samples.playing = true
  ∧ Reader.currentFragmentNumber (Session.reader Samples.playing) = 0%Z
  ∧ (0 + 1 < Z.of_nat (length (Reader.fragments (Session.reader Samples.playing))))%Z
  ∧ ∃ head next rest s',
      SourceQueue.sources (Reader.queue (Session.reader Samples.playing))
      = head :: next :: rest
      ∧ Source.endCallback head = Some 0%Z
      ∧ Session.step (Session.SourceEnded 0) Samples.playing = Some s'
      ∧ Reader.currentFragmentNumber (Session.reader s') = 1%Z.
Proof.
  assert (H0 : (0 <= 0)%Q) by discriminate.
  assert (H1 : Forall (λ a, benign a ∧ a ≠ Session.Destroy) Samples.startup).
  { repeat constructor; discriminate. }
  assert (H2 : Session.steps Samples.startup (Session.new_ 0%Q 0%Q) = Some Samples.playing)
    by (vm_compute; reflexivity).
  assert (H7 : (0 + 1 < Z.of_nat (length (Reader.fragments (Session.reader Samples.playing))))%Z)
    by reflexivity.
  split; [exact H0|]. split; [exact H1|]. split; [exact H2|]. split; [reflexivity|].
  split; [reflexivity|]. split; [reflexivity|]. split; [exact H7|].
  destruct (handover_position 0%Q 0%Q Samples.startup Samples.playing 0%Z _ _ _
              H0 H0 H1 H2 eq_refl eq_refl eq_refl eq_refl eq_refl H7)
    as (s' & b & Hstep & _ & Hcfn & _).
  eexists _, _, _, s'. split; [reflexivity|]. split; [reflexivity|].
  split; [exact Hstep|exact Hcfn].
Defined.

(** ** After destroy *)



(** ** Hexadecimal keys *)

Lemma hexDigit_Some c v :
  Hex.hexDigit c = Some v →
  (0 ≤ v < 16)%Z ∧ Hex.isWhiteSpace c = false ∧ c ≠ 45%Z ∧ c ≠ 43%Z
  ∧ c ≠ 120%Z ∧ c ≠ 88%Z.
Proof.
  unfold Hex.hexDigit, Hex.isWhiteSpace. intros H.
  assert (Hc : (48 ≤ c ≤ 57 ∨ 97 ≤ c ≤ 102 ∨ 65 ≤ c ≤ 70)%Z ∧ (0 ≤ v < 16)%Z).
  { destruct (48 <=? c)%Z eqn:H1, (c <=? 57)%Z eqn:H2, (97 <=? c)%Z eqn:H3,
      (c <=? 102)%Z eqn:H4, (65 <=? c)%Z eqn:H5, (c <=? 70)%Z eqn:H6;
      simpl in H; try discriminate; injection H as <-; lia. }
  destruct Hc as [Hc Hv]. split; [done|]. split; [|lia].
  apply bool_decide_eq_false_2. rewrite !elem_of_cons, elem_of_nil. lia.
Qed.

Lemma trimStart_app_white ws s :
  Forall (λ c, Hex.isWhiteSpace c = true) ws → Hex.trimStart (ws ++ s) = Hex.trimStart s.
Proof. induction 1 as [|c ws Hc _ IH]; [done|]. simpl. by rewrite Hc. Qed.

Lemma trimStart_white ws :
  Forall (λ c, Hex.isWhiteSpace c = true) ws → Hex.trimStart ws = [].
Proof. intros H. rewrite <- (app_nil_r ws). by rewrite trimStart_app_white. Qed.

Lemma trimStart_head c s : Hex.isWhiteSpace c = false → Hex.trimStart (c :: s) = c :: s.
Proof. intros H. simpl. by rewrite H. Qed.

Lemma spell_white ps :
  Forall (λ p, is_Some (Hex.hexDigit p.1) ∧ is_Some (Hex.hexDigit p.2)) ps →
  Hex.trimStart (spell ps) = spell ps ∧ Hex.trimStart (reverse (spell ps)) = reverse (spell ps).
Proof.
  intros Hps. split.
  - destruct Hps as [|[a b] ps [[va Ha] _] _]; [done|].
    apply trimStart_head. by destruct (hexDigit_Some _ _ Ha) as (_ & ? & _).
  - destruct ps as [|[a b] ps _] using rev_ind; [done|].
    rewrite Forall_app, Forall_singleton in Hps. destruct Hps as [_ [_ [vb Hb]]].
    unfold spell. rewrite bind_app. simpl. rewrite reverse_app. simpl in *.
    by destruct (hexDigit_Some _ _ Hb) as (_ & -> & _).
Qed.

Lemma trim_spell ws1 ps ws2 :
  Forall (λ c, Hex.isWhiteSpace c = true) ws1 →
  Forall (λ c, Hex.isWhiteSpace c = true) ws2 →
  Forall (λ p, is_Some (Hex.hexDigit p.1) ∧ is_Some (Hex.hexDigit p.2)) ps →
  Hex.trim (ws1 ++ spell ps ++ ws2) = spell ps.
Proof.
  intros H1 H2 Hps. destruct (spell_white ps Hps) as [Hstart Hend].
  unfold Hex.trim, Hex.trimEnd. rewrite trimStart_app_white by done.
  destruct ps as [|p ps].
  - simpl. rewrite (trimStart_white ws2 H2). done.
  - assert (Hs : Hex.trimStart (spell (p :: ps) ++ ws2) = spell (p :: ps) ++ ws2).
    { destruct p as [a b]. apply Forall_cons in Hps as [[[va Ha] _] _]. simpl in *.
      destruct (hexDigit_Some _ _ Ha) as (_ & -> & _). done. }
    rewrite Hs, reverse_app, trimStart_app_white by (by apply Forall_reverse).
    by rewrite Hend, reverse_involutive.
Qed.

Lemma convertHex_loop_pairs fuel : ∀ c hex bytes,
  length hex ≤ c + 2 * fuel →
  Hex.convertHex_loop fuel c hex bytes = bytes ++ (Hex.parseInt <$> pairs (drop c hex)).
Proof.
  induction fuel as [|fuel IH]; intros c hex bytes Hfuel; simpl.
  - rewrite drop_ge by lia. by rewrite app_nil_r.
  - case_bool_decide as Hc.
    + rewrite IH by lia. rewrite <- app_assoc. f_equal. simpl.
      unfold Hex.substr. rewrite <- (drop_drop hex 2 c) at 1.
      destruct (drop c hex) as [|a [|b s]] eqn:Hdrop; simpl.
      * apply (f_equal length) in Hdrop. rewrite length_drop in Hdrop. simpl in Hdrop. lia.
      * done.
      * done.
    + rewrite drop_ge by lia. by rewrite app_nil_r.
Qed.

Lemma pairs_spell ps : pairs (spell ps) = (λ p, [p.1; p.2]) <$> ps.
Proof. induction ps as [|[a b] ps IH]; [done|]. simpl. f_equal. exact IH. Qed.

Lemma parseInt_pair a b va vb :
  Hex.hexDigit a = Some va → Hex.hexDigit b = Some vb →
  Hex.parseInt [a; b] = Some (16 * va + vb)%Z.
Proof.
  intros Ha Hb. destruct (hexDigit_Some _ _ Ha) as (_ & Hw & Hminus & Hplus & _).
  destruct (hexDigit_Some _ _ Hb) as (_ & _ & _ & _ & Hx & HX).
  unfold Hex.parseInt. rewrite trimStart_head by done.
  assert (Hsign : (match [a; b] with
                   | 45%Z :: s' => ((-1)%Z, s')
                   | 43%Z :: s' => (1%Z, s')
                   | _ => (1%Z, [a; b])
                   end) = (1%Z, [a; b])).
  { destruct a as [|[p|p|]|]; try done; repeat (destruct p as [p|p|]; try done). }
  rewrite Hsign.
  assert (Hprefix : (match [a; b] with
                     | 48%Z :: x :: s' => if bool_decide (x = 120 ∨ x = 88)%Z then s' else [a; b]
                     | _ => [a; b]
                     end) = [a; b]).
  { rewrite bool_decide_eq_false_2 by lia.
    destruct a as [|[p|p|]|]; try done; repeat (destruct p as [p|p|]; try done). }
  rewrite Hprefix. simpl. rewrite Ha, Hb. simpl. f_equal. lia.
Qed.

Lemma pairs_length_le n : ∀ s, length s ≤ n → length (pairs s) = (length s + 1) / 2.
Proof.
  induction n as [n IH] using lt_wf_ind. intros [|a [|b s]] Hn; [done..|].
  cbn [pairs length] in *. rewrite (IH (length s)) by lia.
  replace (S (S (length s)) + 1) with ((length s + 1) + 1 * 2) by lia.
  rewrite Nat.div_add by lia. lia.
Qed.

Lemma ToUint8_range v : (0 ≤ Hex.ToUint8 v < 256)%Z.
Proof. destruct v as [n|]; simpl; [|lia]. apply Z.mod_pos_bound. lia. Qed.

(** X15. [convertHex] cuts the trimmed string in pieces of two
    characters (a last piece of one when the length is odd) and reads
    each piece on its own with [parseInt(_, 16)]: there is one byte for
    each piece, in order, each between 0 and 255, and a piece that does
    not parse gives 0. The loop always runs to the end of the string. *)
Theorem convertHex_reads_pieces (hex : list Z) :
  Hex.convertHex hex = (λ piece, Hex.ToUint8 (Hex.parseInt piece)) <$> pairs (Hex.trim hex)
  ∧ length (Hex.convertHex hex) = (length (Hex.trim hex) + 1) / 2
  ∧ Forall (λ byte, (0 ≤ byte < 256)%Z) (Hex.convertHex hex)
  ∧ ∀ k piece, pairs (Hex.trim hex) !! k = Some piece → Hex.parseInt piece = None →
               Hex.convertHex hex !! k = Some 0%Z.
Proof.
  assert (Heq : Hex.convertHex hex
                = (λ piece, Hex.ToUint8 (Hex.parseInt piece)) <$> pairs (Hex.trim hex)).
  { unfold Hex.convertHex. rewrite convertHex_loop_pairs by lia. simpl.
    by rewrite <- list_fmap_compose. }
  split; [done|]. rewrite Heq. split; [|split].
  - rewrite length_fmap. by apply (pairs_length_le (length (Hex.trim hex))).
  - apply Forall_fmap, Forall_true. intros piece. apply ToUint8_range.
  - intros k piece Hk Hnan. rewrite list_lookup_fmap, Hk. simpl. by rewrite Hnan.
Qed.

(** X16. On a string of hexadecimal digit pairs, with white space
    before and after it or none, [convertHex] gives the bytes the pairs
    spell: sixteen times the value of the first digit plus the value of
    the second, pair by pair. *)
Theorem convertHex_of_digit_pairs (ws1 ws2 : list Z) (ps : list (Z * Z))
    (Hbefore : Forall (λ c, Hex.isWhiteSpace c = true) ws1)
    (Hafter : Forall (λ c, Hex.isWhiteSpace c = true) ws2)
    (Hdigits : Forall (λ p, is_Some (Hex.hexDigit p.1) ∧ is_Some (Hex.hexDigit p.2)) ps) :
  Hex.convertHex (ws1 ++ spell ps ++ ws2)
  = (λ p, 16 * default 0 (Hex.hexDigit p.1) + default 0 (Hex.hexDigit p.2))%Z <$> ps.
Proof.
  unfold Hex.convertHex. rewrite trim_spell by done.
  rewrite convertHex_loop_pairs by lia. rewrite app_nil_l, drop_0.
  rewrite pairs_spell, <- !list_fmap_compose.
  apply Forall_fmap_ext_1. eapply Forall_impl; [exact Hdigits|].
  intros [a b] [[va Ha] [vb Hb]]. simpl in *.
  rewrite (parseInt_pair a b va vb Ha Hb), Ha, Hb. simpl.
  destruct (hexDigit_Some _ _ Ha) as [? _]. destruct (hexDigit_Some _ _ Hb) as [? _].
  apply Z.mod_small. lia.
Qed.

Lemma convertHex_of_digit_pairs_witness :
  Forall (λ c, Hex.isWhiteSpace c = true) [32%Z]
  ∧ Forall (λ c, Hex.isWhiteSpace c = true) [10%Z]
  ∧ Forall (λ p, is_Some (Hex.hexDigit p.1) ∧ is_Some (Hex.hexDigit p.2))
      [(48, 97); (70, 102)]%Z
  ∧ Hex.convertHex [32; 48; 97; 70; 102; 10]%Z = [10; 255]%Z.
Proof.
  assert (H1 : Forall (λ c, Hex.isWhiteSpace c = true) [32%Z]) by (by repeat constructor).
  assert (H2 : Forall (λ c, Hex.isWhiteSpace c = true) [10%Z]) by (by repeat constructor).
  assert (H3 : Forall (λ p, is_Some (Hex.hexDigit p.1) ∧ is_Some (Hex.hexDigit p.2))
                 [(48, 97); (70, 102)]%Z).
  { repeat constructor; by eexists. }
  split; [exact H1|]. split; [exact H2|]. split; [exact H3|].
  exact (convertHex_of_digit_pairs [32%Z] [10%Z] [(48, 97); (70, 102)]%Z H1 H2 H3).
Defined.

(** ** Invariants of the queue *)

(** A property of the queue that its own methods keep is kept by every
    method of the reader and by every step of a player. *)
Section Invariant.

Variable inv : SourceQueue.t → Prop.

Hypothesis inv_pause : ∀ now q, inv q → inv (SourceQueue.pause now q).1.
Hypothesis inv_play : ∀ now q q' effects,
  SourceQueue.play now q = Some (q', effects) → inv q → inv q'.
Hypothesis inv_push : ∀ now buffer number offset q q' res,
  SourceQueue.push now buffer number (Some (Reader.beforeSetup number offset)) q
  = Some (q', res) →
  inv q → inv q'.
Hypothesis inv_empty : ∀ q, inv q → inv (SourceQueue.set_sources [] q).
Hypothesis inv_shift : ∀ q q', SourceQueue.shift q = Some q' → inv q → inv q'.
Hypothesis inv_finished : ∀ q,
  SourceQueue.state q = STATE_PAUSED → inv q → inv (SourceQueue.set_state STATE_FINISHED q).
Hypothesis inv_spent : ∀ q i source timer,
  SourceQueue.sources q !! i = Some source → Source.endTimer source = Some timer →
  inv q →
  inv (SourceQueue.set_sources
         (<[i := Source.set_endTimer
                   (Some {| Source.delayMs := Source.delayMs timer; Source.live := false |})
                   source]> (SourceQueue.sources q)) q).

Lemma notify_keeps e : maintains inv (Reader.notify e).
Proof. intros r r' H. by rewrite (notify_queue _ _ _ H). Qed.

Lemma queue_pause_keeps currentTime : maintains inv (Reader.queue_pause currentTime).
Proof.
  intros r r'. unfold Reader.queue_pause. destruct (Reader.destroyed r); [done|].
  destruct (SourceQueue.pause _ _) as [q effects] eqn:Hpause. intros [= <-] Hr.
  rewrite perform_queue. simpl.
  change q with (q, effects).1. rewrite <- Hpause. by apply inv_pause.
Qed.

Lemma queue_pause_paused currentTime r r' :
  Reader.queue_pause currentTime r = Some r' →
  SourceQueue.state (Reader.queue r') = STATE_PAUSED.
Proof.
  unfold Reader.queue_pause. destruct (Reader.destroyed r); [done|].
  destruct (SourceQueue.pause _ _) as [q effects] eqn:Hpause. intros [= <-].
  rewrite perform_queue. simpl.
  change q with (q, effects).1. rewrite <- Hpause. apply pause_state.
Qed.

Lemma queue_play_keeps currentTime : maintains inv (Reader.queue_play currentTime).
Proof.
  intros r r'. unfold Reader.queue_play. destruct (Reader.destroyed r); [done|].
  destruct (SourceQueue.play _ _) as [[q effects]|] eqn:Hplay; [|done]. simpl.
  intros [= <-]. rewrite perform_queue. simpl. by eapply inv_play.
Qed.

Lemma queue_empty_keeps : maintains inv Reader.queue_empty.
Proof.
  intros r r'. unfold Reader.queue_empty. destruct (Reader.destroyed r); [done|].
  rewrite empty_total. simpl. intros [= <-] Hr. by apply inv_empty.
Qed.

Lemma scheduleFragment_keeps currentTime number offset :
  maintains inv (Reader.scheduleFragment currentTime number offset).
Proof.
  intros r r'. unfold Reader.scheduleFragment. destruct (Reader.destroyed r); [done|].
  destruct (lookupZ _ _) as [fragment|]; [|done]. simpl.
  destruct (SourceQueue.push _ _ _ _ _) as [[q res]|] eqn:Hpush; [|done]. simpl.
  intros [= <-]. simpl. by eapply inv_push.
Qed.

Lemma loadFragment_keeps now callback number :
  maintains inv now → maintains inv (Reader.loadFragment now callback number).
Proof.
  intros Hnow r r'. unfold Reader.loadFragment. case_bool_decide as Hc; [by intros [= <-]|].
  destruct (Reader.isFragmentLoaded _ _) as [[|]|]; simpl; [by apply Hnow| |done].
  unfold Reader.fetchFragment. destruct (lookupZ _ _); [|done]. simpl. by intros [= <-].
Qed.

Lemma loadAndScheduleFragment_keeps currentTime number offset :
  maintains inv (Reader.loadAndScheduleFragment currentTime number offset).
Proof. apply loadFragment_keeps, scheduleFragment_keeps. Qed.

Lemma endCallback_keeps currentTime number :
  maintains inv (Reader.endCallback currentTime number).
Proof.
  intros r r'. unfold Reader.endCallback. intros H Hr. bind_inv H.
  eapply loadAndScheduleFragment_keeps; [done|].
  revert E. case_bool_decide.
  - intros E. bind_inv E. apply notify_queue in E. rewrite E. simpl.
    apply inv_finished; [by eapply queue_pause_paused|].
    by eapply queue_pause_keeps.
  - by intros [= <-].
Qed.

Lemma seekLoaded_keeps currentTime number offset :
  maintains inv (Reader.seekLoaded currentTime number offset).
Proof.
  intros r r'. unfold Reader.seekLoaded. case_bool_decide as Hc; [by intros [= <-]|].
  intros H Hr. bind_inv H. bind_inv H. bind_inv H.
  eapply loadAndScheduleFragment_keeps; [done|].
  eapply scheduleFragment_keeps; [done|].
  eapply queue_play_keeps; [done|]. simpl.
  by rewrite (notify_queue _ _ _ E).
Qed.

Lemma seek_setup_keeps currentTime time : maintains inv (Reader.seek_setup currentTime time).
Proof.
  intros r r'. unfold Reader.seek_setup. intros H Hr. bind_inv H. bind_inv H. bind_inv H.
  eapply loadFragment_keeps; [apply seekLoaded_keeps|done|].
  eapply queue_empty_keeps; [done|]. rewrite (notify_queue _ _ _ E0). simpl.
  eapply queue_pause_keeps; [done|]. done.
Qed.

Lemma seek_keeps currentTime time : maintains inv (Reader.seek currentTime time).
Proof.
  intros r r'. unfold Reader.seek. case_bool_decide as Hc; [by intros [= <-]|].
  intros H Hr. by eapply seek_setup_keeps.
Qed.

Lemma waitingFragments_tick_keeps currentTime j :
  maintains inv (Reader.waitingFragments_tick currentTime j).
Proof.
  intros r r'. unfold Reader.waitingFragments_tick.
  destruct (_ !! j); [|by intros [= <-]]. case_bool_decide as Hc; [by intros [= <-]|].
  intros H Hr. by eapply seek_setup_keeps.
Qed.

Lemma initialLoaded_keeps currentTime : maintains inv (Reader.initialLoaded currentTime).
Proof.
  intros r r'. unfold Reader.initialLoaded. destruct (Reader.jumped r); [by intros [= <-]|].
  intros H Hr. bind_inv H. bind_inv H.
  eapply loadAndScheduleFragment_keeps; [done|]. simpl.
  rewrite (notify_queue _ _ _ E0). by eapply scheduleFragment_keeps.
Qed.

Lemma runCallback_keeps currentTime callback :
  maintains inv (Reader.runCallback currentTime callback).
Proof.
  destruct callback; simpl.
  - apply initialLoaded_keeps.
  - apply scheduleFragment_keeps.
  - apply seekLoaded_keeps.
Qed.

Lemma metadataFetched_keeps currentTime metadata :
  maintains inv (Reader.metadataFetched currentTime metadata).
Proof.
  intros r r'. unfold Reader.metadataFetched. intros H Hr. bind_inv H.
  eapply loadFragment_keeps; [apply initialLoaded_keeps|done|].
  by rewrite (notify_queue _ _ _ E).
Qed.

Lemma fragmentDecoded_keeps currentTime j audioBuffer :
  maintains inv (Reader.fragmentDecoded currentTime j audioBuffer).
Proof.
  intros r r'. unfold Reader.fragmentDecoded.
  destruct (_ !! j) as [[number callback]|]; [|done]. simpl.
  destruct (Reader.destroyed r); [done|]. destruct (lookupZ _ _); [|done]. simpl.
  intros H Hr. by eapply runCallback_keeps.
Qed.

Lemma sourceEnded_keeps currentTime i : maintains inv (Reader.sourceEnded currentTime i).
Proof.
  intros r r'. unfold Reader.sourceEnded.
  destruct (_ !! i) as [source|] eqn:Hi; [|done]. simpl.
  destruct (Source.endTimer source) as [timer|] eqn:Htimer; [|done]. simpl.
  intros H Hr. bind_inv H. bind_inv H. injection H as <-. simpl.
  eapply inv_shift; [done|].
  pose proof (inv_spent _ _ _ _ Hi Htimer Hr) as Hspent.
  destruct (Source.endCallback source) as [number|].
  - by eapply endCallback_keeps.
  - by injection E as <-.
Qed.

Lemma destroy_keeps : maintains inv Reader.destroy.
Proof.
  intros r r'. unfold Reader.destroy. intros H Hr. bind_inv H. injection H as <-.
  simpl. by eapply queue_empty_keeps.
Qed.

Lemma run_keeps f s s' :
  (∀ now, maintains inv (f now)) →
  Session.run f s = Some s' →
  inv (Reader.queue (Session.reader s)) → inv (Reader.queue (Session.reader s')).
Proof.
  intros Hf. unfold Session.run. intros H Hs. bind_inv H. injection H as <-.
  simpl. by eapply Hf.
Qed.

Lemma step_keeps a s s' :
  Session.step a s = Some s' →
  inv (Reader.queue (Session.reader s)) → inv (Reader.queue (Session.reader s')).
Proof.
  intros H Hs.
  assert (Hrun : ∀ f s0,
    (∀ now, maintains inv (f now)) → Session.reader s0 = Session.reader s →
    Session.run f s0 = Some s' → inv (Reader.queue (Session.reader s'))).
  { intros f s0 Hf Hreader Hrun. eapply run_keeps; [done..|]. by rewrite Hreader. }
  destruct a; simpl in H;
    repeat match type of H with
      | (if ?b then _ else _) = Some _ => destruct b; [|discriminate H]
      | match ?o with Some _ => _ | None => _ end = Some _ => destruct o
      end;
    first
      [ by injection H as <-
      | eapply Hrun; [| |exact H]; [intros now|reflexivity] ];
    first
      [ apply queue_play_keeps | apply queue_pause_keeps | apply seek_keeps
      | apply metadataFetched_keeps | apply notify_keeps | apply fragmentDecoded_keeps
      | apply sourceEnded_keeps | apply waitingFragments_tick_keeps | apply destroy_keeps ].
Qed.

Lemma steps_keeps actions : ∀ s s',
  Session.steps actions s = Some s' →
  inv (Reader.queue (Session.reader s)) → inv (Reader.queue (Session.reader s')).
Proof.
  induction actions as [|a actions IH]; intros s s'; simpl.
  - by intros [= <-].
  - intros H Hs. bind_inv H. eapply IH; [done|]. by eapply step_keeps.
Qed.

End Invariant.

Lemma quiet_armed q source :
  quiet q → source ∈ SourceQueue.sources q → is_Some (Source.endTimer source) →
  SourceQueue.state q = STATE_PLAYING.
Proof.
  intros Hq Hsource [timer Htimer].
  destruct (decide (SourceQueue.state q = STATE_PLAYING)) as [|Hstate]; [done|].
  destruct (proj1 (Forall_forall _ _) (Hq Hstate) source Hsource) as [Hnone _]. congruence.
Qed.

Lemma cancel_silent source : silent (Source.cancel source).
Proof.
  split; [done|]. simpl. intros n. destruct (Source.node source); [|done].
  simpl. by intros [= <-].
Qed.

Lemma steps_quiet actions s s' :
  Session.steps actions s = Some s' →
  quiet (Reader.queue (Session.reader s)) → quiet (Reader.queue (Session.reader s')).
Proof.
  apply steps_keeps.
  - intros now q Hq _. unfold SourceQueue.pause. case_bool_decide as Hp.
    + simpl. apply Hq. by rewrite Hp.
    + destruct q as [st [|head rest] latest]; simpl; [done|].
      apply Forall_cons. split; [apply (cancel_silent head)|].
      apply Forall_fmap, Forall_true. intros source. apply cancel_silent.
  - intros now q q' effects. unfold SourceQueue.play.
    case_bool_decide as Hp; [by intros [= <- <-]|].
    case_bool_decide as Hf; [by intros [= <- <-]|]. simpl.
    destruct (SourceQueue.play_loop _ _ _ _); [|done]. simpl. by intros [= <- <-] _ ?.
  - intros now buffer number offset q q' res. unfold SourceQueue.push. simpl.
    case_bool_decide as Hp.
    + intros H. bind_inv H. bind_inv H. injection H as <- <-. intros _ Hstate. done.
    + intros [= <- <-] Hq Hstate. simpl in *. apply Forall_app. split; [by apply Hq|].
      apply Forall_singleton. unfold Reader.beforeSetup. by destruct (truthy offset).
  - intros q Hq _. simpl. done.
  - intros q q'. unfold SourceQueue.shift. destruct (SourceQueue.first q); [|done].
    simpl. intros [= <-] Hq Hstate. simpl in *. specialize (Hq Hstate).
    destruct (SourceQueue.sources q); [done|]. by apply Forall_cons in Hq as [_ ?].
  - intros q Hpaused Hq _. simpl. apply Hq. by rewrite Hpaused.
  - intros q i source timer Hi Htimer Hq Hstate. simpl in *. exfalso. apply Hstate.
    apply (quiet_armed q source Hq); [by eapply list_elem_of_lookup_2|by eexists].
Qed.

(** X17. Whatever the history of a player, while its queue is not
    playing (paused or finished) no source in the queue has an end
    timer, and no source has a connected node: nothing sounds, no
    end-of-fragment event can occur, and the player never moves on to
    another fragment, and never finishes, on its own. *)
Theorem no_timer_unless_playing (w c : Q) (actions : list Session.Action) (s : Session.t)
    (Hreached : Session.steps actions (Session.new_ w c) = Some s)
    (Hstate : SourceQueue.state (Reader.queue (Session.reader s)) ≠ STATE_PLAYING) :
  (∀ source, source ∈ SourceQueue.sources (Reader.queue (Session.reader s)) →
             Source.endTimer source = None
             ∧ ∀ n, Source.node source = Some n → Source.connected n = false)
  ∧ ∀ i, Session.timerLive i s = false
         ∧ Session.step (Session.SourceEnded i) s = None.
Proof.
  assert (Hquiet : quiet (Reader.queue (Session.reader s))).
  { apply (steps_quiet actions (Session.new_ w c)); [done|]. by intros _. }
  specialize (Hquiet Hstate).
  assert (Hlive : ∀ i, Session.timerLive i s = false).
  { intros i. unfold Session.timerLive.
    destruct (SourceQueue.sources (Reader.queue (Session.reader s)) !! i)
      as [source|] eqn:Hi; [|done].
    by rewrite (proj1 (proj1 (Forall_lookup _ _) Hquiet i source Hi)). }
  split.
  - intros source Hsource. by apply (proj1 (Forall_forall _ _) Hquiet).
  - intros i. split; [done|]. simpl. by rewrite Hlive.
Qed.

Lemma no_timer_unless_playing_witness :
  Session.steps (Samples.startup ++ Samples.through) (Session.new_ 0%Q 0%Q)
  = Some Samples.finished
  ∧ SourceQueue.state (Reader.queue (Session.reader Samples.finished)) ≠ STATE_PLAYING
  ∧ Session.timerLive 0 Samples.finished = false.
Proof.
  assert (H1 : Session.steps (Samples.startup ++ Samples.through) (Session.new_ 0%Q 0%Q)
               = Some Samples.finished) by (vm_compute; reflexivity).
  assert (H2 : SourceQueue.state (Reader.queue (Session.reader Samples.finished))
               ≠ STATE_PLAYING) by discriminate.
  split; [exact H1|]. split; [exact H2|].
  exact (proj1 (proj2 (no_timer_unless_playing 0%Q 0%Q _ Samples.finished H1 H2) 0)).
Defined.






(** ** The polls of pauseAll *)

Lemma pauseAll_loop_polls currentTime exceptId refs : ∀ w w',
  World.pauseAll_loop currentTime exceptId refs w = Some w' →
  length (World.polls w) ≤ length (World.polls w').
Proof.
  induction refs as [|ref refs IH]; intros w w'; simpl; [by intros [= <-]|].
  intros H. bind_inv H. bind_inv H. bind_inv H. apply IH in H. simpl in H.
  destruct (_ && _); [rewrite length_app in H; simpl in H; lia|done].
Qed.

Lemma pauseAll_wf currentTime m exceptId st st' :
  Polling.pauseAll currentTime m exceptId st = Some st' → polls_wf st → polls_wf st'.
Proof.
  unfold Polling.pauseAll. intros H (Hlen & Hshared & Hcleared). bind_inv H.
  injection H as <-. unfold World.pauseAll in E. bind_inv E.
  apply pauseAll_loop_polls in E. simpl.
  set (n := length (World.polls (Polling.world st))) in *.
  set (n' := length (World.polls x)) in *.
  assert (Hnew : ∀ k, n ≤ k < n' →
            (Polling.shared st ++ replicate (n' - n) (n' - 1)) !! k = Some (n' - 1)).
  { intros k Hk. rewrite lookup_app_r by lia. apply lookup_replicate_2. lia. }
  split; [|split]; simpl.
  - rewrite length_app, length_replicate. lia.
  - intros k h Hk. destruct (decide (k < n)) as [Hold|Hnew'].
    + rewrite lookup_app_l in Hk by lia. rewrite lookup_app_l.
      * by eapply Hshared.
      * apply Hshared in Hk. apply lookup_lt_Some in Hk. lia.
    + rewrite lookup_app_r in Hk by lia. apply lookup_replicate in Hk as [-> Hk].
      apply Hnew. lia.
  - intros c Hc. apply Hcleared in Hc. pose proof (lookup_lt_Some _ _ _ Hc).
    by rewrite lookup_app_l by lia.
Qed.

Lemma tick_wf currentTime k st st' :
  Polling.tick currentTime k st = Some st' → polls_wf st → polls_wf st'.
Proof.
  unfold Polling.tick. case_bool_decide as Hk; [done|].
  intros H (Hlen & Hshared & Hcleared). bind_inv H. bind_inv H. bind_inv H. bind_inv H.
  destruct (Reader.buffering x2); [by injection H as <-|].
  bind_inv H. injection H as <-. split; [done|]. split; [done|]. simpl.
  intros c Hc. apply elem_of_cons in Hc as [->|Hc]; [by eapply Hshared|by apply Hcleared].
Qed.

Lemma polling_steps_wf events : ∀ st st',
  Polling.steps events st = Some st' → polls_wf st → polls_wf st'.
Proof.
  induction events as [|e events IH]; intros st st'; simpl; [by intros [= <-]|].
  intros H Hst. bind_inv H. apply (IH x); [done|].
  destruct e as [now m exceptId|now k|managers heap players]; simpl in E.
  - by eapply pauseAll_wf.
  - by eapply tick_wf.
  - by injection E as <-.
Qed.

Lemma polling_steps_shared events : ∀ st st',
  Polling.steps events st = Some st' →
  ∃ more, Polling.shared st' = Polling.shared st ++ more.
Proof.
  induction events as [|e events IH]; intros st st'; simpl.
  - intros [= <-]. exists []. by rewrite app_nil_r.
  - intros H. bind_inv H. destruct (IH _ _ H) as [more ->].
    destruct e as [now m exceptId|now k|managers heap players]; simpl in E.
    + unfold Polling.pauseAll in E. bind_inv E. injection E as <-. simpl.
      rewrite <- app_assoc. by eexists.
    + unfold Polling.tick in E. case_bool_decide; [done|].
      bind_inv E. bind_inv E. bind_inv E. bind_inv E.
      destruct (Reader.buffering x3); [injection E as <-; by eexists|].
      bind_inv E. injection E as <-. by eexists.
    + injection E as <-. by eexists.
Qed.

(** X19. [pauseAll] declares [interval] with [var], so the callbacks of
    all the intervals one call starts clear the same interval: the last
    one. A call on players of which [n] need a poll starts [n]
    intervals, and whatever happens afterwards (calls of [pauseAll],
    ticks, anything else), none of them but the last is ever cleared;
    each time such an interval ticks while its player is live and not
    buffering, the player is paused again. *)
Theorem pauseAll_polls_are_never_cleared
    (currentTime : Q) (m : nat) (exceptId : option nat) (w : World.t)
    (events : list Polling.Event) (st st' : Polling.t)
    (Hfresh : World.polls w = [])
    (Hcall : Polling.pauseAll currentTime m exceptId (Polling.new_ w) = Some st)
    (Hlater : Polling.steps events st = Some st') :
  let n := length (World.polls (Polling.world st)) in
  World.polls (Polling.world st)
  = filter (λ ref, needs_poll exceptId w ref = true) (World.players w)
  ∧ ∀ k, S k < n →
      (k ∉ Polling.cleared st')
      ∧ Polling.shared st' !! k = Some (n - 1)
      ∧ ∀ now ref p r,
          World.polls (Polling.world st') !! k = Some ref →
          World.heap (Polling.world st') !! ref = Some p →
          World.reader p = Some r →
          Reader.destroyed r = false →
          Reader.buffering r = false →
          ∃ st'' p' r',
            Polling.tick now k st' = Some st''
            ∧ World.heap (Polling.world st'') !! ref = Some p'
            ∧ World.reader p' = Some r'
            ∧ SourceQueue.state (Reader.queue r') = STATE_PAUSED
            ∧ (k ∉ Polling.cleared st'').
Proof.
  intros n.
  assert (Hwf0 : polls_wf (Polling.new_ w)).
  { split; [simpl; by rewrite Hfresh|]. split; [done|].
    intros c Hc. by apply elem_of_nil in Hc. }
  pose proof (pauseAll_wf _ _ _ _ _ Hcall Hwf0) as Hwf.
  pose proof (polling_steps_wf _ _ _ Hlater Hwf) as (Hlen' & Hshared' & Hcleared').
  destruct (polling_steps_shared _ _ _ Hlater) as [more Hmore].
  unfold Polling.pauseAll in Hcall. bind_inv Hcall. injection Hcall as <-.
  simpl in n, Hmore. rewrite Hfresh in Hmore. simpl in Hmore.
  rewrite Nat.sub_0_r in Hmore. fold n in Hmore.
  split.
  - simpl. unfold World.pauseAll, World.players_of in E. bind_inv E. bind_inv E0.
    injection E0 as <-.
    pose proof (pauseAll_loop_alive _ _ _ _ _ E) as Halive.
    destruct (pauseAll_loop_total currentTime exceptId _ w Halive)
      as (w'' & Hloop' & _ & _ & Hpolls & _).
    rewrite E in Hloop'. injection Hloop' as <-. by rewrite Hpolls, Hfresh.
  - intros k Hk.
    assert (Hhandle : Polling.shared st' !! k = Some (n - 1)).
    { rewrite Hmore, lookup_app_l by (rewrite length_replicate; lia).
      apply lookup_replicate_2. lia. }
    assert (Hnot : k ∉ Polling.cleared st').
    { intros Hc. apply Hcleared' in Hc. rewrite Hhandle in Hc. injection Hc as Hc. lia. }
    split; [done|]. split; [done|].
    intros now ref p r Hpoll Hp Hr Halive Hbuffering.
    unfold Polling.tick. rewrite bool_decide_eq_false_2 by done.
    rewrite Hpoll, Hhandle. simpl. rewrite Hp. simpl. rewrite Hr. simpl. rewrite Hbuffering.
    destruct (Player_pause_spec now p r Hr Halive)
      as (p' & r' & -> & Hr' & _ & _ & _ & Hq).
    simpl. eexists _, p', r'. split; [done|]. simpl.
    split; [apply list_lookup_insert_eq; by eapply lookup_lt_Some|]. split; [done|].
    split; [done|].
    intros Hc. apply elem_of_cons in Hc as [Heq|Hc]; [lia|done].
Qed.

Lemma pauseAll_polls_are_never_cleared_witness :
  World.polls Samples.addedTwice = []
  ∧ Polling.pauseAll 1%Q 0 None (Polling.new_ Samples.addedTwice) = Some polled
  ∧ Polling.steps [Polling.Tick 2%Q 1] polled = Some polled
  ∧ World.polls (Polling.world polled) = [0; 1]
  ∧ (0 ∉ Polling.cleared polled)
  ∧ Polling.shared polled !! 0 = Some 1.
Proof.
  assert (H1 : World.polls Samples.addedTwice = []) by reflexivity.
  assert (H2 : Polling.pauseAll 1%Q 0 None (Polling.new_ Samples.addedTwice) = Some polled)
    by (vm_compute; reflexivity).
  assert (H3 : Polling.steps [Polling.Tick 2%Q 1] polled = Some polled)
    by (vm_compute; reflexivity).
  split; [exact H1|]. split; [exact H2|]. split; [exact H3|]. split; [reflexivity|].
  destruct (proj2 (pauseAll_polls_are_never_cleared 1%Q 0 None Samples.addedTwice
                     [Polling.Tick 2%Q 1] polled polled H1 H2 H3) 0)
    as (Hnot & Hshared & _); [simpl; lia|].
  split; [exact Hnot|exact Hshared].
Defined.
